(** * SpeechRestAPI: the streaming text-to-speech client

    A shallow embedding of [SpeechRestAPI.cpp] (text locator, protocol
    framer, audio pipeline, session controller), followed by the
    properties that the design document states about it.

    Conventions.
    - [size_t] is an unsigned 64-bit integer, modelled in [N] with the
      wrap-around of [+] and [-] written out; [npos] is its largest value.
    - [std::string], [std::wstring] and their views are lists of code
      units ([N]); a view operation that the C++ standard leaves
      undefined outside its precondition yields [Undefined].
    - A function that may throw returns an [outcome].
    - Calls that leave the object (host callbacks, the decoder, the
      transport) are appended to a call log. *)

From Stdlib Require Import NArith ZArith Lia String Ascii List Bool DecimalString.
From stdpp Require Import base tactics option list gmap.
Import ListNotations.
Local Open Scope N_scope.
Set Warnings "-register-all".

(** ** Outcomes of C++ calls *)

Inductive exn : Type :=
| out_of_range          (* std::out_of_range, json::out_of_range *)
| type_error            (* json::type_error *)
| parse_error           (* json::parse_error *)
| future_error          (* std::future_error: promise already satisfied *)
| system_error (code : N) (* asio / websocketpp error code *)
| decoder_error (code : N). (* raised by Mp3Decoder::Convert or the sample sink *)

Inductive outcome (A : Type) : Type :=
| Ret (a : A)
| Throw (e : exn)
| Undefined      (* precondition of a standard-library call violated *)
| OutOfFuel.     (* the loop bound of the model was reached *)
Arguments Ret {A} a.
Arguments Throw {A} e.
Arguments Undefined {A}.
Arguments OutOfFuel {A}.

Definition outcome_bind {A B} (f : A → outcome B) (m : outcome A) : outcome B :=
  match m with
  | Ret a => f a
  | Throw e => Throw e
  | Undefined => Undefined
  | OutOfFuel => OutOfFuel
  end.

#[global] Instance outcome_mbind : MBind outcome := @outcome_bind.
#[global] Instance outcome_mret : MRet outcome := @Ret.

(** ** size_t *)

Definition size_max : N := 2 ^ 64.
Definition npos : N := size_max - 1.
Definition size_add (a b : N) : N := (a + b) mod size_max.
Definition size_sub (a b : N) : N := (a + size_max - b mod size_max) mod size_max.

(** ** std::basic_string_view *)

Definition string_view : Type := list N.

Definition lit (s : string) : string_view :=
  map N_of_ascii (list_ascii_of_string s).

Definition sv_size (s : string_view) : N := N.of_nat (length s).

(** Strings that a C++ program can hold: [size() < npos]. *)
Definition fits (s : string_view) : Prop := sv_size s < npos.

Fixpoint starts_with (w s : string_view) : bool :=
  match w, s with
  | [], _ => true
  | _ :: _, [] => false
  | a :: w', b :: s' => (a =? b) && starts_with w' s'
  end.

Fixpoint find_from (w s : string_view) (i : N) : N :=
  if starts_with w s then i
  else match s with
       | [] => npos
       | _ :: s' => find_from w s' (i + 1)
       end.

(** [s.find(w, pos)]: the first index [>= pos] where [w] occurs, or [npos]. *)
Definition sv_find (s w : string_view) (pos : N) : N :=
  if sv_size s <? pos then npos
  else find_from w (drop (N.to_nat pos) s) pos.

(** [s.find(ch, pos)]. *)
Definition sv_find_char (s : string_view) (ch : N) (pos : N) : N :=
  sv_find s [ch] pos.

(** [s.substr(pos, n)] throws when [pos > size()]; otherwise it is the
    view of [min(n, size() - pos)] characters from [pos]. *)
Definition sv_substr (s : string_view) (pos n : N) : outcome string_view :=
  if sv_size s <? pos then Throw out_of_range
  else Ret (take (N.to_nat (N.min n (sv_size s - pos))) (drop (N.to_nat pos) s)).

(** [s.substr(pos)]. *)
Definition sv_substr_from (s : string_view) (pos : N) : outcome string_view :=
  sv_substr s pos npos.

(** [s.remove_prefix(n)] requires [n <= size()]. *)
Definition sv_remove_prefix (n : N) (s : string_view) : outcome string_view :=
  if sv_size s <? n then Undefined
  else Ret (drop (N.to_nat n) s).

(** ** Text locator *)

Definition ch_lt : N := 60.    (* '<' *)
Definition ch_gt : N := 62.    (* '>' *)
Definition ch_amp : N := 38.   (* '&' *)
Definition ch_quot : N := 34.  (* the double quote *)
Definition ch_apos : N := 39.  (* the single quote *)

Definition XmlEscape_char (ch : N) : string_view :=
  if ch =? ch_lt then lit "&lt;"
  else if ch =? ch_gt then lit "&gt;"
  else if ch =? ch_amp then lit "&amp;"
  else if ch =? ch_quot then lit "&quot;"
  else if ch =? ch_apos then lit "&apos;"
  else [ch].

Fixpoint XmlEscape (str : string_view) : string_view :=
  match str with
  | [] => []
  | ch :: rest => XmlEscape_char ch ++ XmlEscape rest
  end.

(** The inner [for (;;)] of [FindWord]: [true] when every '<' of
    [beforeWord] has its '>' (the exit through [return]), [false] when
    one does not (the exit through [break]). *)
Fixpoint tag_scan (fuel : nat) (beforeWord : string_view) : outcome bool :=
  match fuel with
  | O => OutOfFuel
  | S fuel' =>
      let tagStart := sv_find_char beforeWord ch_lt 0 in
      if tagStart =? npos then Ret true
      else
        let tagEnd := sv_find_char beforeWord ch_gt (size_add tagStart 1) in
        if tagEnd =? npos then Ret false
        else
          rest ← sv_remove_prefix (size_add tagEnd 1) beforeWord;
          tag_scan fuel' rest
  end.

Definition tag_check (beforeWord : string_view) : outcome bool :=
  tag_scan (S (length beforeWord)) beforeWord.

(** One evaluation of the [while] of [FindWord] at [startpos]. *)
Inductive candidate : Type :=
| NoOccurrence                       (* the loop condition is false *)
| Accepted (wordPos : N)             (* [return wordPos] *)
| Rejected (wordPos next_startpos : N). (* [break], then the new [startpos] *)

Definition FindWord_body (ssml word : string_view) (startpos : N)
  : outcome candidate :=
  let wordPos := sv_find ssml word startpos in
  if wordPos =? npos then Ret NoOccurrence
  else
    beforeWord ← sv_substr ssml startpos (size_sub wordPos startpos);
    ok ← tag_check beforeWord;
    if ok : bool then Ret (Accepted wordPos)
    else Ret (Rejected wordPos
                (sv_find_char ssml ch_gt (size_add wordPos (sv_size word)))).

(** What [FindWord] hands back: the returned offset, the value left in
    [lastPos], and (not part of the program) how many times the body of
    the [while] was entered. *)
Record located : Type := Located {
  found_at : N;
  cursor : N;
  iterations : nat
}.

Fixpoint FindWord_loop (fuel : nat) (ssml word : string_view)
    (lastPos startpos : N) (iters : nat) : outcome located :=
  match fuel with
  | O => OutOfFuel
  | S fuel' =>
      c ← FindWord_body ssml word startpos;
      match c with
      | NoOccurrence => Ret (Located npos lastPos iters)
      | Accepted wordPos =>
          Ret (Located wordPos (size_add wordPos (sv_size word)) (S iters))
      | Rejected _ startpos' =>
          FindWord_loop fuel' ssml word lastPos startpos' (S iters)
      end
  end.

(** [FindWord] after the conversion of [utf8Word] to wide characters and
    its escaping. *)
Definition FindWord_wide (ssml word : string_view) (lastPos : N)
  : outcome located :=
  FindWord_loop (S (length ssml)) ssml word lastPos lastPos O.

Section Locator.
(** [UTF8ToWString] of StrUtils.h. *)
Variable UTF8ToWString : string_view → string_view.

Definition FindWord (m_ssml utf8Word : string_view) (lastPos : N)
  : outcome located :=
  FindWord_wide m_ssml (XmlEscape (UTF8ToWString utf8Word)) lastPos.
End Locator.

(** ** nlohmann::json values *)

Inductive json : Type :=
| JNull
| JBool (b : bool)
| JNum (n : N)                 (* a number; only unsigned ones are modelled *)
| JStr (s : string_view)
| JArr (items : list json)
| JObj (members : list (string * json)).

Fixpoint members_lookup (key : string) (ms : list (string * json)) : option json :=
  match ms with
  | [] => None
  | (k, v) :: ms' => if String.eqb k key then Some v else members_lookup key ms'
  end.

(** [j.at(key)]: [type_error] on a non-object, [out_of_range] on a
    missing key. *)
Definition json_at (j : json) (key : string) : outcome json :=
  match j with
  | JObj ms =>
      match members_lookup key ms with
      | Some v => Ret v
      | None => Throw out_of_range
      end
  | _ => Throw type_error
  end.

(** Conversion to [std::string]. *)
Definition json_get_string (j : json) : outcome string_view :=
  match j with
  | JStr s => Ret s
  | _ => Throw type_error
  end.

(** Conversion to an unsigned integer of [bits] bits: numbers are cast;
    booleans count as 0 and 1, except for the library's own 64-bit number
    type, which takes numbers only; anything else is a [type_error]. *)
Definition json_get_unsigned (bits : N) (j : json) : outcome N :=
  match j with
  | JNum n => Ret (n mod 2 ^ bits)
  | JBool b => if bits =? 64 then Throw type_error
               else Ret (if b then 1 else 0)
  | _ => Throw type_error
  end.

(** What a range-based [for] over [j] visits: the elements of an array,
    the values of an object, nothing for null, the value itself
    otherwise. *)
Definition json_items (j : json) : list json :=
  match j with
  | JArr items => items
  | JObj ms => map snd ms
  | JNull => []
  | _ => [j]
  end.

(** ** The object *)

Definition connection_hdl : Type := nat.

Inductive speak_result : Type :=
| speak_value                      (* [set_value()] *)
| speak_exception (e : exn).       (* [set_exception(ex)] *)

(** Whether each [std::function] member holds a target. *)
Record Callbacks : Type := mkCallbacks {
  VisemeCallback : bool;
  PunctuationBoundaryCallback : bool;
  WordBoundaryCallback : bool;
  SentenceBoundaryCallback : bool;
  SessionEndCallback : bool;
  BookmarkCallback : bool
}.

(** Calls that leave the object, in the order they are made. *)
Inductive call : Type :=
| call_Viseme (offset id : N)
| call_PunctuationBoundary (offset pos len : N)
| call_WordBoundary (offset pos len : N)
| call_SentenceBoundary (offset pos len : N)
| call_SessionEnd (offset : N)
| call_Bookmark (offset : N) (name : string_view)
| call_Convert (mp3data : string_view)
| call_send (hdl : connection_hdl) (payload : string_view)
| call_close (hdl : connection_hdl)
| call_connect (hdl : connection_hdl)
| call_promise (r : speak_result).

Record SpeechRestAPI : Type := mkAPI {
  m_ssml : string_view;
  m_lastWordPos : N;
  m_lastSentencePos : N;
  m_connection : option connection_hdl;
  m_isPromiseSet : bool;
  m_speakPromise : option speak_result;   (* [None]: not yet satisfied *)
  m_mp3Queue : list string_view;
  m_mp3QueueDone : bool;
  m_isStopping : bool;
  m_callbacks : Callbacks;
  calls : list call
}.

Definition set_ssml (v : string_view) (st : SpeechRestAPI) : SpeechRestAPI :=
  mkAPI v (m_lastWordPos st) (m_lastSentencePos st) (m_connection st)
    (m_isPromiseSet st) (m_speakPromise st) (m_mp3Queue st)
    (m_mp3QueueDone st) (m_isStopping st) (m_callbacks st) (calls st).
Definition set_lastWordPos (v : N) (st : SpeechRestAPI) : SpeechRestAPI :=
  mkAPI (m_ssml st) v (m_lastSentencePos st) (m_connection st)
    (m_isPromiseSet st) (m_speakPromise st) (m_mp3Queue st)
    (m_mp3QueueDone st) (m_isStopping st) (m_callbacks st) (calls st).
Definition set_lastSentencePos (v : N) (st : SpeechRestAPI) : SpeechRestAPI :=
  mkAPI (m_ssml st) (m_lastWordPos st) v (m_connection st)
    (m_isPromiseSet st) (m_speakPromise st) (m_mp3Queue st)
    (m_mp3QueueDone st) (m_isStopping st) (m_callbacks st) (calls st).
Definition set_connection (v : option connection_hdl) (st : SpeechRestAPI)
  : SpeechRestAPI :=
  mkAPI (m_ssml st) (m_lastWordPos st) (m_lastSentencePos st) v
    (m_isPromiseSet st) (m_speakPromise st) (m_mp3Queue st)
    (m_mp3QueueDone st) (m_isStopping st) (m_callbacks st) (calls st).
Definition set_isPromiseSet (v : bool) (st : SpeechRestAPI) : SpeechRestAPI :=
  mkAPI (m_ssml st) (m_lastWordPos st) (m_lastSentencePos st) (m_connection st)
    v (m_speakPromise st) (m_mp3Queue st)
    (m_mp3QueueDone st) (m_isStopping st) (m_callbacks st) (calls st).
Definition set_speakPromise (v : option speak_result) (st : SpeechRestAPI)
  : SpeechRestAPI :=
  mkAPI (m_ssml st) (m_lastWordPos st) (m_lastSentencePos st) (m_connection st)
    (m_isPromiseSet st) v (m_mp3Queue st)
    (m_mp3QueueDone st) (m_isStopping st) (m_callbacks st) (calls st).
Definition set_mp3Queue (v : list string_view) (st : SpeechRestAPI)
  : SpeechRestAPI :=
  mkAPI (m_ssml st) (m_lastWordPos st) (m_lastSentencePos st) (m_connection st)
    (m_isPromiseSet st) (m_speakPromise st) v
    (m_mp3QueueDone st) (m_isStopping st) (m_callbacks st) (calls st).
Definition set_mp3QueueDone (v : bool) (st : SpeechRestAPI) : SpeechRestAPI :=
  mkAPI (m_ssml st) (m_lastWordPos st) (m_lastSentencePos st) (m_connection st)
    (m_isPromiseSet st) (m_speakPromise st) (m_mp3Queue st)
    v (m_isStopping st) (m_callbacks st) (calls st).
Definition log_call (c : call) (st : SpeechRestAPI) : SpeechRestAPI :=
  mkAPI (m_ssml st) (m_lastWordPos st) (m_lastSentencePos st) (m_connection st)
    (m_isPromiseSet st) (m_speakPromise st) (m_mp3Queue st)
    (m_mp3QueueDone st) (m_isStopping st) (m_callbacks st) (calls st ++ [c]).

(** ** Member functions: state and exceptions *)

Inductive hres (A : Type) : Type :=
| HRet (a : A) (st : SpeechRestAPI)
| HThrow (e : exn) (st : SpeechRestAPI)   (* the state reached by the throw *)
| HUndefined
| HOutOfFuel.
Arguments HRet {A} a st.
Arguments HThrow {A} e st.
Arguments HUndefined {A}.
Arguments HOutOfFuel {A}.

Definition M (A : Type) : Type := SpeechRestAPI → hres A.

Definition M_bind {A B} (f : A → M B) (m : M A) : M B :=
  λ st, match m st with
        | HRet a st' => f a st'
        | HThrow e st' => HThrow e st'
        | HUndefined => HUndefined
        | HOutOfFuel => HOutOfFuel
        end.

#[global] Instance M_mbind : MBind M := @M_bind.
#[global] Instance M_mret : MRet M := λ A a st, HRet a st.

Definition gets {A} (f : SpeechRestAPI → A) : M A := λ st, HRet (f st) st.
Definition modify (f : SpeechRestAPI → SpeechRestAPI) : M unit :=
  λ st, HRet () (f st).
Definition throw {A} (e : exn) : M A := λ st, HThrow e st.
Definition lift {A} (o : outcome A) : M A :=
  λ st, match o with
        | Ret a => HRet a st
        | Throw e => HThrow e st
        | Undefined => HUndefined
        | OutOfFuel => HOutOfFuel
        end.
(** [try { body } catch (...) { handler(std::current_exception()) }] *)
Definition try_catch (body : M unit) (handler : exn → M unit) : M unit :=
  λ st, match body st with
        | HThrow e st' => handler e st'
        | r => r
        end.
Definition when (b : bool) (m : M unit) : M unit := if b then m else mret ().

(** *** Completion handle *)

(** [m_isPromiseSet.test_and_set()] *)
Definition test_and_set : M bool :=
  λ st, HRet (m_isPromiseSet st) (set_isPromiseSet true st).

(** [m_speakPromise.set_value()] and [set_exception(ex)]: a promise that
    is already satisfied throws. *)
Definition promise_set (r : speak_result) : M unit :=
  λ st, match m_speakPromise st with
        | Some _ => HThrow future_error st
        | None => HRet () (log_call (call_promise r) (set_speakPromise (Some r) st))
        end.

Definition SpeakComplete : M unit :=
  was ← test_and_set;
  when (negb was) (promise_set speak_value).

Definition SpeakError (ex : exn) : M unit :=
  was ← test_and_set;
  when (negb was) (promise_set (speak_exception ex)).

(** Racing triggers: each thread that enters one of the two functions
    first runs the [test_and_set], and only later, if it won, the [set_*]. *)
Inductive trigger : Type :=
| Success
| Failure (ex : exn).

Definition result_of (t : trigger) : speak_result :=
  match t with
  | Success => speak_value
  | Failure ex => speak_exception ex
  end.

Definition fire (t : trigger) : M unit :=
  match t with
  | Success => SpeakComplete
  | Failure ex => SpeakError ex
  end.

Inductive racer : Type :=
| Entering (t : trigger)     (* before [test_and_set] *)
| Holding (t : trigger)      (* [test_and_set] returned false *)
| Left.                      (* returned *)

Definition racer_step (r : racer) : M racer :=
  match r with
  | Entering t =>
      was ← test_and_set;
      mret (if was : bool then Left else Holding t)
  | Holding t => promise_set (result_of t);; mret Left
  | Left => mret Left
  end.

(** A schedule names, step by step, the thread that moves. *)
Fixpoint race (sched : list nat) (rs : list racer) : M (list racer) :=
  match sched with
  | [] => mret rs
  | i :: sched' =>
      match rs !! i with
      | None => race sched' rs
      | Some r => r' ← racer_step r; race sched' (<[i:=r']> rs)
      end
  end.

(** *** Pipeline, producer side *)

Definition Mp3QueuePush (msg : string_view) : M unit :=
  modify (λ st, set_mp3Queue (m_mp3Queue st ++ [msg]) st).

Definition Mp3QueueDone : M unit :=
  modify (set_mp3QueueDone true).

Definition reset_connection : M unit := modify (set_connection None).

Definition Stop : M unit :=
  con ← gets m_connection;
  match con with
  | Some hdl => modify (log_call (call_close hdl));; reset_connection
  | None => mret ()
  end;;
  modify (set_mp3Queue []);;
  modify (set_mp3QueueDone true).

(** ** Session controller *)

(** Modelled from the spec: the callback signatures of SpeechRestAPI.h are
    not among the sources. The design names, besides the 64-bit audio
    offset, a start position, a length and a viseme id, all numbers, and a
    bookmark name, a string; the numbers are taken as 32-bit, the width to
    which [OnSynthEvent] casts the position. *)
Definition callback_arg_bits : N := 32.

Definition crlf : string_view := [13; 10].

Inductive message : Type :=
| binary_message (raw_payload : string_view)
| text_message (payload : string_view).

(** What the transport delivers to the handlers. [ev_open] carries the
    two readings of the clock and the fresh request id that [OnOpen]
    obtains; [ev_fail] carries the connection's error code, if it is one. *)
Inductive event : Type :=
| ev_open (hdl : connection_hdl) (stamp1 stamp2 reqId : string_view)
| ev_message (hdl : connection_hdl) (msg : message)
| ev_close (hdl : connection_hdl)
| ev_fail (hdl : connection_hdl) (ec : option exn).

Inductive cursor_sel : Type := word_cursor | sentence_cursor.

Definition cursor_get (c : cursor_sel) : SpeechRestAPI → N :=
  match c with
  | word_cursor => m_lastWordPos
  | sentence_cursor => m_lastSentencePos
  end.

Definition cursor_set (c : cursor_sel) : N → SpeechRestAPI → SpeechRestAPI :=
  match c with
  | word_cursor => set_lastWordPos
  | sentence_cursor => set_lastSentencePos
  end.

Fixpoint for_each {A} (f : A → M unit) (l : list A) : M unit :=
  match l with
  | [] => mret ()
  | x :: l' => f x;; for_each f l'
  end.

Definition IsCurrentConnection (hdl : connection_hdl) : M bool :=
  gets (λ st, bool_decide (m_connection st = Some hdl)).

Definition OnClose (hdl : connection_hdl) : M unit :=
  cur ← IsCurrentConnection hdl;
  if negb cur then mret ()
  else reset_connection;; Mp3QueueDone.

Definition OnFail (hdl : connection_hdl) (ec : option exn) : M unit :=
  cur ← IsCurrentConnection hdl;
  if negb cur then mret ()
  else
    reset_connection;;
    Mp3QueueDone;;
    try_catch
      (match ec with Some e => throw e | None => mret () end)
      SpeakError.

(** The JSON literal of [OnOpen]. *)
Definition speech_config (cb : Callbacks) : json :=
  JObj [("context"%string, JObj [
    ("synthesis"%string, JObj [
      ("audio"%string, JObj [
        ("metadataOptions"%string, JObj [
          ("bookmarkEnabled"%string, JBool (BookmarkCallback cb));
          ("punctuationBoundaryEnabled"%string,
             JBool (PunctuationBoundaryCallback cb));
          ("sentenceBoundaryEnabled"%string, JBool (SentenceBoundaryCallback cb));
          ("wordBoundaryEnabled"%string, JBool (WordBoundaryCallback cb));
          ("visemeEnabled"%string, JBool (VisemeCallback cb))
        ]);
        ("outputFormat"%string, JStr (lit "audio-24khz-96kbitrate-mono-mp3"))
      ]);
      ("language"%string, JObj [
        ("autoDetection"%string, JBool false)
      ])
    ])
  ])].

Section Session.
(** [UTF8ToWString] and [WStringToUTF8] of StrUtils.h. *)
Variable UTF8ToWString : string_view → string_view.
Variable WStringToUTF8 : string_view → string_view.
(** [nlohmann::json::parse] ([None]: a parse error) and [dump]. *)
Variable json_parse : string_view → option json.
Variable json_dump : json → string_view.
(** C++ leaves the order in which the arguments of a call are
    evaluated to the compiler. *)
Variable args_left_to_right : bool.

(** [(uint32_t)FindWord(info.at("Text"), cursor)] *)
Definition locate (info : json) (c : cursor_sel) : M N :=
  text ← lift (json_at info "Text" ≫= json_get_string);
  ssml ← gets m_ssml;
  lastPos ← gets (cursor_get c);
  r ← lift (FindWord UTF8ToWString ssml text lastPos);
  modify (cursor_set c (cursor r));;
  mret (found_at r mod 2 ^ 32).

(** [info.at("Length")], converted for the callback. *)
Definition length_arg (info : json) : M N :=
  lift (json_at info "Length" ≫= json_get_unsigned callback_arg_bits).

Definition boundary_args (info : json) (c : cursor_sel) : M (N * N) :=
  if args_left_to_right then
    pos ← locate info c; len ← length_arg info; mret (pos, len)
  else
    len ← length_arg info; pos ← locate info c; mret (pos, len).

Definition OnSynthEvent (metadata : json) : M unit :=
  type ← lift (json_at metadata "Type" ≫= json_get_string);
  data ← lift (json_at metadata "Data");
  offset ← lift (json_at data "Offset" ≫= json_get_unsigned 64);
  cb ← gets m_callbacks;
  if bool_decide (type = lit "Viseme") then
    when (VisemeCallback cb)
      (id ← lift (json_at data "VisemeId"
                  ≫= json_get_unsigned callback_arg_bits);
       modify (log_call (call_Viseme offset id)))
  else if bool_decide (type = lit "WordBoundary") then
    info ← lift (json_at data "text");
    boundaryType ← lift (json_at info "BoundaryType" ≫= json_get_string);
    if bool_decide (boundaryType = lit "PunctuationBoundary") then
      when (PunctuationBoundaryCallback cb)
        ('(pos, len) ← boundary_args info word_cursor;
         modify (log_call (call_PunctuationBoundary offset pos len)))
    else
      when (WordBoundaryCallback cb)
        ('(pos, len) ← boundary_args info word_cursor;
         modify (log_call (call_WordBoundary offset pos len)))
  else if bool_decide (type = lit "SentenceBoundary") then
    info ← lift (json_at data "text");
    when (SentenceBoundaryCallback cb)
      ('(pos, len) ← boundary_args info sentence_cursor;
       modify (log_call (call_SentenceBoundary offset pos len)))
  else if bool_decide (type = lit "SessionEnd") then
    when (SessionEndCallback cb)
      (modify (log_call (call_SessionEnd offset)))
  else if bool_decide (type = lit "Bookmark") then
    when (BookmarkCallback cb)
      (name ← lift (json_at data "Bookmark" ≫= json_get_string);
       modify (log_call (call_Bookmark offset name)))
  else mret ().

Definition OnOpen (hdl : connection_hdl) (stamp1 stamp2 reqId : string_view)
  : M unit :=
  cur ← IsCurrentConnection hdl;
  if negb cur then mret ()
  else
    cb ← gets m_callbacks;
    ssml ← gets m_ssml;
    modify (log_call (call_send hdl
      (lit "X-Timestamp:" ++ stamp1 ++ crlf
       ++ lit "Content-Type:application/json; charset=utf-8" ++ crlf
       ++ lit "Path:speech.config" ++ crlf ++ crlf
       ++ json_dump (speech_config cb))));;
    modify (log_call (call_send hdl
      (lit "X-Timestamp:" ++ stamp2 ++ crlf
       ++ lit "X-RequestId:" ++ reqId ++ crlf
       ++ lit "Content-Type:application/ssml+xml" ++ crlf
       ++ lit "Path:ssml" ++ crlf ++ crlf
       ++ WStringToUTF8 ssml))).

Definition OnMessage (hdl : connection_hdl) (msg : message) : M unit :=
  cur ← IsCurrentConnection hdl;
  if negb cur then mret ()
  else
    match msg with
    | binary_message raw => Mp3QueuePush raw
    | text_message text =>
        let pathStartPos := sv_find text (lit "Path:") 0 in
        if pathStartPos =? npos then mret ()
        else
          let pathStartPos := size_add pathStartPos 5 in
          let pathEndPos := sv_find text (crlf ++ crlf) pathStartPos in
          if pathEndPos =? npos then mret ()
          else
            path ← lift (sv_substr text pathStartPos
                           (size_sub pathEndPos pathStartPos));
            if bool_decide (path = lit "audio.metadata") then
              body ← lift (sv_substr_from text (size_add pathEndPos 4));
              doc ← lift (match json_parse body with
                          | Some j => Ret j
                          | None => Throw parse_error
                          end);
              metadata ← lift (json_at doc "Metadata");
              for_each OnSynthEvent (json_items metadata)
            else if bool_decide (path = lit "turn.end") then
              (* [m_connection] is the connection of [hdl] here *)
              modify (log_call (call_close hdl));;
              reset_connection;;
              Mp3QueueDone
            else mret ()
    end.

Definition handle (ev : event) : M unit :=
  match ev with
  | ev_open hdl stamp1 stamp2 reqId => OnOpen hdl stamp1 stamp2 reqId
  | ev_message hdl msg => OnMessage hdl msg
  | ev_close hdl => OnClose hdl
  | ev_fail hdl ec => OnFail hdl ec
  end.

(** One turn of the [for (;;)] of [AsioThread]: the event loop runs a
    handler; what the handler throws leaves [m_client.run()], is passed
    to [SpeakError], and the loop is entered again. *)
Definition AsioThread_dispatch (ev : event) : M unit :=
  try_catch (handle ev) SpeakError.

Definition AsioThread (evs : list event) : M unit :=
  for_each AsioThread_dispatch evs.

(** [SpeakAsync] from the point where the connection [con] exists. *)
Definition SpeakAsync (ssml : string_view) (con : connection_hdl) : M unit :=
  modify (set_ssml ssml);;
  modify (set_lastWordPos 0);;
  modify (set_lastSentencePos 0);;
  modify (set_speakPromise None);;
  modify (set_isPromiseSet false);;
  modify (set_connection (Some con));;
  modify (log_call (call_connect con)).
End Session.

(** ** Audio pipeline, consumer side *)

Definition audio_marker : string_view := lit "Path:audio" ++ crlf.

(** The bytes of a queued message that go to the decoder, if any. *)
Definition mp3data_of (msg : string_view) : outcome (option string_view) :=
  mp3data ← sv_remove_prefix 2 msg;
  let delimPos := sv_find mp3data audio_marker 0 in
  if delimPos =? npos then Ret None
  else
    mp3data ← sv_remove_prefix (size_add delimPos 12) mp3data;
    Ret (Some mp3data).

(** [(DWORD)n]: a [size_t] cast to 32 bits. *)
Definition DWORD_of (n : N) : N := n mod 2 ^ 32.

(** What a call [Convert(data.data(), (DWORD)data.size(), ...)] hands to
    the decoder: the address of [data] and a length of 32 bits, that is,
    the first [(DWORD)data.size()] bytes of [data]. *)
Definition dword_buffer (data : string_view) : string_view :=
  take (N.to_nat (DWORD_of (sv_size data))) data.

Section Pipeline.
(** Mp3Decoder.h: a decoder object, and [Convert], which changes it,
    hands samples to the sink and may throw. Its argument here is the
    buffer it is given. *)
Variable Decoder : Type.
Variable Mp3Decoder_new : Decoder.
Variable Convert : Decoder → string_view → Decoder * option exn.

(** The locals of [Mp3Thread]: the decoder, the message taken from the
    queue and not yet decoded, and whether the function has returned. *)
Record Mp3Worker : Type := mkWorker {
  mp3Decoder : Decoder;
  msg : option string_view;
  returned : bool
}.

Definition catching {A} (body : M A) (handler : exn → M A) : M A :=
  λ st, match body st with
        | HThrow e st' => handler e st'
        | r => r
        end.

(** The block under the lock, entered at the top of the loop or on
    waking from [wait]. *)
Definition Mp3Thread_locked (w : Mp3Worker) : M Mp3Worker :=
  catching
    (stopping ← gets m_isStopping;
     queue ← gets m_mp3Queue;
     match queue with
     | [] =>
         if stopping : bool then mret (mkWorker (mp3Decoder w) None true)
         else
           done ← gets m_mp3QueueDone;
           if done : bool then
             SpeakComplete;;
             modify (set_mp3QueueDone false);;
             mret (mkWorker Mp3Decoder_new None false)
           else mret w
     | front :: rest =>
         if stopping : bool then mret (mkWorker (mp3Decoder w) None true)
         else
           modify (set_mp3Queue rest);;
           mret (mkWorker (mp3Decoder w) (Some front) false)
     end)
    (λ e, SpeakError e;; mret w).

(** The rest of the loop body, run without the lock. Only [Convert]
    can throw there; the [catch] hands what it throws to [SpeakError],
    and the loop goes on with the decoder as [Convert] left it. *)
Definition Mp3Thread_unlocked (w : Mp3Worker) (m : string_view)
  : M Mp3Worker :=
  mp3data ← lift (mp3data_of m);
  match mp3data with
  | None => mret (mkWorker (mp3Decoder w) None false)
  | Some data =>
      (* [Convert(mp3data.data(), (DWORD)mp3data.size(), ...)] *)
      let buffer := dword_buffer data in
      modify (log_call (call_Convert buffer));;
      let '(dec, err) := Convert (mp3Decoder w) buffer in
      try_catch (match err with Some e => throw e | None => mret () end)
                SpeakError;;
      mret (mkWorker dec None false)
  end.

Definition Mp3Thread_step (w : Mp3Worker) : M Mp3Worker :=
  if returned w then mret w
  else match msg w with
       | None => Mp3Thread_locked w
       | Some m => Mp3Thread_unlocked w m
       end.

(** The operations on the queue, taken in any order by the threads. *)
Inductive action : Type :=
| act_push (m : string_view)    (* [Mp3QueuePush], network thread *)
| act_done                      (* [Mp3QueueDone], network thread *)
| act_stop                      (* [Stop], calling thread *)
| act_worker.                   (* a step of [Mp3Thread] *)

Definition act (a : action) (w : Mp3Worker) : M Mp3Worker :=
  match a with
  | act_push m => Mp3QueuePush m;; mret w
  | act_done => Mp3QueueDone;; mret w
  | act_stop => Stop;; mret w
  | act_worker => Mp3Thread_step w
  end.

Fixpoint run (acts : list action) (w : Mp3Worker) : M Mp3Worker :=
  match acts with
  | [] => mret w
  | a :: acts' => w' ← act a w; run acts' w'
  end.
End Pipeline.

(** ** Instances used by the examples *)

(** On text within the ASCII range a UTF-8 byte and its UTF-16 code unit
    are the same number. *)
Definition ascii_to_wide (s : string_view) : string_view := s.
Definition wide_to_ascii (s : string_view) : string_view := s.

(** A parser that knows the documents of a table and rejects every
    other body. *)
Fixpoint parse_table (table : list (string_view * json)) (body : string_view)
  : option json :=
  match table with
  | [] => None
  | (text, j) :: table' =>
      if bool_decide (text = body) then Some j else parse_table table' body
  end.

(** A compact serializer (no escaping inside strings). *)
Definition dump_number (n : N) : string_view :=
  lit (DecimalString.NilZero.string_of_uint (N.to_uint n)).

Fixpoint dump (j : json) : string_view :=
  match j with
  | JNull => lit "null"
  | JBool true => lit "true"
  | JBool false => lit "false"
  | JNum n => dump_number n
  | JStr s => [ch_quot] ++ s ++ [ch_quot]
  | JArr items =>
      lit "[" ++
      (fix go (l : list json) : string_view :=
         match l with
         | [] => []
         | [x] => dump x
         | x :: l' => dump x ++ lit "," ++ go l'
         end) items ++ lit "]"
  | JObj members =>
      lit "{" ++
      (fix go (l : list (string * json)) : string_view :=
         match l with
         | [] => []
         | [(k, x)] => [ch_quot] ++ lit k ++ [ch_quot] ++ lit ":" ++ dump x
         | (k, x) :: l' =>
             [ch_quot] ++ lit k ++ [ch_quot] ++ lit ":" ++ dump x
             ++ lit "," ++ go l'
         end) members ++ lit "}"
  end.

(** A decoder that records what it is fed and never fails, and one that
    fails on an empty chunk. *)
Definition recording_Convert (d : list string_view) (data : string_view)
  : list string_view * option exn := (d ++ [data], None).

Definition strict_Convert (d : list string_view) (data : string_view)
  : list string_view * option exn :=
  (d ++ [data], match data with [] => Some (decoder_error 1) | _ => None end).

Definition no_callbacks : Callbacks :=
  mkCallbacks false false false false false false.

(** The object as the constructor leaves it. *)
Definition fresh : SpeechRestAPI :=
  mkAPI [] 0 0 None false None [] false false no_callbacks [].

Definition idle_worker {Decoder} (d : Decoder) : Mp3Worker Decoder :=
  mkWorker Decoder d None false.

(** ** Notions used to state the properties *)

(** Reading [s] from left to right, starting outside a tag ([false]) or
    inside one ([true]): a '<' read outside enters a tag, a '>' read
    inside leaves it. The result tells whether the end of [s] is inside
    a tag. *)
Fixpoint in_tag (inside : bool) (s : string_view) : bool :=
  match s with
  | [] => inside
  | ch :: s' => in_tag (if inside then negb (ch =? ch_gt) else ch =? ch_lt) s'
  end.

(** The text from offset [from] up to, not including, offset [to]. *)
Definition window (s : string_view) (from to : N) : string_view :=
  take (N.to_nat (to - from)) (drop (N.to_nat from) s).

(** [word] occurs in [s] at offset [p]. *)
Definition occurs_at (word s : string_view) (p : N) : Prop :=
  p + sv_size word ≤ sv_size s
  ∧ starts_with word (drop (N.to_nat p) s) = true.

(** [p] is the first occurrence of [word] at or after [lastPos] that is
    not inside a tag, reading from [lastPos]. *)
Definition first_clear (word s : string_view) (lastPos p : N) : Prop :=
  lastPos ≤ p ∧ occurs_at word s p
  ∧ in_tag false (window s lastPos p) = false
  ∧ ∀ q, lastPos ≤ q → q < p → occurs_at word s q →
         in_tag false (window s lastPos q) = true.

(** Every occurrence of [word] at or after [lastPos] is inside a tag. *)
Definition none_clear (word s : string_view) (lastPos : N) : Prop :=
  ∀ q, lastPos ≤ q → occurs_at word s q →
       in_tag false (window s lastPos q) = true.

(** The occurrence at [q] passes the check of [FindWord] when the text
    between the cursor and [q] is scanned. *)
Definition clears_tag_check (s : string_view) (lastPos q : N) : Prop :=
  tag_check (window s lastPos q) = Ret true.

Definition markup_example : string_view := lit "A <b>word</b> word end".
Definition attribute_example : string_view :=
  lit "A <b word='word'>x</b> word end".

Definition unclosed_example : string_view := lit "<a word".

(** The first thread of a schedule that exists among [n] threads: the
    one whose [test_and_set] comes first. *)
Fixpoint first_mover (sched : list nat) (n : nat) : option nat :=
  match sched with
  | [] => None
  | i :: sched' => if (i <? n)%nat then Some i else first_mover sched' n
  end.

(** The state in which trigger [t] has resolved the completion handle
    of [st]. *)
Definition resolved (t : trigger) (st : SpeechRestAPI) : SpeechRestAPI :=
  log_call (call_promise (result_of t))
    (set_speakPromise (Some (result_of t)) (set_isPromiseSet true st)).

Definition is_holding (r : racer) : bool :=
  match r with Holding _ => true | _ => false end.

(** The flag of the completion handle is raised before the promise is
    set, so a set promise comes with a raised flag. *)
Definition coherent (st : SpeechRestAPI) : Prop :=
  m_isPromiseSet st = false → m_speakPromise st = None.

(** What a call of [SpeakComplete] or [SpeakError] makes of a coherent
    state. *)
Definition fired (t : trigger) (st : SpeechRestAPI) : SpeechRestAPI :=
  if m_isPromiseSet st then st else resolved t st.

(** The chunks handed to the decoder, in order. *)
Definition converts (cs : list call) : list string_view :=
  omap (λ c, match c with call_Convert d => Some d | _ => None end) cs.

(** The messages a list of actions enqueues, in order. *)
Definition pushed (acts : list action) : list string_view :=
  omap (λ a, match a with act_push m => Some m | _ => None end) acts.

(** The actions of the network and calling threads in a list of actions. *)
Definition is_worker (a : action) : bool :=
  match a with act_worker => true | _ => false end.

Fixpoint producer_part (acts : list action) : list action :=
  match acts with
  | [] => []
  | a :: acts' =>
      if is_worker a then producer_part acts' else a :: producer_part acts'
  end.

(** A queued message that [Mp3Thread] can take apart: it has the two
    bytes of the length prefix. *)
Definition well_formed (m : string_view) : Prop := fits m ∧ 2 ≤ sv_size m.

Definition audio_of (m : string_view) : option string_view :=
  match mp3data_of m with
  | Ret o => dword_buffer <$> o
  | _ => None
  end.

Definition in_flight {Decoder} (w : Mp3Worker Decoder) : list string_view :=
  match msg Decoder w with
  | Some m => [m]
  | None => []
  end.

Section Sequential.
Variable Decoder : Type.
Variable Convert : Decoder → string_view → Decoder * option exn.

(** Decoding one message, and a list of messages in order, with
    nothing else going on. *)
Definition decode_one (m : string_view) (ds : Decoder * SpeechRestAPI)
  : Decoder * SpeechRestAPI :=
  match audio_of m with
  | None => ds
  | Some data =>
      let '(dec, err) := Convert (fst ds) data in
      (dec,
       match err with
       | Some e => fired (Failure e) (log_call (call_Convert data) (snd ds))
       | None => log_call (call_Convert data) (snd ds)
       end)
  end.

Definition decode_list (ms : list string_view) (ds : Decoder * SpeechRestAPI)
  : Decoder * SpeechRestAPI :=
  foldl (λ acc m, decode_one m acc) ds ms.
End Sequential.

(** [st] with the queue and its flag replaced. *)
Definition with_queue (q : list string_view) (done : bool) (st : SpeechRestAPI)
  : SpeechRestAPI :=
  set_mp3QueueDone done (set_mp3Queue q st).

(** Three audio messages: length prefix, header, one byte of audio. *)
Definition audio_message (payload : string_view) : string_view :=
  [0; 12] ++ audio_marker ++ payload.
Definition p1 : string_view := audio_message [1].
Definition p2 : string_view := audio_message [2].
Definition p3 : string_view := audio_message [3].

(** A session with open connection 7; one with two messages waiting. *)
Definition connected : SpeechRestAPI := set_connection (Some 7%nat) fresh.
Definition two_pending : SpeechRestAPI := set_mp3Queue [p1; p2] connected.
Definition unmarked_message : string_view := lit "xxPath:video".

(** The result of a member function is a return or a throw, and the
    state then satisfies [P] or [Q]. *)
Definition hres_sat {A} (P Q : SpeechRestAPI → Prop) (r : hres A) : Prop :=
  match r with
  | HRet _ st' => P st'
  | HThrow _ st' => Q st'
  | HUndefined | HOutOfFuel => False
  end.

Definition returns_or_throws {A} (o : outcome A) : Prop :=
  match o with
  | Ret _ | Throw _ => True
  | Undefined | OutOfFuel => False
  end.

(** From [st] to [st'] the markup is the same and no cursor went back. *)
Definition cursors_le (st st' : SpeechRestAPI) : Prop :=
  m_ssml st' = m_ssml st
  ∧ m_lastWordPos st ≤ m_lastWordPos st'
  ∧ m_lastSentencePos st ≤ m_lastSentencePos st'.

(** From [st] to [st'] nothing changed but the cursors, which did not
    go back, and the call log. *)
Definition advances (st st' : SpeechRestAPI) : Prop :=
  cursors_le st st'
  ∧ m_connection st' = m_connection st
  ∧ m_isPromiseSet st' = m_isPromiseSet st
  ∧ m_speakPromise st' = m_speakPromise st
  ∧ m_mp3Queue st' = m_mp3Queue st
  ∧ m_mp3QueueDone st' = m_mp3QueueDone st
  ∧ m_isStopping st' = m_isStopping st
  ∧ m_callbacks st' = m_callbacks st.

(** [config.at("context").at("synthesis").at("audio").at("metadataOptions")] *)
Definition metadataOptions (config : json) : outcome json :=
  context ← json_at config "context";
  synthesis ← json_at context "synthesis";
  audio ← json_at synthesis "audio";
  json_at audio "metadataOptions".

Definition word_boundary_only : Callbacks :=
  mkCallbacks false false true false false false.

Definition with_callbacks (cb : Callbacks) (st : SpeechRestAPI) : SpeechRestAPI :=
  mkAPI (m_ssml st) (m_lastWordPos st) (m_lastSentencePos st) (m_connection st)
    (m_isPromiseSet st) (m_speakPromise st) (m_mp3Queue st)
    (m_mp3QueueDone st) (m_isStopping st) cb (calls st).

(** A metadata message whose body is cut short, one with an event that
    lacks its [Data], and text without any header. *)
Definition cut_short_message : string_view :=
  lit "Path:audio.metadata" ++ crlf ++ crlf ++ lit "{".
Definition no_header_message : string_view := lit "hello".

Definition word_event (text : string) (offset len : N) : json :=
  JObj [("Type"%string, JStr (lit "WordBoundary"));
        ("Data"%string, JObj [
           ("Offset"%string, JNum offset);
           ("text"%string, JObj [
              ("Text"%string, JStr (lit text));
              ("Length"%string, JNum len);
              ("BoundaryType"%string, JStr (lit "WordBoundary"))])])].

Definition metadata_body : string_view := lit "{two words}".
Definition metadata_message : string_view :=
  lit "Path:audio.metadata" ++ crlf ++ crlf ++ metadata_body.
Definition metadata_table : list (string_view * json) :=
  [(metadata_body,
    JObj [("Metadata"%string,
           JArr [word_event "word" 100 4; word_event "word" 200 4])])].

(** A metadata message whose second event lacks its [Data], between two
    word events. *)
Definition dataless_event : json :=
  JObj [("Type"%string, JStr (lit "WordBoundary"))].
Definition broken_metadata_body : string_view := lit "{a word, no data, a word}".
Definition broken_metadata_message : string_view :=
  lit "Path:audio.metadata" ++ crlf ++ crlf ++ broken_metadata_body.
Definition broken_metadata_table : list (string_view * json) :=
  [(broken_metadata_body,
    JObj [("Metadata"%string,
           JArr [word_event "word" 100 4; dataless_event;
                 word_event "word" 200 4])])].

(** [text] is a message with the path [audio.metadata], and [body] is
    what follows the blank line after its headers, as [OnMessage] takes
    them from the text. *)
Definition metadata_message_body (text body : string_view) : Prop :=
  sv_find text (lit "Path:") 0 ≠ npos
  ∧ sv_find text (crlf ++ crlf) (size_add (sv_find text (lit "Path:") 0) 5)
    ≠ npos
  ∧ sv_substr text (size_add (sv_find text (lit "Path:") 0) 5)
      (size_sub
         (sv_find text (crlf ++ crlf)
            (size_add (sv_find text (lit "Path:") 0) 5))
         (size_add (sv_find text (lit "Path:") 0) 5))
    = Ret (lit "audio.metadata")
  ∧ sv_substr_from text
      (size_add
         (sv_find text (crlf ++ crlf)
            (size_add (sv_find text (lit "Path:") 0) 5)) 4)
    = Ret body.

(** The event lacks one of the members every event must have: [Type] (a
    string), [Data], or the [Offset] (a number) of [Data]; [e] is what
    reading it throws. *)
Definition lacks_required (metadata : json) (e : exn) : Prop :=
  json_at metadata "Type" ≫= json_get_string = Throw e
  ∨ (∃ type, json_at metadata "Type" ≫= json_get_string = Ret type
             ∧ json_at metadata "Data" = Throw e)
  ∨ (∃ type data,
       json_at metadata "Type" ≫= json_get_string = Ret type
       ∧ json_at metadata "Data" = Ret data
       ∧ json_at data "Offset" ≫= json_get_unsigned 64 = Throw e).

(** A session speaking [markup_example] with the word-boundary callback. *)
Definition speaking : SpeechRestAPI :=
  with_callbacks word_boundary_only (set_ssml markup_example connected).

(** An audio message without audio bytes, on which [strict_Convert]
    throws. *)
Definition p_empty : string_view := audio_message [].

(** * Further parts of the program *)

(** The characters that [XmlEscape] replaces. *)
Definition xml_special (ch : N) : bool :=
  (ch =? ch_lt) || (ch =? ch_gt) || (ch =? ch_amp) || (ch =? ch_quot)
  || (ch =? ch_apos).

Definition contraction_example : string_view := lit "I think you&apos;re right".

(** The connection an event of the transport belongs to. *)
Definition event_hdl (ev : event) : connection_hdl :=
  match ev with
  | ev_open hdl _ _ _ => hdl
  | ev_message hdl _ => hdl
  | ev_close hdl => hdl
  | ev_fail hdl _ => hdl
  end.




(** From [st] to [st'] the completion handle stays resolved, with the
    same result. *)
Definition result_kept (st st' : SpeechRestAPI) : Prop :=
  m_isPromiseSet st' = true ∧ m_speakPromise st' = m_speakPromise st.

(** A session that listens for sentence boundaries only. *)
Definition sentence_boundary_only : Callbacks :=
  mkCallbacks false false false true false false.

Definition sentence_event (text : string) (offset len : N) : json :=
  JObj [("Type"%string, JStr (lit "SentenceBoundary"));
        ("Data"%string, JObj [
           ("Offset"%string, JNum offset);
           ("text"%string, JObj [
              ("Text"%string, JStr (lit text));
              ("Length"%string, JNum len);
              ("BoundaryType"%string, JStr (lit "SentenceBoundary"))])])].

Definition turn_end_message : string_view :=
  lit "X-RequestId:0123" ++ crlf ++ lit "Path:turn.end" ++ crlf ++ crlf
  ++ lit "{}".

Section WorkerSteps.
Variable Decoder : Type.
Variable Mp3Decoder_new : Decoder.
Variable Convert : Decoder → string_view → Decoder * option exn.

(** The ways a step of the worker can go, from a coherent state. *)
Inductive step_case (w : Mp3Worker Decoder) (st : SpeechRestAPI)
  : hres (Mp3Worker Decoder) → Prop :=
| step_returned :
    returned Decoder w = true → step_case w st (HRet w st)
| step_malformed m :
    returned Decoder w = false → msg Decoder w = Some m →
    mp3data_of m = Undefined → step_case w st HUndefined
| step_decoded m o :
    returned Decoder w = false → msg Decoder w = Some m →
    mp3data_of m = Ret o →
    step_case w st
      (HRet (mkWorker Decoder (fst (decode_one Decoder Convert m (mp3Decoder Decoder w, st))) None false)
            (snd (decode_one Decoder Convert m (mp3Decoder Decoder w, st))))
| step_stopped :
    returned Decoder w = false → msg Decoder w = None →
    m_isStopping st = true →
    step_case w st (HRet (mkWorker Decoder (mp3Decoder Decoder w) None true) st)
| step_dequeued front rest :
    returned Decoder w = false → msg Decoder w = None →
    m_isStopping st = false → m_mp3Queue st = front :: rest →
    step_case w st
      (HRet (mkWorker Decoder (mp3Decoder Decoder w) (Some front) false)
            (set_mp3Queue rest st))
| step_completed :
    returned Decoder w = false → msg Decoder w = None →
    m_isStopping st = false → m_mp3Queue st = [] →
    m_mp3QueueDone st = true →
    step_case w st
      (HRet (mkWorker Decoder Mp3Decoder_new None false)
            (set_mp3QueueDone false (fired Success st)))
| step_waiting :
    returned Decoder w = false → msg Decoder w = None →
    m_isStopping st = false → m_mp3Queue st = [] →
    m_mp3QueueDone st = false →
    step_case w st (HRet w st).

End WorkerSteps.

(** ** The proxy of a connection *)

Section Proxy.
(** [EqualsIgnoreCase] of StrUtils.h. *)
Variable EqualsIgnoreCase : string_view → string_view → bool.

(** The part of [SpeakAsync] that looks at the proxy [GetProxyForUrl]
    returned: the argument of [con->set_proxy], when it is called. *)
Definition SpeakAsync_proxy (proxy : string_view) : option string_view :=
  if sv_size proxy =? 0 then None
  else
    let schemeDelimPos := sv_find proxy (lit "://") 0 in
    if schemeDelimPos =? npos then Some (lit "http://" ++ proxy)
    else
      let scheme := take (N.to_nat schemeDelimPos) proxy in
      if EqualsIgnoreCase scheme (lit "http") then Some proxy else None.
End Proxy.

(** ** The request id and the time stamp *)

(** The digit characters of [std::format]: ['0'] to ['9'], then the lower
    case letters from ['a']. *)
Definition digit_char (d : N) : N := if d <? 10 then 48 + d else 87 + d.

(** The value of a digit character. *)
Definition digit_value (ch : N) : N := if ch <? 58 then ch - 48 else ch - 87.

(** The digits of [v] in base [base], most significant first, in front
    of [acc]. *)
Fixpoint digits_of (fuel : nat) (base v : N) (acc : string_view) : string_view :=
  match fuel with
  | O => acc
  | S fuel' =>
      let acc' := digit_char (v mod base) :: acc in
      if v / base =? 0 then acc' else digits_of fuel' base (v / base) acc'
  end.

(** The replacement fields [{:0Wx}] ([base] 16) and [{:0W}] ([base] 10)
    of [std::format] for an unsigned value: its digits, with zeros in
    front up to the width [W]. A value of [n] bits has at most [n]
    digits. *)
Definition format_padded (base : N) (width : nat) (v : N) : string_view :=
  let ds := digits_of (S (N.to_nat (N.log2 v))) base v [] in
  replicate (width - length ds) 48 ++ ds.

(** The number a string of digit characters stands for. *)
Definition number_of (base : N) (s : string_view) : N :=
  foldl (λ a ch, a * base + digit_value ch) 0 s.

Definition is_hex_digit (ch : N) : bool :=
  ((48 <=? ch) && (ch <=? 57)) || ((97 <=? ch) && (ch <=? 102)).
Definition is_dec_digit (ch : N) : bool := (48 <=? ch) && (ch <=? 57).

(** [GUID] of the Windows headers. *)
Record GUID : Type := mkGUID {
  Data1 : N;            (* unsigned long *)
  Data2 : N;            (* unsigned short *)
  Data3 : N;            (* unsigned short *)
  Data4 : list N        (* unsigned char [8] *)
}.

(** The fields are within their types. *)
Definition GUID_wf (guid : GUID) : Prop :=
  Data1 guid < 2 ^ 32 ∧ Data2 guid < 2 ^ 16 ∧ Data3 guid < 2 ^ 16
  ∧ length (Data4 guid) = 8%nat ∧ Forall (λ b, b < 2 ^ 8) (Data4 guid).

(** [MakeRandomUuid] on the [GUID] that [CoCreateGuid] delivered. *)
Definition MakeRandomUuid (guid : GUID) : string_view :=
  format_padded 16 8 (Data1 guid)
  ++ format_padded 16 4 (Data2 guid)
  ++ format_padded 16 4 (Data3 guid)
  ++ format_padded 16 2 (nth 0 (Data4 guid) 0)
  ++ format_padded 16 2 (nth 1 (Data4 guid) 0)
  ++ format_padded 16 2 (nth 2 (Data4 guid) 0)
  ++ format_padded 16 2 (nth 3 (Data4 guid) 0)
  ++ format_padded 16 2 (nth 4 (Data4 guid) 0)
  ++ format_padded 16 2 (nth 5 (Data4 guid) 0)
  ++ format_padded 16 2 (nth 6 (Data4 guid) 0)
  ++ format_padded 16 2 (nth 7 (Data4 guid) 0).

(** [SYSTEMTIME] of the Windows headers; every field is a [WORD]. *)
Record SYSTEMTIME : Type := mkSYSTEMTIME {
  wYear : N;
  wMonth : N;
  wDayOfWeek : N;
  wDay : N;
  wHour : N;
  wMinute : N;
  wSecond : N;
  wMilliseconds : N
}.

(** [GetTimeStamp] on the time that [GetSystemTime] delivered. *)
Definition GetTimeStamp (tm : SYSTEMTIME) : string_view :=
  format_padded 10 4 (wYear tm) ++ lit "-"
  ++ format_padded 10 2 (wMonth tm) ++ lit "-"
  ++ format_padded 10 2 (wDay tm) ++ lit "T"
  ++ format_padded 10 2 (wHour tm) ++ lit ":"
  ++ format_padded 10 2 (wMinute tm) ++ lit ":"
  ++ format_padded 10 2 (wSecond tm) ++ lit "."
  ++ format_padded 10 3 (wMilliseconds tm) ++ lit "Z".

Definition guid_example : GUID :=
  mkGUID 19088743 35243 61185 [0; 17; 34; 51; 68; 85; 102; 255].
Definition time_example : SYSTEMTIME := mkSYSTEMTIME 2024 3 5 8 7 5 9 42.

(** * VoiceTokenEnumerator.cpp *)

(** [s.erase(pos)] of [std::wstring]: throws when [pos > size()],
    otherwise keeps the first [pos] characters. *)
Definition wstring_erase_from (s : string_view) (pos : N) : outcome string_view :=
  if sv_size s <? pos then Throw out_of_range
  else Ret (take (N.to_nat pos) s).

(** The character at [s.c_str() + i] or [s.data() + i] for
    [i <= size()]: that of the string, or the terminating null at
    [size()]. *)
Definition c_str_at (s : string_view) (i : nat) : N :=
  default 0 ((s : list N) !! i).

Section TrimVoiceName.
(** [iswpunct] and [iswspace] of the C library, which depend on the
    locale. *)
Variable iswpunct : N → bool.
Variable iswspace : N → bool.

(** The first loop, which moves [pCh] forward from the start of the
    string while the character is neither the terminating null nor
    punctuation: the offset [pCh - pStr] reached. *)
Fixpoint first_punct (s : string_view) : nat :=
  match s with
  | [] => 0%nat                    (* the terminating null *)
  | ch :: s' =>
      if negb (ch =? 0) && negb (iswpunct ch) then S (first_punct s')
      else 0%nat
  end.

(** The second loop, which moves [pCh] back from offset [i] while it is
    not at the start and the character is a space. *)
Fixpoint back_over_spaces (s : string_view) (i : nat) : nat :=
  match i with
  | O => O
  | S i' => if iswspace (c_str_at s i) then back_over_spaces s i' else i
  end.

(** The string that [TrimVoiceName] leaves in [longName]. *)
Definition TrimVoiceName (longName : string_view) : outcome string_view :=
  let pCh := first_punct longName in
  if (pCh =? 0)%nat then Ret longName
  else
    let pCh := back_over_spaces longName (pCh - 1) in
    if (pCh =? 0)%nat then Ret longName
    else wstring_erase_from longName (N.of_nat pCh + 1).
End TrimVoiceName.

(** The two classes on the ASCII range, as in the "C" locale. *)
Definition ascii_iswpunct (ch : N) : bool :=
  ((33 <=? ch) && (ch <=? 47)) || ((58 <=? ch) && (ch <=? 64))
  || ((91 <=? ch) && (ch <=? 96)) || ((123 <=? ch) && (ch <=? 126)).
Definition ascii_iswspace (ch : N) : bool :=
  ((9 <=? ch) && (ch <=? 13)) || (ch =? 32).

Definition aria_name : string_view :=
  lit "Microsoft Aria (Natural) - English (United States)".

Section Languages.
(** [EqualsIgnoreCase] of StrUtils.h. *)
Variable EqualsIgnoreCase : string_view → string_view → bool.

(** The range-based [for] over [languages]: [continue] goes on with the
    rest of the list. *)
Fixpoint IsLanguageInList (language : string_view)
    (languages : list string_view) : bool :=
  match languages with
  | [] => false
  | langInList :: rest =>
      if sv_size language <? sv_size langInList then
        IsLanguageInList language rest
      else if (sv_size language =? sv_size langInList)
              && EqualsIgnoreCase language langInList then true
      else
        let prefixEndChar := c_str_at language (length langInList) in
        if negb (prefixEndChar =? 45) && negb (prefixEndChar =? 0) then
          IsLanguageInList language rest
        else if EqualsIgnoreCase (take (length langInList) language) langInList
        then true
        else IsLanguageInList language rest
  end.

(** A list item matches a language when, ignoring case, it equals the
    prefix of the language of its length, and that prefix ends at the end
    of the language or in front of a hyphen (or of a null character). *)
Definition item_matches (language item : string_view) : Prop :=
  sv_size item ≤ sv_size language
  ∧ (c_str_at language (length item) = 45
     ∨ c_str_at language (length item) = 0)
  ∧ EqualsIgnoreCase (take (length item) language) item = true.

(** *** [EnumOnlineVoices] *)

(** The token type, the token maker passed by [EnumEdgeVoices] or
    [EnumAzureVoices], and what the system reports: [UTF8ToWString],
    [LangIDFromLocaleName], [IsUniversalPhoneConverterSupported()],
    [GetSupportedLanguageIDs()] and [GetUserPreferredLanguageIDs(false)].
    Exceptions are those derived from [std::exception]; memory
    allocation is taken not to fail. *)
Variable Token : Type.
Variable tokenMaker : json → outcome Token.
Variable UTF8ToWString : string_view → string_view.
Variable LangIDFromLocaleName : string_view → N.
Variable universalSupported : bool.
Variable supportedLangs : gset N.
Variable userLangs : gset N.

(** [std::map<std::string, CComPtr<ISpObjectToken>>] *)
Local Abbreviation TokenMap := (gmap (list N) Token).

(** [tokens.try_emplace(key, token)]: nothing happens when the key is
    there. *)
Definition try_emplace (key : string_view) (token : Token) (tokens : TokenMap)
  : TokenMap :=
  match tokens !! key with
  | Some _ => tokens
  | None => <[key := token]> tokens
  end.

(** The tests that make the loop [continue] with the next voice. *)
Definition voice_hidden (allLanguages : bool) (languages : list string_view)
    (locale : string_view) : bool :=
  let langid := LangIDFromLocaleName locale in
  if negb universalSupported && negb (bool_decide (langid ∈ supportedLangs))
  then true
  else if negb allLanguages then
    match languages with
    | [] => negb (bool_decide (langid ∈ userLangs))
    | _ => negb (IsLanguageInList locale languages)
    end
  else false.

(** The body of the loop over the voices of the list. In which order the
    two arguments of [try_emplace] are evaluated is left to the compiler;
    either may throw, and the loop ends the same way. *)
Definition EnumOnlineVoices_voice (allLanguages : bool)
    (languages : list string_view) (tokens : TokenMap) (voice : json)
  : outcome TokenMap :=
  locale ← json_at voice "Locale" ≫= json_get_string;
  let locale := UTF8ToWString locale in
  if voice_hidden allLanguages languages locale then Ret tokens
  else
    key ← json_at voice "ShortName" ≫= json_get_string;
    token ← tokenMaker voice;
    Ret (try_emplace key token tokens).

(** The loop inside the [try]: the map as the loop leaves it, and the
    exception that ended it, if one did. *)
Fixpoint EnumOnlineVoices_loop (allLanguages : bool)
    (languages : list string_view) (tokens : TokenMap) (voices : list json)
  : outcome (TokenMap * option exn) :=
  match voices with
  | [] => Ret (tokens, None)
  | voice :: rest =>
      match EnumOnlineVoices_voice allLanguages languages tokens voice with
      | Ret tokens' => EnumOnlineVoices_loop allLanguages languages tokens' rest
      | Throw e => Ret (tokens, Some e)
      | Undefined => Undefined
      | OutOfFuel => OutOfFuel
      end
  end.

(** [EnumOnlineVoices] on the list that [GetCachedJson] returned or the
    exception it threw: the map afterwards, and the exception that was
    caught and logged, if any. *)
Definition EnumOnlineVoices (tokens : TokenMap) (cached : outcome json)
    (allLanguages : bool) (languages : list string_view)
  : outcome (TokenMap * option exn) :=
  match cached with
  | Ret list => EnumOnlineVoices_loop allLanguages languages tokens
                  (json_items list)
  | Throw e => Ret (tokens, Some e)
  | Undefined => Undefined
  | OutOfFuel => OutOfFuel
  end.
End Languages.

(** A voice of the list that the loop of [EnumOnlineVoices] does not
    skip, with the key and the token it gives. *)
Definition voice_listed (EqualsIgnoreCase : string_view → string_view → bool)
    {Token} (tokenMaker : json → outcome Token)
    (UTF8ToWString : string_view → string_view)
    (LangIDFromLocaleName : string_view → N) (universalSupported : bool)
    (supportedLangs userLangs : gset N)
    (allLanguages : bool) (languages : list string_view)
    (voice : json) (key : string_view) (token : Token) : Prop :=
  ∃ locale,
    json_at voice "Locale" ≫= json_get_string = Ret locale
    ∧ voice_hidden EqualsIgnoreCase LangIDFromLocaleName universalSupported
        supportedLangs userLangs allLanguages languages (UTF8ToWString locale)
      = false
    ∧ json_at voice "ShortName" ≫= json_get_string = Ret key
    ∧ tokenMaker voice = Ret token.

(** *** The key name of a local voice *)

(** [s.rfind(ch)]: the last index at which [ch] stands, or [npos]; [i]
    is the index of the first character of [s]. *)
Fixpoint rfind_from (s : string_view) (ch : N) (i : N) : N :=
  match s with
  | [] => npos
  | c :: s' =>
      let r := rfind_from s' ch (i + 1) in
      if r =? npos then (if c =? ch then i else npos) else r
  end.

Definition sv_rfind_char (s : string_view) (ch : N) : N := rfind_from s ch 0.

Definition ch_slash : N := 47.       (* '/' *)
Definition ch_backslash : N := 92.   (* '\\' *)
Definition ch_underscore : N := 95.  (* '_' *)

Section LocalVoice.
(** [UTF8ToWString] of StrUtils.h. *)
Variable UTF8ToWString : string_view → string_view.

(** The path as [MakeLocalVoiceToken] has it once a slash at its end is
    removed; [back()] of an empty string is undefined. *)
Definition MakeLocalVoiceToken_path (VoicePath : string_view)
  : outcome string_view :=
  let path := UTF8ToWString VoicePath in
  match last path with
  | None => Undefined
  | Some back =>
      if (back =? ch_slash) || (back =? ch_backslash) then
        wstring_erase_from path (size_sub (sv_size path) 1)
      else Ret path
  end.

(** The [name] that [MakeLocalVoiceToken] computes for the token: the
    prefix, then the part of the path from the last backslash to the
    first underscore behind it. *)
Definition MakeLocalVoiceToken_name (VoicePath namePrefix : string_view)
  : outcome string_view :=
  path ← MakeLocalVoiceToken_path VoicePath;
  let name_start := sv_rfind_char path ch_backslash in
  let name_start := if name_start =? npos then 0 else size_add name_start 1 in
  let name_end := sv_find_char path ch_underscore name_start in
  let name_end := if name_end =? npos then sv_size path else name_end in
  seg ← sv_substr path name_start (size_sub name_end name_start);
  Ret (namePrefix ++ seg).
End LocalVoice.

Definition aria_path : string_view :=
  lit "C:\Apps\MicrosoftWindows.Voice.en-US.Aria.1_1.0.8.0_x64__cw5n1h2txyewy/".

(** Comparison without case on the ASCII range. *)
Definition ascii_tolower (ch : N) : N :=
  if (65 <=? ch) && (ch <=? 90) then ch + 32 else ch.
Definition ascii_EqualsIgnoreCase (a b : string_view) : bool :=
  bool_decide (ascii_tolower <$> a = ascii_tolower <$> b).

(** A voice list and a token maker for the examples: the token is the
    voice's display name. *)
Definition voice (shortName locale : string) : json :=
  JObj [("ShortName"%string, JStr (lit shortName));
        ("Locale"%string, JStr (lit locale))].
Definition name_token (v : json) : outcome string_view :=
  json_at v "ShortName" ≫= json_get_string.
Definition locale_token (v : json) : outcome string_view :=
  json_at v "Locale" ≫= json_get_string.
Definition azure_token (v : json) : outcome string_view :=
  n ← name_token v; Ret (lit "Azure-" ++ n).
Definition edge_tokens : gmap (list N) string_view :=
  {[ lit "en-US-AriaNeural" := lit "Edge-en-US-AriaNeural" ]}.
Definition azure_list : json :=
  JArr [voice "en-US-AriaNeural" "en-US"; voice "de-DE-KatjaNeural" "de-DE"].
Definition nameless_voice : json := JObj [("Locale"%string, JStr (lit "en-US"))].
Definition lang_id (locale : string_view) : N :=
  if bool_decide (locale = lit "en-US") then 1033
  else if bool_decide (locale = lit "de-DE") then 1031 else 0.

(** * Properties *)

(** ** size_t arithmetic without wrap-around *)

Lemma size_max_val : size_max = 18446744073709551616.
Proof. reflexivity. Qed.

Lemma npos_val : npos = 18446744073709551615.
Proof. reflexivity. Qed.

Lemma size_add_small a b : a + b < size_max → size_add a b = a + b.
Proof. intros H. unfold size_add. by apply N.mod_small. Qed.

Lemma size_sub_small a b : b ≤ a → a < size_max → size_sub a b = a - b.
Proof.
  intros Hle Hlt. unfold size_sub.
  rewrite (N.mod_small b) by lia.
  replace (a + size_max - b) with (a - b + 1 * size_max) by lia.
  rewrite N.Div0.mod_add. apply N.mod_small. lia.
Qed.

Lemma fits_lt_size_max s : fits s → sv_size s + 1 < size_max.
Proof. unfold fits. rewrite npos_val, size_max_val. lia. Qed.

(** ** Searching in a view *)

Lemma starts_with_app w s :
  starts_with w s = true ↔ ∃ rest, s = w ++ rest.
Proof.
  revert s. induction w as [|a w IH]; intros s; simpl.
  - split; eauto.
  - destruct s as [|b s].
    + split; [done | intros [rest Hrest]; discriminate].
    + rewrite andb_true_iff, N.eqb_eq, IH. split.
      * intros [-> [rest ->]]. eauto.
      * intros [rest Hrest]. injection Hrest as -> ->. eauto.
Qed.

Lemma starts_with_length w s :
  starts_with w s = true → (length w ≤ length s)%nat.
Proof.
  intros [rest ->]%starts_with_app. rewrite length_app. lia.
Qed.

Lemma starts_with_nil s : starts_with [] s = true.
Proof. by destruct s. Qed.

Lemma find_from_found w s i r :
  find_from w s i = r → r ≠ npos →
  ∃ k : nat,
    r = i + N.of_nat k ∧ (k + length w ≤ length s)%nat
    ∧ starts_with w (drop k s) = true
    ∧ ∀ j : nat, (j < k)%nat → starts_with w (drop j s) = false.
Proof.
  revert i. induction s as [|a s IH]; intros i; simpl.
  - destruct (starts_with w []) eqn:Hw; intros <- Hr; [|done].
    exists 0%nat. split_and!; [lia| |done|lia].
    apply starts_with_length in Hw. simpl in *. lia.
  - destruct (starts_with w (a :: s)) eqn:Hw; intros Hf Hr.
    + exists 0%nat. subst r. split_and!; [lia| |done|lia].
      apply starts_with_length in Hw. simpl in *. lia.
    + destruct (IH _ Hf Hr) as (k & -> & Hlen & Hocc & Hfirst).
      exists (S k). split_and!; [lia|simpl; lia|done|].
      intros [|j] Hj; simpl; [done|]. apply Hfirst. lia.
Qed.

Lemma find_from_absent w s i :
  (∀ j : nat, starts_with w (drop j s) = false) → find_from w s i = npos.
Proof.
  revert i. induction s as [|a s IH]; intros i Habs; simpl.
  - specialize (Habs 0%nat). simpl in Habs. by rewrite Habs.
  - pose proof (Habs 0%nat) as H0. simpl in H0. rewrite H0. apply IH. intros j. apply (Habs (S j)).
Qed.

Lemma sv_find_found s w pos r :
  sv_find s w pos = r → r ≠ npos →
  ∃ k : nat,
    r = N.of_nat k ∧ pos ≤ r ∧ (k + length w ≤ length s)%nat
    ∧ starts_with w (drop k s) = true
    ∧ ∀ j : nat, pos ≤ N.of_nat j → (j < k)%nat →
                 starts_with w (drop j s) = false.
Proof.
  unfold sv_find, sv_size. destruct (N.ltb_spec (N.of_nat (length s)) pos) as [|Hpos].
  { by intros <-. }
  intros Hf Hr.
  destruct (find_from_found _ _ _ _ Hf Hr) as (k & -> & Hlen & Hocc & Hfirst).
  rewrite length_drop in Hlen. rewrite drop_drop in Hocc.
  exists (N.to_nat pos + k)%nat. split_and!; [lia|lia|lia|done|].
  intros j Hj1 Hj2.
  replace j with (N.to_nat pos + (j - N.to_nat pos))%nat by lia.
  rewrite <- drop_drop. apply Hfirst. lia.
Qed.

Lemma sv_find_absent s w pos :
  (∀ j : nat, pos ≤ N.of_nat j → starts_with w (drop j s) = false) →
  sv_find s w pos = npos.
Proof.
  intros Habs. unfold sv_find. destruct (_ <? _); [done|].
  apply find_from_absent. intros j. rewrite drop_drop. apply Habs. lia.
Qed.

Lemma sv_find_past_end s w pos : sv_size s < pos → sv_find s w pos = npos.
Proof.
  intros H. unfold sv_find. by destruct (N.ltb_spec (sv_size s) pos); [|lia].
Qed.

Lemma sv_find_empty s pos : pos ≤ sv_size s → sv_find s [] pos = pos.
Proof.
  intros H. unfold sv_find. destruct (N.ltb_spec (sv_size s) pos); [lia|].
  by destruct (drop _ s).
Qed.

Lemma sv_find_range s w pos :
  sv_find s w pos = npos
  ∨ (pos ≤ sv_find s w pos ∧ sv_find s w pos + sv_size w ≤ sv_size s).
Proof.
  destruct (N.eq_dec (sv_find s w pos) npos) as [|Hr]; [by left|right].
  destruct (sv_find_found _ _ _ _ eq_refl Hr) as (k & Hk & ? & ? & _).
  unfold sv_size. lia.
Qed.

Lemma outcome_bind_Ret {A B} (a : A) (f : A → outcome B) : (Ret a ≫= f) = f a.
Proof. reflexivity. Qed.

Lemma find_from_le w s i (j : nat) :
  starts_with w (drop j s) = true → (j ≤ length s)%nat →
  find_from w s i ≤ i + N.of_nat j.
Proof.
  revert i j. induction s as [|a s IH]; intros i j Hocc Hj; simpl.
  - assert (j = 0%nat) as -> by (simpl in Hj; lia). simpl in Hocc.
    rewrite Hocc. lia.
  - destruct (starts_with w (a :: s)) eqn:Hw; [clear Hocc; lia|].
    destruct j as [|j]; [simpl in Hocc; congruence|].
    simpl in Hocc, Hj. specialize (IH (i + 1) j Hocc). clear Hocc Hw. lia.
Qed.

(** Under [fits], [npos] is returned only when there is no occurrence. *)
Lemma sv_find_npos s w pos (j : nat) :
  fits s → sv_find s w pos = npos →
  pos ≤ N.of_nat j → (j ≤ length s)%nat →
  starts_with w (drop j s) = false.
Proof.
  unfold fits, sv_find, sv_size. intros Hfit Hf Hpos Hj.
  destruct (N.ltb_spec (N.of_nat (length s)) pos); [lia|].
  destruct (starts_with w (drop j s)) eqn:Hocc; [exfalso|done].
  pose proof (find_from_le w (drop (N.to_nat pos) s) pos (j - N.to_nat pos)) as Hle.
  rewrite drop_drop, length_drop in Hle.
  replace (N.to_nat pos + (j - N.to_nat pos))%nat with j in Hle by lia.
  specialize (Hle Hocc). lia.
Qed.

Lemma starts_with_char ch s (k : nat) :
  starts_with [ch] (drop k s) = true ↔ s !! k = Some ch.
Proof.
  replace (s !! k) with (drop k s !! 0%nat)
    by (rewrite lookup_drop; f_equal; lia).
  destruct (drop k s) as [|b rest]; simpl; [done|].
  rewrite andb_true_r, N.eqb_eq. split; congruence.
Qed.

Lemma starts_with_char_false ch s (k : nat) :
  starts_with [ch] (drop k s) = false ↔ s !! k ≠ Some ch.
Proof.
  rewrite <- starts_with_char. by destruct (starts_with _ _).
Qed.

(** ** The tag scan *)

Lemma in_tag_app b l1 l2 : in_tag b (l1 ++ l2) = in_tag (in_tag b l1) l2.
Proof. revert b. induction l1 as [|c l1 IH]; intros b; simpl; [done|apply IH]. Qed.

Lemma in_tag_outside l : ch_lt ∉ l → in_tag false l = false.
Proof.
  induction l as [|c l IH]; simpl; [done|].
  rewrite not_elem_of_cons. intros [Hc Hl].
  destruct (N.eqb_spec c ch_lt); [done|by apply IH].
Qed.

Lemma in_tag_inside l : ch_gt ∉ l → in_tag true l = true.
Proof.
  induction l as [|c l IH]; simpl; [done|].
  rewrite not_elem_of_cons. intros [Hc Hl].
  destruct (N.eqb_spec c ch_gt); [done|by apply IH].
Qed.

Lemma not_elem_of_take_lookup (ch : N) s (k : nat) :
  (∀ j : nat, (j < k)%nat → s !! j ≠ Some ch) → ch ∉ take k s.
Proof.
  intros H [j Hj]%list_elem_of_lookup.
  apply lookup_take_Some in Hj as [Hj ?]. by apply (H j).
Qed.

(** A single character found at [k]: the view splits around it. *)
Lemma sv_find_char_found s ch pos r :
  sv_find_char s ch pos = r → r ≠ npos →
  ∃ k : nat,
    r = N.of_nat k ∧ pos ≤ r ∧ (k < length s)%nat ∧ s !! k = Some ch
    ∧ ch ∉ take (k - N.to_nat pos) (drop (N.to_nat pos) s).
Proof.
  intros Hf Hr.
  destruct (sv_find_found _ _ _ _ Hf Hr) as (k & -> & Hpos & Hlen & Hocc & Hfirst).
  exists k. simpl in Hlen. split_and!; [done|done|lia|by apply starts_with_char|].
  apply not_elem_of_take_lookup. intros j Hj.
  rewrite lookup_drop. apply starts_with_char_false, Hfirst; lia.
Qed.

Lemma sv_find_char_npos s ch pos :
  fits s → sv_find_char s ch pos = npos → ch ∉ drop (N.to_nat pos) s.
Proof.
  intros Hfit Hf [j Hj]%list_elem_of_lookup. rewrite lookup_drop in Hj.
  apply lookup_lt_Some in Hj as Hlt.
  eapply starts_with_char_false; [|exact Hj].
  eapply sv_find_npos; [done|exact Hf|lia|lia].
Qed.

Lemma tag_scan_in_tag fuel bw :
  fits bw → (length bw < fuel)%nat →
  tag_scan fuel bw = Ret (negb (in_tag false bw)).
Proof.
  revert bw. induction fuel as [|fuel IH]; intros bw Hfit Hfuel; [lia|].
  pose proof (fits_lt_size_max _ Hfit) as Hmax. unfold sv_size in Hmax.
  simpl. destruct (N.eqb_spec (sv_find_char bw ch_lt 0) npos) as [Hs|Hs].
  { apply sv_find_char_npos in Hs; [|done]. simpl in Hs.
    by rewrite in_tag_outside. }
  destruct (sv_find_char_found _ _ _ _ eq_refl Hs) as (k & Hk & _ & Hlen & Hat & Hpre).
  change (N.to_nat 0) with 0%nat in Hpre. rewrite drop_0, Nat.sub_0_r in Hpre.
  assert (in_tag false bw = in_tag true (drop (S k) bw)) as ->.
  { rewrite <- (take_drop k bw) at 1.
    rewrite in_tag_app, in_tag_outside by done.
    by rewrite (drop_S _ _ _ Hat). }
  rewrite Hk, size_add_small by lia.
  destruct (N.eqb_spec (sv_find_char bw ch_gt (N.of_nat k + 1)) npos) as [He|He].
  { apply sv_find_char_npos in He; [|done].
    replace (N.to_nat (N.of_nat k + 1)) with (S k) in He by lia.
    by rewrite in_tag_inside. }
  destruct (sv_find_char_found _ _ _ _ eq_refl He)
    as (k2 & Hk2 & Hge & Hlen2 & Hat2 & Hmid).
  rewrite Hk2 in Hge |- *.
  replace (N.to_nat (N.of_nat k + 1)) with (S k) in Hmid by lia.
  assert (in_tag true (drop (S k) bw) = in_tag false (drop (S k2) bw)) as ->.
  { rewrite <- (take_drop (k2 - S k) (drop (S k) bw)) at 1.
    rewrite in_tag_app, in_tag_inside by done.
    rewrite drop_drop. replace (S k + (k2 - S k))%nat with k2 by lia.
    by rewrite (drop_S _ _ _ Hat2). }
  rewrite size_add_small by lia.
  unfold sv_remove_prefix, sv_size.
  destruct (N.ltb_spec (N.of_nat (length bw)) (N.of_nat k2 + 1)); [lia|].
  rewrite outcome_bind_Ret.
  replace (N.to_nat (N.of_nat k2 + 1)) with (S k2) by lia.
  apply IH.
  - unfold fits, sv_size in *. rewrite length_drop. lia.
  - rewrite length_drop. lia.
Qed.

Lemma tag_check_in_tag bw :
  fits bw → tag_check bw = Ret (negb (in_tag false bw)).
Proof. intros H. apply tag_scan_in_tag; [done|lia]. Qed.

(** ** Windows of the markup *)

Lemma window_length s a b :
  a ≤ b → b ≤ sv_size s → sv_size (window s a b) = b - a.
Proof.
  unfold window, sv_size. intros Hab Hb.
  rewrite length_take, length_drop. lia.
Qed.

Lemma window_fits s a b : fits s → fits (window s a b).
Proof.
  unfold fits, window, sv_size. rewrite length_take, length_drop. lia.
Qed.

Lemma window_empty s a : window s a a = [].
Proof. unfold window. by rewrite N.sub_diag. Qed.

Lemma window_app s a b c :
  a ≤ b → b ≤ c → window s a c = window s a b ++ window s b c.
Proof.
  intros Hab Hbc. unfold window.
  replace (N.to_nat (c - a)) with (N.to_nat (b - a) + N.to_nat (c - b))%nat by lia.
  rewrite <- take_take_drop, drop_drop.
  by replace (N.to_nat a + N.to_nat (b - a))%nat with (N.to_nat b) by lia.
Qed.

Lemma window_occurrence word s p :
  occurs_at word s p → window s p (p + sv_size word) = word.
Proof.
  intros [_ [rest Hrest]%starts_with_app]. unfold window, sv_size.
  rewrite Hrest. replace (N.to_nat _) with (length word) by lia.
  by rewrite take_app_length.
Qed.

Lemma window_to_end s a b :
  sv_size s ≤ b → window s a b = drop (N.to_nat a) s.
Proof.
  unfold window, sv_size. intros H. apply take_ge. rewrite length_drop. lia.
Qed.

Lemma window_single s (k : nat) ch :
  s !! k = Some ch → window s (N.of_nat k) (N.of_nat k + 1) = [ch].
Proof.
  intros H. unfold window.
  replace (N.to_nat (N.of_nat k + 1 - N.of_nat k)) with 1%nat by lia.
  by rewrite Nat2N.id, (drop_S _ _ _ H).
Qed.

Lemma occurs_at_head word s p ch :
  occurs_at (ch :: word) s p → s !! N.to_nat p = Some ch.
Proof.
  intros [_ [rest Hrest]%starts_with_app].
  replace (s !! N.to_nat p) with (drop (N.to_nat p) s !! 0%nat)
    by (rewrite lookup_drop; f_equal; lia).
  by rewrite Hrest.
Qed.

(** ** One turn of the candidate loop *)

Lemma FindWord_body_cases ssml word startpos :
  fits ssml →
  let p := sv_find ssml word startpos in
  (p = npos ∧ FindWord_body ssml word startpos = Ret NoOccurrence)
  ∨ (p ≠ npos ∧ startpos ≤ p ∧ occurs_at word ssml p
     ∧ (∀ q, startpos ≤ q → q < p → ¬ occurs_at word ssml q)
     ∧ ((in_tag false (window ssml startpos p) = false
         ∧ FindWord_body ssml word startpos = Ret (Accepted p))
        ∨ (in_tag false (window ssml startpos p) = true
           ∧ FindWord_body ssml word startpos
             = Ret (Rejected p (sv_find_char ssml ch_gt (p + sv_size word)))))).
Proof.
  intros Hfit p. unfold FindWord_body. fold p.
  pose proof (fits_lt_size_max _ Hfit) as Hmax.
  destruct (N.eqb_spec p npos) as [Hp|Hp]; [by left|right].
  destruct (sv_find_found _ _ _ _ eq_refl Hp) as (k & Hk & Hpos & Hlen & Hocc & Hfirst).
  fold p in Hk, Hpos. unfold sv_size in *.
  assert (occurs_at word ssml p) as Hoccurs.
  { split; [unfold sv_size; lia|]. by rewrite Hk, Nat2N.id. }
  split_and!; [done|done|done| |].
  { intros q Hq1 Hq2 [_ Hq]. specialize (Hfirst (N.to_nat q)).
    rewrite Hfirst in Hq; [done|lia|lia]. }
  unfold sv_substr, sv_size.
  destruct (N.ltb_spec (N.of_nat (length ssml)) startpos); [lia|].
  rewrite outcome_bind_Ret, size_sub_small by lia.
  rewrite N.min_l by lia. fold (window ssml startpos p).
  rewrite tag_check_in_tag by by apply window_fits.
  rewrite outcome_bind_Ret, size_add_small by lia.
  destruct (in_tag false (window ssml startpos p)); simpl; eauto.
Qed.

Lemma in_tag_true_nonempty l : in_tag false l = true → l ≠ [].
Proof. by destruct l. Qed.

(** What a rejection tells about the positions involved. *)
Lemma rejection_positions ssml word startpos p :
  fits ssml → startpos ≤ p → occurs_at word ssml p →
  sv_find ssml word startpos = p →
  in_tag false (window ssml startpos p) = true →
  ∀ next, next = sv_find_char ssml ch_gt (p + sv_size word) →
  startpos < p ∧ 1 ≤ sv_size word
  ∧ (next = npos ∨ (p + sv_size word ≤ next ∧ next < sv_size ssml)).
Proof.
  intros Hfit Hpos [Hlen Hocc] Hfind Hin next Hnext.
  assert (startpos < p) as Hlt.
  { apply in_tag_true_nonempty in Hin.
    destruct (N.eq_dec startpos p) as [->|]; [|lia].
    by rewrite window_empty in Hin. }
  split_and!; [done| |].
  - destruct word as [|c word]; [|unfold sv_size; simpl; lia].
    rewrite sv_find_empty in Hfind by (unfold sv_size in *; lia). lia.
  - destruct (N.eq_dec next npos) as [|Hn]; [by left|right].
    subst next.
    destruct (sv_find_char_found _ _ _ _ eq_refl Hn) as (k & Hk & Hge & Hk' & _).
    unfold sv_size in *. lia.
Qed.

(** ** The candidate loop returns; bounds on what it returns *)

Lemma FindWord_loop_total ssml word lastPos :
  fits ssml →
  ∀ fuel startpos iters,
    lastPos ≤ startpos →
    (N.to_nat (sv_size ssml - startpos) + 2 ≤ 2 * fuel)%nat →
    ∃ r, FindWord_loop fuel ssml word lastPos startpos iters = Ret r
      ∧ (2 * iterations r
         ≤ 2 * iters + N.to_nat (sv_size ssml - startpos) + 2)%nat
      ∧ ((found_at r = npos ∧ cursor r = lastPos)
         ∨ (found_at r ≠ npos ∧ startpos ≤ found_at r
            ∧ cursor r = found_at r + sv_size word
            ∧ cursor r ≤ sv_size ssml)).
Proof.
  intros Hfit. pose proof (fits_lt_size_max _ Hfit) as Hmax.
  induction fuel as [|fuel IH]; intros startpos iters Hlast Hfuel; [lia|].
  simpl.
  destruct (FindWord_body_cases ssml word startpos Hfit)
    as [[Hp ->]|(Hp & Hpos & Hocc & _ & [[Hin ->]|[Hin ->]])];
    rewrite outcome_bind_Ret.
  - eexists. split; [done|]. simpl. split; [lia|by left].
  - eexists. split; [done|]. simpl. destruct Hocc as [Hlen _].
    rewrite size_add_small by lia. split; [lia|right]. done.
  - set (p := sv_find ssml word startpos) in *.
    set (next := sv_find_char ssml ch_gt (p + sv_size word)) in *.
    destruct (rejection_positions _ _ _ _ Hfit Hpos Hocc eq_refl Hin next eq_refl)
      as (Hlt & Hword & Hnext).
    destruct Hocc as [Hlen _].
    destruct (IH next (S iters)) as (r & Hr & Hit & Hres).
    { unfold fits in Hfit. lia. }
    { unfold fits in Hfit. lia. }
    exists r. split; [done|]. split; [unfold fits in Hfit; lia|].
    destruct Hres as [?|(? & ? & ? & ?)]; [by left|right].
    split_and!; try done. unfold fits in Hfit. lia.
Qed.

(** ** The candidate loop finds the first occurrence outside a tag *)

Lemma in_tag_window_split s a b c :
  a ≤ b → b ≤ c →
  in_tag false (window s a c) = in_tag (in_tag false (window s a b)) (window s b c).
Proof. intros. by rewrite (window_app s a b c), in_tag_app. Qed.

Lemma not_elem_of_window_prefix (ch : N) s a b c :
  a ≤ b → b ≤ c → ch ∉ window s a c → ch ∉ window s a b.
Proof.
  intros Hab Hbc. rewrite (window_app s a b c), not_elem_of_app by done. tauto.
Qed.

Lemma inside_until s lastPos p e :
  lastPos ≤ p → in_tag false (window s lastPos p) = true →
  ch_gt ∉ window s p e →
  ∀ q, p ≤ q → q ≤ e → in_tag false (window s lastPos q) = true.
Proof.
  intros Hp Hin Hgt q Hq1 Hq2.
  rewrite (in_tag_window_split s lastPos p q), Hin by done.
  apply in_tag_inside. by apply (not_elem_of_window_prefix _ s p q e).
Qed.

(** After a rejected candidate at [p], no '>' lies between [p] and the
    place where the search resumes. *)
Lemma no_gt_after_rejected ssml word p :
  fits ssml → ch_gt ∉ word → occurs_at word ssml p →
  ∀ next, next = sv_find_char ssml ch_gt (p + sv_size word) →
  (ch_gt ∉ window ssml p (if next =? npos then sv_size ssml else next))
  ∧ (next ≠ npos →
     p + sv_size word ≤ next ∧ next < sv_size ssml
     ∧ ssml !! N.to_nat next = Some ch_gt).
Proof.
  intros Hfit Hword Hocc next ->. pose proof Hocc as [Hlen _].
  destruct (N.eqb_spec (sv_find_char ssml ch_gt (p + sv_size word)) npos)
    as [Hn|Hn].
  - split; [|done].
    rewrite (window_app ssml p (p + sv_size word)) by lia.
    rewrite (window_occurrence _ _ _ Hocc), not_elem_of_app. split; [done|].
    rewrite window_to_end by lia. by apply sv_find_char_npos.
  - destruct (sv_find_char_found _ _ _ _ eq_refl Hn)
      as (k & Hk & Hge & Hk' & Hat & Hmid).
    rewrite Hk in Hge |- *. rewrite Nat2N.id.
    split; [|intros _; unfold sv_size; split_and!; [done|lia|done]].
    rewrite (window_app ssml p (p + sv_size word)) by lia.
    rewrite (window_occurrence _ _ _ Hocc), not_elem_of_app. split; [done|].
    unfold window.
    by replace (N.to_nat (N.of_nat k - (p + sv_size word)))
      with (k - N.to_nat (p + sv_size word))%nat by lia.
Qed.

Lemma FindWord_loop_spec ssml word lastPos :
  fits ssml → ch_gt ∉ word →
  ∀ fuel startpos iters r,
    lastPos ≤ startpos →
    (∀ q, startpos ≤ q → occurs_at word ssml q →
          in_tag false (window ssml startpos q)
          = in_tag false (window ssml lastPos q)) →
    (∀ q, lastPos ≤ q → q < startpos → occurs_at word ssml q →
          in_tag false (window ssml lastPos q) = true) →
    FindWord_loop fuel ssml word lastPos startpos iters = Ret r →
    (found_at r = npos ∧ none_clear word ssml lastPos)
    ∨ (found_at r ≠ npos ∧ first_clear word ssml lastPos (found_at r)).
Proof.
  intros Hfit Hword.
  induction fuel as [|fuel IH]; intros startpos iters r Hlast HA HB; [done|].
  simpl.
  destruct (FindWord_body_cases ssml word startpos Hfit)
    as [[Hp ->]|(Hp & Hpos & Hocc & Hfirst & [[Hin ->]|[Hin ->]])];
    rewrite outcome_bind_Ret.
  - intros [= <-]. left. split; [done|]. intros q Hq Hoccq.
    destruct (N.lt_ge_cases q startpos) as [|Hge]; [by apply HB|].
    destruct Hoccq as [Hlen Hs]. unfold sv_size in Hlen.
    rewrite (sv_find_npos ssml word startpos (N.to_nat q)) in Hs; [done..|lia|lia].
  - intros [= <-]. right. simpl. split; [done|]. split_and!; [lia|done| |].
    + by rewrite <- HA.
    + intros q Hq1 Hq2 Hoccq.
      destruct (N.lt_ge_cases q startpos) as [|Hge]; [by apply HB|].
      by destruct (Hfirst q).
  - set (p := sv_find ssml word startpos) in *.
    set (next := sv_find_char ssml ch_gt (p + sv_size word)) in *.
    destruct (rejection_positions _ _ _ _ Hfit Hpos Hocc eq_refl Hin next eq_refl)
      as (Hlt & Hlen1 & _).
    destruct (no_gt_after_rejected ssml word p Hfit Hword Hocc next eq_refl)
      as [Hgt Hnext].
    assert (in_tag false (window ssml lastPos p) = true) as Hst
      by (by rewrite <- HA).
    pose proof (inside_until ssml lastPos p _ ltac:(lia) Hst Hgt) as Hinside.
    pose proof Hocc as [Hlen _].
    assert (∀ q, lastPos ≤ q →
                 q < (if next =? npos then sv_size ssml + 1 else next) →
                 occurs_at word ssml q →
                 in_tag false (window ssml lastPos q) = true) as HB'.
    { intros q Hq1 Hq2 Hoccq.
      destruct (N.lt_ge_cases q startpos) as [|Hge]; [by apply HB|].
      destruct (N.lt_ge_cases q p) as [|Hge']; [by destruct (Hfirst q)|].
      apply Hinside; [done|]. destruct (next =? npos); lia. }
    apply IH.
    + destruct (N.eqb_spec next npos) as [->|Hn].
      * unfold fits in Hfit. lia.
      * destruct (Hnext Hn). lia.
    + intros q Hq Hoccq. destruct (N.eqb_spec next npos) as [Hn|Hn].
      { destruct Hoccq as [Hq' _]. unfold fits in Hfit. lia. }
      destruct (Hnext Hn) as (Hn1 & Hn2 & Hat).
      destruct word as [|c word']; [unfold sv_size in Hlen1; simpl in Hlen1; lia|].
      assert (q ≠ next) as Hne.
      { intros ->. apply occurs_at_head in Hoccq.
        rewrite Hat in Hoccq. injection Hoccq as <-.
        apply Hword. left. }
      pose proof (window_single ssml (N.to_nat next) ch_gt Hat) as Hone.
      rewrite N2Nat.id in Hone.
      rewrite (in_tag_window_split ssml lastPos next q) by lia.
      rewrite Hinside by lia.
      rewrite (window_app ssml next (next + 1) q), Hone by lia.
      reflexivity.
    + intros q Hq1 Hq2 Hoccq. apply HB'; [done| |done].
      destruct (next =? npos); [|done].
      destruct Hoccq as [Hq' _]. lia.
Qed.

(** ** The text locator *)

Lemma XmlEscape_no_gt str : ch_gt ∉ XmlEscape str.
Proof.
  induction str as [|ch str IH]; simpl; [apply not_elem_of_nil|].
  rewrite not_elem_of_app. split; [|done]. unfold XmlEscape_char.
  repeat (match goal with
          | |- context [?a =? ?b] => destruct (N.eqb_spec a b)
          end);
    unfold lit; simpl;
    repeat (rewrite not_elem_of_cons; split; [by unfold ch_gt in *|]);
    apply not_elem_of_nil.
Qed.

(** [FindWord_wide] returns, and what it returns is the first occurrence
    outside a tag, if there is one. *)
Lemma FindWord_wide_correct ssml word lastPos :
  fits ssml → ch_gt ∉ word →
  ∃ r, FindWord_wide ssml word lastPos = Ret r
    ∧ (2 * iterations r ≤ length ssml + 2)%nat
    ∧ ((found_at r = npos ∧ cursor r = lastPos
        ∧ none_clear word ssml lastPos)
       ∨ (found_at r ≠ npos ∧ cursor r = found_at r + sv_size word
          ∧ cursor r ≤ sv_size ssml
          ∧ first_clear word ssml lastPos (found_at r))).
Proof.
  intros Hfit Hword. unfold FindWord_wide.
  destruct (FindWord_loop_total ssml word lastPos Hfit
              (S (length ssml)) lastPos 0%nat) as (r & Hr & Hit & Hres).
  { lia. } { unfold sv_size. lia. }
  exists r. split; [done|]. split; [unfold sv_size in Hit; lia|].
  destruct (FindWord_loop_spec ssml word lastPos Hfit Hword
              (S (length ssml)) lastPos 0%nat r)
    as [[Hn Hnone]|[Hn Hfirst]]; [lia|done|intros; lia|done| |].
  - left. destruct Hres as [[_ ?]|[? _]]; done.
  - right. destruct Hres as [[? _]|(_ & _ & ? & ?)]; done.
Qed.

(** C2, as the code has it. In the markup [A <b>word</b> word end] the
    word between [<b>] and [</b>] is not inside a tag: both tags are
    complete. Locating [word] from cursor 0 returns offset 5 and leaves the
    cursor at 9; locating it again from there returns 14. An occurrence
    that does stand inside a tag, as an attribute does, is passed over. *)
Theorem C2_locate_markup_example :
  FindWord ascii_to_wide markup_example (lit "word") 0 = Ret (Located 5 9 1)
  ∧ FindWord ascii_to_wide markup_example (lit "word") 9
    = Ret (Located 14 18 1)
  ∧ FindWord ascii_to_wide attribute_example (lit "word") 0
    = Ret (Located 23 27 2).
Proof. split_and!; by vm_compute. Qed.

(** C2 as stated (the result is offset 14) does not hold. *)
Lemma C2_locate_returns_first_occurrence :
  ¬ ∃ r, FindWord ascii_to_wide markup_example (lit "word") 0 = Ret r
         ∧ found_at r = 14.
Proof. intros (r & Hr & H14). vm_compute in Hr. by injection Hr as <-. Qed.

(** C6. When no occurrence of the escaped word at or after the cursor
    passes the tag check (in particular when the word does not occur),
    [FindWord] returns [npos] and leaves the cursor as it was. *)
Theorem C6_locate_not_found
    (UTF8ToWString : string_view → string_view) ssml utf8Word lastPos :
  fits ssml →
  (∀ q, lastPos ≤ q →
        occurs_at (XmlEscape (UTF8ToWString utf8Word)) ssml q →
        ¬ clears_tag_check ssml lastPos q) →
  ∃ n, FindWord UTF8ToWString ssml utf8Word lastPos
       = Ret (Located npos lastPos n).
Proof.
  intros Hfit Hnone. unfold FindWord.
  destruct (FindWord_wide_correct ssml (XmlEscape (UTF8ToWString utf8Word))
              lastPos Hfit (XmlEscape_no_gt _))
    as (r & -> & _ & [(Hf & Hc & _)|(_ & _ & _ & Hge & Hocc & Hin & _)]).
  - destruct r as [f c n]. simpl in *. subst. by exists n.
  - destruct (Hnone (found_at r) Hge Hocc). unfold clears_tag_check.
    rewrite tag_check_in_tag by by apply window_fits. by rewrite Hin.
Qed.

Lemma C6_locate_not_found_witness :
  fits unclosed_example
  ∧ (∀ q, 0 ≤ q →
          occurs_at (XmlEscape (ascii_to_wide (lit "word"))) unclosed_example q →
          ¬ clears_tag_check unclosed_example 0 q)
  ∧ ∃ n, FindWord ascii_to_wide unclosed_example (lit "word") 0
         = Ret (Located npos 0 n).
Proof.
  assert (∀ q, 0 ≤ q →
            occurs_at (XmlEscape (ascii_to_wide (lit "word"))) unclosed_example q →
            ¬ clears_tag_check unclosed_example 0 q) as Hnone.
  { intros q _ [Hlen Hocc] Hclear.
    change (q + 4 ≤ 7) in Hlen.
    assert (q = 0 ∨ q = 1 ∨ q = 2 ∨ q = 3) as Hq by lia.
    destruct Hq as [-> | [-> | [-> | ->]]];
      vm_compute in Hocc, Hclear; discriminate. }
  assert (fits unclosed_example) as Hfit by (by vm_compute).
  split; [done|]. split; [done|].
  exact (C6_locate_not_found ascii_to_wide unclosed_example (lit "word") 0
           Hfit Hnone).
Defined.

(** C10, as the code has it. [FindWord] returns on every input. A
    rejected candidate moves the place where the search resumes strictly
    forward: to the next '>' at or after the end of the candidate, or to
    [npos] when there is none, and then the next test of the loop ends the
    search. The body of the loop is entered at most [max 1 n] times for a
    markup of [n] characters: once when the markup is empty, which
    happens for an empty word. *)
Theorem C10_locate_terminates
    (UTF8ToWString : string_view → string_view) ssml utf8Word lastPos :
  fits ssml →
  (∃ r, FindWord UTF8ToWString ssml utf8Word lastPos = Ret r
        ∧ (iterations r ≤ Nat.max 1 (length ssml))%nat)
  ∧ ∀ startpos p next,
      FindWord_body ssml (XmlEscape (UTF8ToWString utf8Word)) startpos
      = Ret (Rejected p next) →
      startpos < next
      ∧ (next = npos
         ∨ (p + sv_size (XmlEscape (UTF8ToWString utf8Word)) ≤ next
            ∧ ssml !! N.to_nat next = Some ch_gt))
      ∧ (next = npos →
         FindWord_body ssml (XmlEscape (UTF8ToWString utf8Word)) next
         = Ret NoOccurrence).
Proof.
  intros Hfit. set (word := XmlEscape (UTF8ToWString utf8Word)).
  split.
  - destruct (FindWord_wide_correct ssml word lastPos Hfit (XmlEscape_no_gt _))
      as (r & Hr & Hit & _).
    exists r. split; [done|].
    destruct (Nat.max_spec 1 (length ssml)) as [[? ->]|[? ->]]; lia.
  - intros startpos p next Hbody.
    destruct (FindWord_body_cases ssml word startpos Hfit)
      as [[_ Hb]|(Hp & Hpos & Hocc & _ & [[_ Hb]|[Hin Hb]])];
      rewrite Hb in Hbody; try discriminate.
    injection Hbody as <- <-.
    destruct (rejection_positions _ _ _ _ Hfit Hpos Hocc eq_refl Hin _ eq_refl)
      as (Hlt & _ & Hnext).
    destruct (no_gt_after_rejected ssml word _ Hfit (XmlEscape_no_gt _) Hocc
                _ eq_refl) as [_ Hat].
    set (p := sv_find ssml word startpos) in *.
    set (next := sv_find_char ssml ch_gt (p + sv_size word)) in *.
    pose proof Hocc as [Hlen _]. unfold fits in Hfit. split_and!.
    + destruct Hnext as [Hn | [? ?]]; lia.
    + destruct (N.eq_dec next npos) as [|Hn]; [by left|right].
      destruct (Hat Hn) as (? & _ & ?). done.
    + intros Hn. unfold FindWord_body.
      rewrite Hn, sv_find_past_end by done. done.
Qed.

Lemma C10_locate_terminates_witness :
  fits attribute_example
  ∧ (∃ r, FindWord ascii_to_wide attribute_example (lit "word") 0 = Ret r
          ∧ (iterations r ≤ Nat.max 1 (length attribute_example))%nat).
Proof.
  assert (fits attribute_example) as Hfit by (by vm_compute).
  split; [done|].
  exact (proj1 (C10_locate_terminates ascii_to_wide attribute_example
                  (lit "word") 0 Hfit)).
Defined.

(** C10 as stated (at most as many turns as the markup has characters)
    fails on the empty markup: the empty word is found there at offset 0,
    in one turn. *)
Lemma C10_one_turn_on_empty_markup :
  ∃ r, FindWord ascii_to_wide [] [] 0 = Ret r
       ∧ ¬ (iterations r ≤ length ([] : string_view))%nat.
Proof. eexists. split; [by vm_compute|]. simpl. lia. Qed.

(** ** The completion handle *)

Lemma set_isPromiseSet_id st :
  m_isPromiseSet st = true → set_isPromiseSet true st = st.
Proof. destruct st. simpl. by intros ->. Qed.

Lemma fire_unresolved t st :
  m_isPromiseSet st = false → m_speakPromise st = None →
  fire t st = HRet () (resolved t st).
Proof.
  intros Hflag Hprom.
  destruct t; unfold fire, SpeakComplete, SpeakError;
    cbv [mbind M_mbind M_bind test_and_set when promise_set];
    rewrite Hflag; simpl; by rewrite Hprom.
Qed.

Lemma fire_resolved t st : m_isPromiseSet st = true → fire t st = HRet () st.
Proof.
  intros Hflag.
  destruct t; unfold fire, SpeakComplete, SpeakError;
    cbv [mbind M_mbind M_bind test_and_set when mret M_mret];
    rewrite Hflag; simpl; by rewrite set_isPromiseSet_id.
Qed.

Lemma for_each_fire_resolved ts st :
  m_isPromiseSet st = true → for_each fire ts st = HRet () st.
Proof.
  intros Hflag. induction ts as [|t ts IH]; [done|].
  simpl. cbv [mbind M_mbind M_bind]. by rewrite fire_resolved.
Qed.

(** The two steps of a thread, taken one after the other, are the
    function it runs. *)
Lemma racer_steps_fire t st :
  (r ← racer_step (Entering t); racer_step r;; mret ()) st = fire t st.
Proof.
  destruct t; unfold fire, SpeakComplete, SpeakError;
    cbv [mbind M_mbind M_bind racer_step test_and_set when mret M_mret];
    destruct (m_isPromiseSet st); simpl; try done;
    cbv [promise_set]; simpl; by destruct (m_speakPromise st).
Qed.

(** Once the handle is resolved, no step of any thread changes the
    state. *)
Lemma race_settled sched rs st :
  m_isPromiseSet st = true →
  Forall (λ r, is_holding r = false) rs →
  ∃ rs', race sched rs st = HRet rs' st
         ∧ Forall (λ r, is_holding r = false) rs'
         ∧ length rs' = length rs.
Proof.
  intros Hflag. revert rs. induction sched as [|i sched IH]; intros rs Hrs.
  { by exists rs. }
  simpl. destruct (rs !! i) as [r|] eqn:Hi; [|by apply IH].
  assert (is_holding r = false) as Hr
    by (by eapply (proj1 (Forall_lookup _ _) Hrs)).
  assert (racer_step r st = HRet Left st) as Hstep.
  { destruct r; try done.
    cbv [racer_step mbind M_mbind M_bind test_and_set mret M_mret].
    by rewrite Hflag, set_isPromiseSet_id. }
  cbv [mbind M_mbind M_bind]. rewrite Hstep.
  destruct (IH (<[i:=Left]> rs)) as (rs' & Hrace & Hrs' & Hlen).
  { by apply Forall_insert. }
  exists rs'. rewrite length_insert in Hlen. done.
Qed.

(** While one thread holds the flag and has not yet set the result, the
    others leave, and the result can only become that thread's. *)
Lemma race_held sched rs st i t :
  m_isPromiseSet st = true → m_speakPromise st = None →
  rs !! i = Some (Holding t) →
  (∀ j r, rs !! j = Some r → j ≠ i → is_holding r = false) →
  ∃ rs' st', race sched rs st = HRet rs' st'
    ∧ length rs' = length rs
    ∧ ((st' = st ∧ rs' !! i = Some (Holding t))
       ∨ (st' = log_call (call_promise (result_of t))
                  (set_speakPromise (Some (result_of t)) st)
          ∧ Forall (λ r, is_holding r = false) rs')).
Proof.
  intros Hflag Hprom. revert rs.
  induction sched as [|k sched IH]; intros rs Hi Hothers.
  { exists rs, st. split_and!; [done|done|by left]. }
  simpl. destruct (rs !! k) as [r|] eqn:Hk; [|by apply IH].
  destruct (decide (k = i)) as [->|Hne].
  - rewrite Hi in Hk. injection Hk as <-.
    cbv [mbind M_mbind M_bind racer_step promise_set].
    rewrite Hprom. simpl. cbv [mret M_mret].
    set (st1 := log_call _ _).
    destruct (race_settled sched (<[i:=Left]> rs) st1) as (rs' & -> & Hrs' & Hlen).
    { done. }
    { apply Forall_lookup. intros j r Hj.
      destruct (decide (j = i)) as [->|Hji].
      - rewrite list_lookup_insert_eq in Hj by by eapply lookup_lt_Some.
        by injection Hj as <-.
      - rewrite list_lookup_insert_ne in Hj by done. by eapply Hothers. }
    exists rs', st1. rewrite length_insert in Hlen. split_and!; [done|done|by right].
  - pose proof (Hothers k r Hk Hne) as Hr.
    assert (racer_step r st = HRet Left st) as Hstep.
    { destruct r; try done.
      cbv [racer_step mbind M_mbind M_bind test_and_set mret M_mret].
      by rewrite Hflag, set_isPromiseSet_id. }
    cbv [mbind M_mbind M_bind]. rewrite Hstep.
    destruct (IH (<[k:=Left]> rs)) as (rs' & st' & Hrace & Hlen & Hres).
    { by rewrite list_lookup_insert_ne. }
    { intros j r' Hj Hji. destruct (decide (j = k)) as [->|Hjk].
      - rewrite list_lookup_insert_eq in Hj by by eapply lookup_lt_Some.
        by injection Hj as <-.
      - rewrite list_lookup_insert_ne in Hj by done. by eapply Hothers. }
    exists rs', st'. rewrite length_insert in Hlen. done.
Qed.

Lemma set_speakPromise_resolved t st :
  log_call (call_promise (result_of t))
    (set_speakPromise (Some (result_of t)) (set_isPromiseSet true st))
  = resolved t st.
Proof. reflexivity. Qed.

(** From an unresolved handle: the thread that moves first wins. *)
Lemma race_unresolved sched ts st :
  m_isPromiseSet st = false → m_speakPromise st = None →
  ∃ rs' st', race sched (Entering <$> ts) st = HRet rs' st'
    ∧ length rs' = length ts
    ∧ match first_mover sched (length ts) with
      | None => st' = st ∧ rs' = Entering <$> ts
      | Some i =>
          ∃ t, ts !! i = Some t
               ∧ ((st' = set_isPromiseSet true st ∧ rs' !! i = Some (Holding t))
                  ∨ (st' = resolved t st
                     ∧ Forall (λ r, is_holding r = false) rs'))
      end.
Proof.
  intros Hflag Hprom.
  induction sched as [|k sched IH].
  { exists (Entering <$> ts), st. by rewrite length_fmap. }
  simpl. rewrite list_lookup_fmap.
  destruct (Nat.ltb_spec k (length ts)) as [Hk|Hk].
  - destruct (lookup_lt_is_Some_2 ts k Hk) as [t Ht]. rewrite Ht. simpl.
    cbv [mbind M_mbind M_bind racer_step test_and_set mret M_mret].
    rewrite Hflag. simpl.
    destruct (race_held sched (<[k:=Holding t]> (Entering <$> ts))
                (set_isPromiseSet true st) k t)
      as (rs' & st' & Hrace & Hlen & Hres).
    { done. } { done. }
    { apply list_lookup_insert_eq. by rewrite length_fmap. }
    { intros j r Hj Hjk. rewrite list_lookup_insert_ne in Hj by done.
      rewrite list_lookup_fmap in Hj.
      destruct (ts !! j); simpl in Hj; [by injection Hj as <-|done]. }
    exists rs', st'. rewrite length_insert, length_fmap in Hlen.
    split_and!; [done|done|]. exists t. split; [done|].
    destruct Hres as [[-> ?]|[-> ?]]; [by left|by right].
  - rewrite (lookup_ge_None_2 ts k) by lia. simpl. apply IH.
Qed.

(** C1. From an unresolved completion handle, the first call of
    [SpeakComplete] or [SpeakError] sets the result and every later call
    of either changes nothing. When the calls race, whatever the schedule
    of their steps, nothing throws, the result is set at most once, and
    it is that of the thread whose [test_and_set] came first; when all
    threads have left, it is set. *)
Theorem C1_completion_resolved_once st :
  m_isPromiseSet st = false → m_speakPromise st = None →
  (∀ first later,
     ∃ st1, fire first st = HRet () st1
       ∧ for_each fire (first :: later) st = HRet () st1
       ∧ m_speakPromise st1 = Some (result_of first)
       ∧ calls st1 = calls st ++ [call_promise (result_of first)]
       ∧ ∀ t, fire t st1 = HRet () st1)
  ∧ (∀ ts sched,
       ∃ rs' st', race sched (Entering <$> ts) st = HRet rs' st'
         ∧ ((m_speakPromise st' = None ∧ calls st' = calls st)
            ∨ (∃ i t, first_mover sched (length ts) = Some i
                 ∧ ts !! i = Some t
                 ∧ m_speakPromise st' = Some (result_of t)
                 ∧ calls st' = calls st ++ [call_promise (result_of t)]))
         ∧ (Forall (λ r, r = Left) rs' → ts ≠ [] →
            is_Some (m_speakPromise st'))).
Proof.
  intros Hflag Hprom. split.
  - intros first later. exists (resolved first st).
    rewrite fire_unresolved by done. split_and!; try done.
    + simpl. cbv [mbind M_mbind M_bind]. rewrite fire_unresolved by done.
      by apply for_each_fire_resolved.
    + intros t. by apply fire_resolved.
  - intros ts sched.
    destruct (race_unresolved sched ts st Hflag Hprom)
      as (rs' & st' & Hrace & Hlen & Hres).
    exists rs', st'. split; [done|].
    destruct (first_mover sched (length ts)) as [i|].
    + destruct Hres as (t & Ht & [[-> Hi]|[-> Hrs]]).
      * split; [by left|]. intros Hall _.
        pose proof (proj1 (Forall_lookup _ _) Hall i _ Hi). done.
      * split; [right; by exists i, t|]. by eexists.
    + destruct Hres as [-> ->]. split; [by left|].
      intros Hall Hne. destruct ts as [|t ts]; [done|].
      by inversion Hall.
Qed.

Lemma C1_completion_resolved_once_witness :
  m_isPromiseSet fresh = false ∧ m_speakPromise fresh = None
  ∧ ∃ rs' st',
      race [1; 0; 1; 0]%nat
        (Entering <$> [Success; Failure (system_error 2)]) fresh
      = HRet rs' st'
      ∧ m_speakPromise st' = Some (speak_exception (system_error 2)).
Proof.
  split; [done|]. split; [done|].
  destruct (proj2 (C1_completion_resolved_once fresh eq_refl eq_refl)
              [Success; Failure (system_error 2)] [1; 0; 1; 0]%nat)
    as (rs' & st' & Hrace & _ & _).
  exists rs', st'. split; [done|].
  vm_compute in Hrace. by injection Hrace as <- <-.
Defined.

(** ** The audio pipeline *)

Lemma fire_coherent t st : coherent st → fire t st = HRet () (fired t st).
Proof.
  intros Hco. unfold fired. destruct (m_isPromiseSet st) eqn:Hflag.
  - by apply fire_resolved.
  - apply fire_unresolved; [done|by apply Hco].
Qed.

Lemma fired_coherent t st : coherent st → coherent (fired t st).
Proof.
  intros Hco. unfold fired. destruct (m_isPromiseSet st) eqn:Hflag; [done|].
  intros Hflag'. simpl in Hflag'. discriminate.
Qed.

Lemma with_queue_id st :
  with_queue (m_mp3Queue st) (m_mp3QueueDone st) st = st.
Proof. by destruct st. Qed.

Lemma fired_with_queue t q b st :
  fired t (with_queue q b st) = with_queue q b (fired t st).
Proof. unfold fired. simpl. by destruct (m_isPromiseSet st). Qed.

Lemma mp3data_of_total m : well_formed m → ∃ o, mp3data_of m = Ret o.
Proof.
  intros [Hfit Hlen]. unfold mp3data_of, sv_remove_prefix.
  pose proof (fits_lt_size_max _ Hfit) as Hmax.
  destruct (N.ltb_spec (sv_size m) 2); [lia|]. rewrite outcome_bind_Ret.
  change (N.to_nat 2) with 2%nat.
  destruct (N.eqb_spec (sv_find (drop 2 m) audio_marker 0) npos) as [|Hd];
    [by eexists|].
  destruct (sv_find_found _ _ _ _ eq_refl Hd) as (k & Hk & _ & Hk' & _).
  rewrite Hk. rewrite length_drop in Hk'. unfold sv_size in *.
  change (length audio_marker) with 12%nat in Hk'.
  rewrite size_add_small by lia. rewrite length_drop.
  destruct (N.ltb_spec (N.of_nat (length m - 2)) (N.of_nat k + 12)); [lia|].
  by eexists.
Qed.

Lemma audio_of_Ret m o : mp3data_of m = Ret o → audio_of m = dword_buffer <$> o.
Proof. intros H. unfold audio_of. by rewrite H. Qed.

Section PipelineFacts.
Variable Decoder : Type.
Variable Mp3Decoder_new : Decoder.
Variable Convert : Decoder → string_view → Decoder * option exn.

Local Abbreviation worker := (mkWorker Decoder).
Local Abbreviation step := (Mp3Thread_step Decoder Mp3Decoder_new Convert).
Local Abbreviation run := (run Decoder Mp3Decoder_new Convert).
Local Abbreviation decode_one := (decode_one Decoder Convert).
Local Abbreviation decode_list := (decode_list Decoder Convert).

(** The part of the loop body after the dequeue, in terms of what
    goes to the decoder. *)
Lemma Mp3Thread_unlocked_audio w m o st :
  mp3data_of m = Ret o →
  Mp3Thread_unlocked Decoder Convert w m st
  = match audio_of m with
    | None => HRet (worker (mp3Decoder Decoder w) None false) st
    | Some data =>
        (modify (log_call (call_Convert data));;
         let '(dec, err) := Convert (mp3Decoder Decoder w) data in
         try_catch (match err with Some e => throw e | None => mret () end)
                   SpeakError;;
         mret (worker dec None false)) st
    end.
Proof.
  intros Ho. unfold Mp3Thread_unlocked. cbv [mbind M_mbind M_bind lift].
  rewrite Ho, (audio_of_Ret m o Ho). by destruct o.
Qed.

Lemma decode_one_with_queue m d q b st :
  decode_one m (d, with_queue q b st)
  = (fst (decode_one m (d, st)), with_queue q b (snd (decode_one m (d, st)))).
Proof.
  unfold decode_one. simpl. destruct (audio_of m) as [data|]; [|done].
  destruct (Convert d data) as [dec [e|]]; simpl; [|done].
  by rewrite <- fired_with_queue.
Qed.

Lemma decode_one_frame m ds :
  coherent (snd ds) →
  coherent (snd (decode_one m ds))
  ∧ m_isStopping (snd (decode_one m ds)) = m_isStopping (snd ds)
  ∧ m_mp3Queue (snd (decode_one m ds)) = m_mp3Queue (snd ds)
  ∧ m_mp3QueueDone (snd (decode_one m ds)) = m_mp3QueueDone (snd ds).
Proof.
  intros Hco. unfold decode_one. destruct (audio_of m) as [data|]; [|done].
  destruct (Convert (fst ds) data) as [dec [e|]]; simpl; [|done].
  split; [by apply fired_coherent|].
  unfold fired. simpl. by destruct (m_isPromiseSet (snd ds)).
Qed.

Lemma decode_list_frame ms ds :
  coherent (snd ds) →
  coherent (snd (decode_list ms ds))
  ∧ m_isStopping (snd (decode_list ms ds)) = m_isStopping (snd ds)
  ∧ m_mp3Queue (snd (decode_list ms ds)) = m_mp3Queue (snd ds)
  ∧ m_mp3QueueDone (snd (decode_list ms ds)) = m_mp3QueueDone (snd ds).
Proof.
  revert ds. induction ms as [|m ms IH]; intros ds Hco; [done|].
  change (decode_list (m :: ms) ds) with (decode_list ms (decode_one m ds)).
  destruct (decode_one_frame m ds Hco) as (Hco' & <- & <- & <-).
  by apply IH.
Qed.

Lemma decode_list_app ms1 ms2 ds :
  decode_list (ms1 ++ ms2) ds = decode_list ms2 (decode_list ms1 ds).
Proof. apply foldl_app. Qed.

(** *** The steps of the decode worker *)

Lemma step_decode d m q b st :
  well_formed m → coherent st →
  step (worker d (Some m) false) (with_queue q b st)
  = HRet (worker (fst (decode_one m (d, st))) None false)
         (with_queue q b (snd (decode_one m (d, st)))).
Proof.
  intros Hwf Hco. unfold Mp3Thread_step. simpl.
  destruct (mp3data_of_total m Hwf) as [o Ho].
  rewrite (Mp3Thread_unlocked_audio _ _ _ _ Ho).
  unfold decode_one. simpl. destruct (audio_of m) as [data|]; [|done].
  cbv [mbind M_mbind M_bind modify].
  destruct (Convert d data) as [dec [e|]]; simpl.
  - cbv [try_catch throw mbind M_mbind M_bind].
    change (SpeakError e) with (fire (Failure e)).
    rewrite fire_coherent by done. by rewrite <- fired_with_queue.
  - done.
Qed.

Lemma step_dequeue d m q b st :
  m_isStopping st = false →
  step (worker d None false) (with_queue (m :: q) b st)
  = HRet (worker d (Some m) false) (with_queue q b st).
Proof.
  intros Hstop. unfold Mp3Thread_step, Mp3Thread_locked. simpl.
  cbv [catching mbind M_mbind M_bind gets]. simpl. by rewrite Hstop.
Qed.

Lemma step_wait d st :
  m_isStopping st = false →
  step (worker d None false) (with_queue [] false st)
  = HRet (worker d None false) (with_queue [] false st).
Proof.
  intros Hstop. unfold Mp3Thread_step, Mp3Thread_locked. simpl.
  cbv [catching mbind M_mbind M_bind gets]. simpl. by rewrite Hstop.
Qed.

Lemma step_complete d st :
  m_isStopping st = false → coherent st →
  step (worker d None false) (with_queue [] true st)
  = HRet (worker Mp3Decoder_new None false)
         (with_queue [] false (fired Success st)).
Proof.
  intros Hstop Hco. unfold Mp3Thread_step, Mp3Thread_locked. simpl.
  cbv [catching mbind M_mbind M_bind gets]. simpl. rewrite Hstop.
  change (m_mp3QueueDone (with_queue [] true st)) with true. cbv beta iota.
  change SpeakComplete with (fire Success).
  rewrite (fire_coherent Success (with_queue [] true st)) by exact Hco.
  by rewrite fired_with_queue.
Qed.

Lemma run_app acts1 acts2 w st :
  run (acts1 ++ acts2) w st
  = (w' ← run acts1 w; run acts2 w') st.
Proof.
  revert w st. induction acts1 as [|a acts1 IH]; intros w st; [done|].
  simpl. cbv [mbind M_mbind M_bind].
  destruct (act _ _ _ a w st); by try apply IH.
Qed.

Lemma run_idle n d st :
  m_isStopping st = false →
  run (replicate n act_worker) (worker d None false) (with_queue [] false st)
  = HRet (worker d None false) (with_queue [] false st).
Proof.
  intros Hstop. induction n as [|n IH]; [done|].
  simpl. cbv [mbind M_mbind M_bind]. by rewrite step_wait.
Qed.

(** Once no more audio is to come, the worker alone empties the queue
    in order and then completes. *)
Lemma run_drain n :
  ∀ d o q st,
    m_isStopping st = false → coherent st →
    Forall well_formed (option_list o ++ q) →
    (2 * length q + length (option_list o) + 1 ≤ n)%nat →
    run (replicate n act_worker) (worker d o false) (with_queue q true st)
    = HRet (worker Mp3Decoder_new None false)
           (with_queue [] false
              (fired Success (snd (decode_list (option_list o ++ q) (d, st))))).
Proof.
  induction n as [|n IH]; intros d o q st Hstop Hco Hwf Hn; [lia|].
  simpl. cbv [mbind M_mbind M_bind].
  destruct o as [m|]; simpl in *.
  - apply Forall_cons in Hwf as [Hm Hwf].
    rewrite step_decode by done.
    destruct (decode_one_frame m (d, st) Hco) as (Hco' & Hstop' & _).
    simpl in *. rewrite (IH _ None) by (simpl; try done; try congruence; lia).
    simpl. by destruct (decode_one m (d, st)).
  - destruct q as [|m q].
    + rewrite step_complete by done.
      change (snd (decode_list [] (d, st))) with st.
      apply run_idle. unfold fired.
      by destruct (m_isPromiseSet st).
    + rewrite step_dequeue by done.
      rewrite (IH _ (Some m)) by (simpl in *; try done; lia). done.
Qed.
End PipelineFacts.

Lemma producer_part_nil acts :
  producer_part acts = [] → acts = replicate (length acts) act_worker.
Proof.
  induction acts as [|a acts IH]; [done|]. simpl.
  destruct a; simpl; try done. intros H. by rewrite <- IH.
Qed.

Lemma producer_part_split acts ps :
  producer_part acts = (act_push <$> ps) ++ [act_done] →
  ∃ acts1 k,
    acts = acts1 ++ act_done :: replicate k act_worker
    ∧ producer_part acts1 = act_push <$> ps.
Proof.
  revert ps. induction acts as [|a acts IH]; intros ps; simpl.
  { by destruct ps. }
  destruct a as [m| | |]; simpl.
  - destruct ps as [|m' ps]; simpl; [done|]. intros [= <- Hrest].
    destruct (IH ps Hrest) as (acts1 & k & -> & Hpart).
    exists (act_push m :: acts1), k. simpl. by rewrite Hpart.
  - destruct ps as [|m' ps]; simpl; [|done]. intros [= Hrest].
    exists [], (length acts). split; [|done].
    simpl. by rewrite <- producer_part_nil.
  - by destruct ps.
  - intros Hrest. destruct (IH ps Hrest) as (acts1 & k & -> & Hpart).
    by exists (act_worker :: acts1), k.
Qed.

Section PipelineOrder.
Variable Decoder : Type.
Variable Mp3Decoder_new : Decoder.
Variable Convert : Decoder → string_view → Decoder * option exn.

Local Abbreviation worker := (mkWorker Decoder).
Local Abbreviation run := (run Decoder Mp3Decoder_new Convert).
Local Abbreviation decode_one := (decode_one Decoder Convert).
Local Abbreviation decode_list := (decode_list Decoder Convert).

(** While audio is still to come, any interleaving of the network
    thread's pushes with the worker's steps leaves the decoder and the
    call log as decoding a first part of the messages, in order, would;
    the rest is in the worker's hands or in the queue, in order. *)
Lemma run_filling acts :
  ∀ ps d o q st,
    m_isStopping st = false → coherent st →
    producer_part acts = act_push <$> ps →
    Forall well_formed (option_list o ++ q ++ ps) →
    ∃ o' q' decoded,
      run acts (worker d o false) (with_queue q false st)
      = HRet (worker (fst (decode_list decoded (d, st))) o' false)
             (with_queue q' false (snd (decode_list decoded (d, st))))
      ∧ decoded ++ option_list o' ++ q' = option_list o ++ q ++ ps.
Proof.
  induction acts as [|a acts IH]; intros ps d o q st Hstop Hco Hpart Hwf.
  { destruct ps; [|done]. exists o, q, []. by rewrite !app_nil_r. }
  destruct a as [m| | |]; simpl in Hpart.
  - destruct ps as [|m' ps]; simpl in Hpart; [done|].
    injection Hpart as <- Hpart.
    destruct (IH ps d o (q ++ [m]) st Hstop Hco Hpart)
      as (o' & q' & decoded & Hrun & Hlist).
    { by rewrite <- app_assoc. }
    exists o', q', decoded. split; [exact Hrun|].
    by rewrite Hlist, <- app_assoc.
  - by destruct ps.
  - by destruct ps.
  - simpl. cbv [mbind M_mbind M_bind]. destruct o as [m|]; simpl in *.
    + apply Forall_cons in Hwf as [Hm Hwf].
      rewrite (step_decode _ Mp3Decoder_new) by done.
      destruct (decode_one_frame _ Convert m (d, st) Hco) as (Hco' & Hstop' & _).
      destruct (decode_one m (d, st)) as [d1 st1] eqn:Hone. simpl in *.
      destruct (IH ps d1 None q st1) as (o' & q' & decoded & Hrun & Hlist);
        [congruence|done|done|done|].
      exists o', q', (m :: decoded). simpl. rewrite Hone.
      split; [exact Hrun|]. by rewrite Hlist.
    + destruct q as [|m q].
      * rewrite step_wait by done. by apply (IH ps d None [] st).
      * rewrite step_dequeue by done.
        destruct (IH ps d (Some m) q st) as (o' & q' & decoded & Hrun & Hlist);
          [done..|].
        by exists o', q', decoded.
Qed.

Lemma converts_app cs1 cs2 : converts (cs1 ++ cs2) = converts cs1 ++ converts cs2.
Proof. apply omap_app. Qed.

Lemma calls_fired t st :
  calls (fired t st) = calls st
  ∨ calls (fired t st) = calls st ++ [call_promise (result_of t)].
Proof. unfold fired. destruct (m_isPromiseSet st); [by left|by right]. Qed.

Lemma converts_fired t st : converts (calls (fired t st)) = converts (calls st).
Proof.
  destruct (calls_fired t st) as [->| ->]; [done|].
  by rewrite converts_app, app_nil_r.
Qed.

Lemma converts_decode_one m ds :
  converts (calls (snd (decode_one m ds)))
  = converts (calls (snd ds)) ++ option_list (audio_of m).
Proof.
  unfold decode_one. destruct (audio_of m) as [data|]; simpl.
  - destruct (Convert (fst ds) data) as [dec [e|]]; simpl;
      rewrite ?converts_fired; simpl; by rewrite converts_app.
  - by rewrite app_nil_r.
Qed.

Lemma omap_cons_option_list {A B} (f : A → option B) x l :
  omap f (x :: l) = option_list (f x) ++ omap f l.
Proof. simpl. by destruct (f x). Qed.

Lemma converts_decode_list ms ds :
  converts (calls (snd (decode_list ms ds)))
  = converts (calls (snd ds)) ++ omap audio_of ms.
Proof.
  revert ds. induction ms as [|m ms IH]; intros ds.
  { simpl. by rewrite app_nil_r. }
  change (decode_list (m :: ms) ds) with (decode_list ms (decode_one m ds)).
  by rewrite IH, converts_decode_one, omap_cons_option_list, <- app_assoc.
Qed.

(** When [Convert] never throws, decoding leaves nothing in the log
    but the calls of [Convert], and the completion handle as it was. *)
Lemma decode_list_quiet ms ds :
  (∀ d data, snd (Convert d data) = None) →
  calls (snd (decode_list ms ds))
  = calls (snd ds) ++ (call_Convert <$> omap audio_of ms)
  ∧ m_isPromiseSet (snd (decode_list ms ds)) = m_isPromiseSet (snd ds)
  ∧ m_speakPromise (snd (decode_list ms ds)) = m_speakPromise (snd ds).
Proof.
  intros Hquiet. revert ds. induction ms as [|m ms IH]; intros ds.
  { simpl. by rewrite app_nil_r. }
  change (decode_list (m :: ms) ds) with (decode_list ms (decode_one m ds)).
  destruct (IH (decode_one m ds)) as (-> & -> & ->).
  unfold decode_one. simpl. destruct (audio_of m) as [data|]; [|done].
  pose proof (Hquiet (fst ds) data) as Hq.
  destruct (Convert (fst ds) data) as [dec err]. simpl in Hq. subst err.
  simpl. by rewrite <- app_assoc.
Qed.

(** Any interleaving ends as decoding the messages in order and then
    completing does. *)
Lemma run_fifo ps acts d st :
  m_mp3Queue st = [] → m_mp3QueueDone st = false →
  m_isStopping st = false → coherent st →
  Forall well_formed ps →
  producer_part acts = (act_push <$> ps) ++ [act_done] →
  run (acts ++ replicate (2 * length ps + 1) act_worker)
      (worker d None false) st
  = HRet (worker Mp3Decoder_new None false)
         (with_queue [] false
            (fired Success (snd (decode_list ps (d, st))))).
Proof.
  intros Hq Hd Hstop Hco Hwf Hpart.
  destruct (producer_part_split acts ps Hpart) as (acts1 & k & -> & Hpart1).
  rewrite <- (with_queue_id st) at 1. rewrite Hq, Hd.
  destruct (run_filling acts1 ps d None [] st Hstop Hco Hpart1 Hwf)
    as (o' & q' & decoded & Hrun & Hlist).
  simpl in Hlist.
  rewrite <- app_assoc, run_app. cbv [mbind M_mbind M_bind]. rewrite Hrun.
  simpl. cbv [mbind M_mbind M_bind]. simpl.
  rewrite <- replicate_add.
  destruct (decode_list_frame _ Convert decoded (d, st) Hco) as (Hco' & Hstop' & _).
  destruct (decode_list decoded (d, st)) as [d1 st1] eqn:Hdec. simpl in *.
  change (set_mp3QueueDone true (with_queue q' false st1))
    with (with_queue q' true st1).
  rewrite run_drain; [|congruence|done| |].
  - by rewrite <- Hlist, (decode_list_app _ Convert decoded), Hdec.
  - rewrite <- Hlist in Hwf. by apply Forall_app in Hwf as [_ ?].
  - rewrite <- Hlist, !length_app. lia.
Qed.
End PipelineOrder.

(** C9. Messages enqueued in the order [ps], then the mark that no more
    audio comes, and no stop: however the worker's steps fall between
    these, the worker hands the audio of the messages to the decoder in
    that order and then, the queue being empty, calls [SpeakComplete] and
    clears the mark. When [Convert] never throws and the completion handle
    was unresolved, the calls made are exactly the calls of [Convert], in
    order, followed by the [set_value] of the promise. *)
Theorem C9_pipeline_fifo_then_complete
    (Decoder : Type) (Mp3Decoder_new : Decoder)
    (Convert : Decoder → string_view → Decoder * option exn)
    (ps : list string_view) (acts : list action)
    (w : Mp3Worker Decoder) (st : SpeechRestAPI) :
  m_mp3Queue st = [] → m_mp3QueueDone st = false →
  m_isStopping st = false → coherent st →
  msg Decoder w = None → returned Decoder w = false →
  Forall well_formed ps →
  producer_part acts = (act_push <$> ps) ++ [act_done] →
  ∃ w' st',
    run Decoder Mp3Decoder_new Convert
      (acts ++ replicate (2 * length ps + 1) act_worker) w st
    = HRet w' st'
    ∧ converts (calls st') = converts (calls st) ++ omap audio_of ps
    ∧ m_mp3Queue st' = [] ∧ m_mp3QueueDone st' = false
    ∧ msg Decoder w' = None
    ∧ m_isPromiseSet st' = true
    ∧ (m_isPromiseSet st = false →
       (∀ d data, snd (Convert d data) = None) →
       calls st'
       = calls st ++ (call_Convert <$> omap audio_of ps)
         ++ [call_promise speak_value]
       ∧ m_speakPromise st' = Some speak_value).
Proof.
  intros Hq Hd Hstop Hco Hmsg Hret Hwf Hpart.
  destruct w as [d o r]. simpl in Hmsg, Hret. subst o r.
  eexists _, _. split.
  { by apply run_fifo. }
  set (ds := decode_list Decoder Convert ps (d, st)).
  split_and!; try done.
  - simpl. rewrite converts_fired. unfold ds.
    by rewrite converts_decode_list.
  - simpl. unfold fired. by destruct (m_isPromiseSet (snd ds)) eqn:Hflag.
  - intros Hflag Hquiet.
    destruct (decode_list_quiet Decoder Convert ps (d, st) Hquiet)
      as (Hcalls & Hflag' & Hprom').
    fold ds in Hcalls, Hflag', Hprom'. simpl in *.
    unfold fired. rewrite Hflag', Hflag. simpl.
    by rewrite Hcalls, <- app_assoc.
Qed.

Lemma C9_pipeline_fifo_then_complete_witness :
  m_mp3Queue fresh = [] ∧ m_mp3QueueDone fresh = false
  ∧ m_isStopping fresh = false ∧ coherent fresh
  ∧ Forall well_formed [p1; p2; p3]
  ∧ ∃ w' st',
      run (list string_view) [] recording_Convert
        ([act_push p1; act_worker; act_push p2; act_push p3; act_worker;
          act_worker; act_done] ++ replicate 7 act_worker)
        (idle_worker []) fresh
      = HRet w' st'
      ∧ calls st' = [call_Convert [1]; call_Convert [2]; call_Convert [3];
                     call_promise speak_value].
Proof.
  assert (coherent fresh) as Hco by done.
  assert (Forall well_formed [p1; p2; p3]) as Hwf
    by (repeat constructor; by vm_compute).
  split_and!; try done.
  destruct (C9_pipeline_fifo_then_complete (list string_view) []
              recording_Convert [p1; p2; p3]
              [act_push p1; act_worker; act_push p2; act_push p3; act_worker;
               act_worker; act_done]
              (idle_worker []) fresh eq_refl eq_refl eq_refl Hco eq_refl
              eq_refl Hwf eq_refl)
    as (w' & st' & Hrun & _ & _ & _ & _ & _ & Hexact).
  exists w', st'. split; [exact Hrun|].
  by destruct (Hexact eq_refl (λ _ _, eq_refl)) as [-> _].
Defined.

(** ** What [Stop] leaves for the decoder *)

Lemma mp3data_of_cases m :
  (∃ o, mp3data_of m = Ret o) ∨ mp3data_of m = Undefined.
Proof.
  unfold mp3data_of, sv_remove_prefix.
  destruct (sv_size m <? 2); [by right|]. rewrite outcome_bind_Ret.
  destruct (_ =? npos); [left; by eexists|].
  destruct (_ <? _); [by right|left; by eexists].
Qed.

Section StopFacts.
Variable Decoder : Type.
Variable Mp3Decoder_new : Decoder.
Variable Convert : Decoder → string_view → Decoder * option exn.

Local Abbreviation run := (run Decoder Mp3Decoder_new Convert).
Local Abbreviation act := (act Decoder Mp3Decoder_new Convert).
Local Abbreviation pending :=
  (λ (w : Mp3Worker Decoder) (st : SpeechRestAPI),
     omap audio_of (in_flight w ++ m_mp3Queue st)).

(** One action: what it adds to the calls of [Convert], together with
    what is then still waiting, was waiting before or has just been
    pushed. *)
Lemma act_converts a w st w' st' :
  coherent st → act a w st = HRet w' st' →
  coherent st'
  ∧ ∃ new, calls st' = calls st ++ new
      ∧ sublist (converts new ++ pending w' st')
                (pending w st ++ omap audio_of (pushed [a])).
Proof.
  intros Hco. destruct a as [m| | |]; simpl;
    cbv [mbind M_mbind M_bind Mp3QueuePush Mp3QueueDone Stop modify gets
         reset_connection mret M_mret].
  - intros [= <- <-]. split; [done|]. exists []. simpl.
    rewrite app_nil_r. unfold in_flight, pushed. simpl.
    rewrite app_assoc, !omap_app. simpl. done.
  - intros [= <- <-]. split; [done|]. exists []. simpl.
    by rewrite ?app_nil_r.
  - destruct (m_connection st) as [hdl|]; simpl; intros [= <- <-];
      (split; [done|]); [exists [call_close hdl]|exists []];
      (split; [by rewrite ?app_nil_r|]); simpl;
      rewrite ?app_nil_r, omap_app; by apply sublist_inserts_r.
  - unfold Mp3Thread_step. destruct (returned Decoder w) eqn:Hret.
    { intros [= <- <-]. split; [done|]. exists []. simpl.
      by rewrite ?app_nil_r. }
    unfold in_flight. destruct (msg Decoder w) as [m|] eqn:Hmsg.
    + destruct (mp3data_of_cases m) as [[o Ho] | Hu];
        [rewrite (Mp3Thread_unlocked_audio _ _ _ _ _ _ Ho)
        |unfold Mp3Thread_unlocked; cbv [mbind M_mbind M_bind lift];
         by rewrite Hu].
      destruct (audio_of m) as [data|] eqn:Haudio; simpl.
      * cbv [mbind M_mbind M_bind modify].
        destruct (Convert _ data) as [dec [e|]]; simpl.
        -- cbv [try_catch throw mbind M_mbind M_bind].
           change (SpeakError e) with (fire (Failure e)).
           rewrite fire_coherent by done. intros [= <- <-].
           split; [by apply fired_coherent|].
           destruct (calls_fired (Failure e) (log_call (call_Convert data) st))
             as [Hc|Hc].
           ++ exists [call_Convert data]. rewrite Hc. split; [done|].
              simpl. rewrite Haudio, ?app_nil_r. unfold fired. simpl.
              by destruct (m_isPromiseSet st).
           ++ exists [call_Convert data; call_promise (speak_exception e)].
              rewrite Hc. simpl. rewrite <- app_assoc. split; [done|].
              rewrite Haudio, ?app_nil_r. unfold fired. simpl.
              by destruct (m_isPromiseSet st).
        -- intros [= <- <-]. split; [done|].
           exists [call_Convert data]. split; [done|]. simpl.
           by rewrite Haudio, ?app_nil_r.
      * intros [= <- <-]. split; [done|]. exists []. simpl.
        by rewrite Haudio, ?app_nil_r.
    + unfold Mp3Thread_locked.
      cbv [catching mbind M_mbind M_bind gets mret M_mret modify].
      destruct (m_mp3Queue st) as [|front rest] eqn:Hq;
        destruct (m_isStopping st) eqn:Hstop; simpl.
      * intros [= <- <-]. split; [done|]. exists []. simpl.
        by rewrite ?Hq, ?app_nil_r.
      * destruct (m_mp3QueueDone st) eqn:Hdone.
        -- change SpeakComplete with (fire Success).
           rewrite fire_coherent by done. intros [= <- <-].
           split; [by apply fired_coherent|].
           assert (m_mp3Queue (fired Success st) = []) as Hq'.
           { unfold fired. by destruct (m_isPromiseSet st). }
           destruct (calls_fired Success st) as [Hc|Hc].
           ++ exists []. simpl. rewrite Hc, Hq', ?app_nil_r. done.
           ++ exists [call_promise speak_value]. simpl.
              rewrite Hc, Hq'. done.
        -- intros [= <- <-]. split; [done|]. exists []. simpl.
           by rewrite ?Hmsg, ?Hq, ?app_nil_r.
      * intros [= <- <-]. split; [done|]. exists []. simpl.
        by rewrite ?Hq, ?app_nil_r.
      * intros [= <- <-]. split; [done|]. exists []. simpl.
        by rewrite ?Hq, ?app_nil_r.
Qed.

Lemma pushed_cons a acts : pushed (a :: acts) = pushed [a] ++ pushed acts.
Proof. unfold pushed. simpl. by destruct a. Qed.

Lemma run_converts acts :
  ∀ w st w' st',
    coherent st → run acts w st = HRet w' st' →
    ∃ new, calls st' = calls st ++ new
      ∧ sublist (converts new ++ pending w' st')
                (pending w st ++ omap audio_of (pushed acts)).
Proof.
  induction acts as [|a acts IH]; intros w st w' st' Hco Hrun.
  { injection Hrun as <- <-. exists []. by rewrite !app_nil_r. }
  simpl in Hrun. cbv [mbind M_mbind M_bind] in Hrun.
  destruct (act a w st) as [w1 st1| | |] eqn:Hact; try done.
  destruct (act_converts a w st w1 st1 Hco Hact) as (Hco1 & new1 & Hc1 & Hs1).
  destruct (IH w1 st1 w' st' Hco1 Hrun) as (new2 & Hc2 & Hs2).
  exists (new1 ++ new2). split; [by rewrite Hc2, Hc1, app_assoc|].
  rewrite converts_app, <- app_assoc.
  trans (converts new1
         ++ (pending w1 st1 ++ omap audio_of (pushed acts))).
  { by apply sublist_app. }
  rewrite pushed_cons, (omap_app _ (pushed [a])), !app_assoc.
  by apply sublist_app.
Qed.
End StopFacts.

(** C8. [Stop] returns with the queue empty and the mark set. Whatever
    the threads do afterwards, the only chunks the decoder is handed are
    the audio of the message the worker had already taken from the queue,
    if any, and of messages pushed after the stop: nothing of what was
    waiting in the queue. *)
Theorem C8_stop_discards_queue
    (Decoder : Type) (Mp3Decoder_new : Decoder)
    (Convert : Decoder → string_view → Decoder * option exn)
    (w : Mp3Worker Decoder) (st : SpeechRestAPI) :
  coherent st →
  ∃ st1, Stop st = HRet () st1
    ∧ m_mp3Queue st1 = [] ∧ m_mp3QueueDone st1 = true
    ∧ ∀ acts w' st',
        run Decoder Mp3Decoder_new Convert acts w st1 = HRet w' st' →
        ∃ new, calls st' = calls st1 ++ new
          ∧ sublist (converts new) (omap audio_of (in_flight w ++ pushed acts)).
Proof.
  intros Hco.
  assert (∃ st1, Stop st = HRet () st1 ∧ m_mp3Queue st1 = []
                 ∧ m_mp3QueueDone st1 = true ∧ coherent st1)
    as (st1 & HStop & Hq & Hd & Hco1).
  { unfold Stop. cbv [mbind M_mbind M_bind gets modify reset_connection
                      mret M_mret].
    destruct (m_connection st); eexists; split_and!; done. }
  exists st1. split_and!; try done.
  intros acts w' st' Hrun.
  destruct (run_converts _ _ _ acts w st1 w' st' Hco1 Hrun) as (new & Hc & Hs).
  exists new. split; [done|].
  rewrite Hq, app_nil_r, <- omap_app in Hs.
  etrans; [|exact Hs]. by apply sublist_inserts_r.
Qed.

Lemma C8_stop_discards_queue_witness :
  coherent two_pending
  ∧ ∃ st1 w' st',
      Stop two_pending = HRet () st1
      ∧ run (list string_view) [] recording_Convert
          [act_worker; act_worker; act_worker] (idle_worker []) st1
        = HRet w' st'
      ∧ converts (drop (length (calls st1)) (calls st')) = [].
Proof.
  assert (coherent two_pending) as Hco by done.
  split; [done|].
  destruct (C8_stop_discards_queue (list string_view) [] recording_Convert
              (idle_worker []) two_pending Hco)
    as (st1 & HStop & _ & _ & Hafter).
  destruct (run (list string_view) [] recording_Convert
              [act_worker; act_worker; act_worker] (idle_worker []) st1)
    as [w' st'| | |] eqn:Hrun;
    [|vm_compute in HStop; injection HStop as <-; vm_compute in Hrun; done..].
  exists st1, w', st'. split_and!; [done|done|].
  destruct (Hafter _ _ _ Hrun) as (new & -> & Hsub).
  rewrite drop_app_length. by apply sublist_nil_r in Hsub.
Defined.

(** ** Binary messages *)

Lemma audio_of_absent raw :
  well_formed raw →
  (∀ j : nat, starts_with audio_marker (drop j (drop 2 raw)) = false) →
  audio_of raw = None.
Proof.
  intros [Hfit Hlen] Habs. unfold audio_of, mp3data_of, sv_remove_prefix.
  destruct (N.ltb_spec (sv_size raw) 2); [lia|]. rewrite outcome_bind_Ret.
  change (N.to_nat 2) with 2%nat.
  by rewrite sv_find_absent by (intros; apply Habs).
Qed.

Lemma audio_of_present raw pre data :
  well_formed raw →
  drop 2 raw = pre ++ audio_marker ++ data →
  (∀ j : nat, (j < length pre)%nat →
              starts_with audio_marker (drop j (drop 2 raw)) = false) →
  audio_of raw = Some (dword_buffer data).
Proof.
  intros [Hfit Hlen] Hsplit Hfirst.
  pose proof (fits_lt_size_max _ Hfit) as Hmax.
  assert (fits (drop 2 raw)) as Hfit'.
  { unfold fits, sv_size in *. rewrite length_drop. lia. }
  assert (length (drop 2 raw) = (length pre + 12 + length data)%nat) as Hlen'.
  { rewrite Hsplit, !length_app. change (length audio_marker) with 12%nat. lia. }
  assert (starts_with audio_marker (drop (length pre) (drop 2 raw)) = true)
    as Hocc.
  { rewrite Hsplit, drop_app_length. apply starts_with_app. by exists data. }
  unfold audio_of, mp3data_of, sv_remove_prefix.
  destruct (N.ltb_spec (sv_size raw) 2); [lia|]. rewrite outcome_bind_Ret.
  change (N.to_nat 2) with 2%nat.
  destruct (N.eqb_spec (sv_find (drop 2 raw) audio_marker 0) npos) as [Hn|Hn].
  { rewrite (sv_find_npos _ _ _ (length pre) Hfit' Hn) in Hocc;
      [done|lia|lia]. }
  destruct (sv_find_found _ _ _ _ eq_refl Hn) as (k & Hk & _ & _ & Hk' & Hmin).
  assert (k = length pre) as ->.
  { destruct (Nat.lt_trichotomy k (length pre)) as [Hlt|[?|Hgt]]; [|done|].
    - by rewrite (Hfirst k Hlt) in Hk'.
    - rewrite (Hmin (length pre)) in Hocc; [done|lia|done]. }
  pose proof (length_drop raw 2) as Hdrop.
  rewrite Hk. unfold sv_size in *. rewrite size_add_small by lia.
  destruct (N.ltb_spec (N.of_nat (length (drop 2 raw)))
              (N.of_nat (length pre) + 12)); [lia|].
  f_equal. rewrite Hsplit.
  replace (N.to_nat (N.of_nat (length pre) + 12))
    with (length pre + length audio_marker)%nat
    by (change (length audio_marker) with 12%nat; lia).
  by rewrite drop_app_add, drop_app_length.
Qed.

Lemma step_decode_any
    (Decoder : Type) (Mp3Decoder_new : Decoder)
    (Convert : Decoder → string_view → Decoder * option exn) d m st :
  well_formed m → coherent st →
  Mp3Thread_step Decoder Mp3Decoder_new Convert
    (mkWorker Decoder d (Some m) false) st
  = HRet (mkWorker Decoder (fst (decode_one Decoder Convert m (d, st))) None false)
         (snd (decode_one Decoder Convert m (d, st))).
Proof.
  intros Hwf Hco. rewrite <- (with_queue_id st) at 1.
  rewrite step_decode by done.
  destruct (decode_one_frame Decoder Convert m (d, st) Hco)
    as (_ & _ & Hq & Hd). simpl in Hq, Hd.
  by rewrite <- Hq, <- Hd, with_queue_id.
Qed.

(** ** The session controller *)

Lemma cursors_le_refl st : cursors_le st st.
Proof. unfold cursors_le. split_and!; [done|lia|lia]. Qed.

Lemma cursors_le_trans st1 st2 st3 :
  cursors_le st1 st2 → cursors_le st2 st3 → cursors_le st1 st3.
Proof.
  unfold cursors_le. intros (? & ? & ?) (? & ? & ?).
  split_and!; [congruence|lia|lia].
Qed.

Lemma advances_refl st : advances st st.
Proof. split; [apply cursors_le_refl|done]. Qed.

Lemma advances_trans st1 st2 st3 :
  advances st1 st2 → advances st2 st3 → advances st1 st3.
Proof.
  intros [H12 ?] [H23 ?]. split; [by eapply cursors_le_trans|].
  destruct_and!. split_and!; congruence.
Qed.

Lemma advances_cursors_le st st' : advances st st' → cursors_le st st'.
Proof. by intros [? _]. Qed.

Lemma advances_log_call st0 st c : advances st0 st → advances st0 (log_call c st).
Proof.
  intros H. eapply advances_trans; [exact H|].
  split; [|done]. unfold cursors_le. simpl. split_and!; done || lia.
Qed.

Lemma advances_cursor_set st0 st c v :
  advances st0 st → cursor_get c st ≤ v → advances st0 (cursor_set c v st).
Proof.
  intros H Hv. eapply advances_trans; [exact H|].
  destruct c; simpl in *; (split; [|done]);
    unfold cursors_le; simpl; split_and!; done || lia.
Qed.

Lemma hres_sat_weaken {A} (P P' Q Q' : SpeechRestAPI → Prop) (r : hres A) :
  (∀ st, P st → P' st) → (∀ st, Q st → Q' st) →
  hres_sat P Q r → hres_sat P' Q' r.
Proof. intros HP HQ. destruct r; simpl; auto. Qed.

Lemma sat_bind {A B} (P Q : SpeechRestAPI → Prop) (m : M A) (f : A → M B) st :
  hres_sat P Q (m st) →
  (∀ a st', P st' → hres_sat P Q (f a st')) →
  hres_sat P Q ((m ≫= f) st).
Proof.
  intros Hm Hf. cbv [mbind M_mbind M_bind].
  destruct (m st); simpl in *; auto.
Qed.

Lemma sat_lift {A} (P : SpeechRestAPI → Prop) (o : outcome A) st :
  returns_or_throws o → P st → hres_sat P P (lift o st).
Proof. by destruct o. Qed.

Lemma sat_gets {A} (P Q : SpeechRestAPI → Prop) (f : SpeechRestAPI → A) st :
  P st → hres_sat P Q (gets f st).
Proof. done. Qed.

Lemma sat_modify (P Q : SpeechRestAPI → Prop) g st :
  P (g st) → hres_sat P Q (modify g st).
Proof. done. Qed.

Lemma sat_mret {A} (P Q : SpeechRestAPI → Prop) (a : A) st :
  P st → hres_sat P Q ((mret a : M A) st).
Proof. done. Qed.

Lemma pure_bind {A B} (o : outcome A) (f : A → outcome B) :
  returns_or_throws o → (∀ a, returns_or_throws (f a)) →
  returns_or_throws (o ≫= f).
Proof. destruct o; simpl; auto. Qed.

Lemma pure_json_at j key : returns_or_throws (json_at j key).
Proof. destruct j; simpl; try done. by destruct (members_lookup _ _). Qed.

Lemma pure_json_get_string j : returns_or_throws (json_get_string j).
Proof. by destruct j. Qed.

Lemma pure_json_get_unsigned bits j : returns_or_throws (json_get_unsigned bits j).
Proof. destruct j; simpl; try done. by destruct (bits =? 64). Qed.

Lemma pure_sv_substr s pos n : returns_or_throws (sv_substr s pos n).
Proof. unfold sv_substr. by destruct (_ <? _). Qed.

Ltac pure_tac :=
  repeat first
    [ apply pure_json_at | apply pure_json_get_string
    | apply pure_json_get_unsigned | apply pure_sv_substr
    | apply pure_bind; [|intros ?] ].

Lemma FindWord_returns (UTF8ToWString : string_view → string_view)
    ssml utf8Word lastPos :
  fits ssml →
  ∃ r, FindWord UTF8ToWString ssml utf8Word lastPos = Ret r
       ∧ lastPos ≤ cursor r.
Proof.
  intros Hfit. unfold FindWord, FindWord_wide.
  destruct (FindWord_loop_total ssml (XmlEscape (UTF8ToWString utf8Word))
              lastPos Hfit (S (length ssml)) lastPos 0%nat)
    as (r & Hr & _ & Hres).
  { lia. } { unfold sv_size. lia. }
  exists r. split; [done|]. destruct Hres as [[_ ->]|(_ & ? & -> & _)]; lia.
Qed.

Section SessionFacts.
Variable UTF8ToWString : string_view → string_view.
Variable WStringToUTF8 : string_view → string_view.
Variable json_parse : string_view → option json.
Variable json_dump : json → string_view.
Variable args_left_to_right : bool.

Local Abbreviation locate' := (locate UTF8ToWString).
Local Abbreviation boundary_args' :=
  (boundary_args UTF8ToWString args_left_to_right).
Local Abbreviation OnSynthEvent' :=
  (OnSynthEvent UTF8ToWString args_left_to_right).
Local Abbreviation OnMessage' :=
  (OnMessage UTF8ToWString json_parse args_left_to_right).
Local Abbreviation handle' :=
  (handle UTF8ToWString WStringToUTF8 json_parse json_dump args_left_to_right).
Local Abbreviation AsioThread_dispatch' :=
  (AsioThread_dispatch UTF8ToWString WStringToUTF8 json_parse json_dump
     args_left_to_right).
Local Abbreviation AsioThread' :=
  (AsioThread UTF8ToWString WStringToUTF8 json_parse json_dump
     args_left_to_right).

Ltac sat_step :=
  match goal with
  | |- hres_sat _ _ (mbind _ _ _) => apply sat_bind; [|intros ? ? ?]
  | |- hres_sat _ _ (lift _ _) => apply sat_lift; [pure_tac|assumption]
  | |- hres_sat _ _ (gets _ _) => apply sat_gets; assumption
  | |- hres_sat _ _ (modify (log_call _) _) =>
      apply sat_modify; apply advances_log_call; assumption
  | |- hres_sat _ _ (mret _ _) => apply sat_mret; assumption
  | |- hres_sat _ _ (when ?b _ _) => destruct b; unfold when
  | |- hres_sat _ _ ((if ?b then _ else _) _) => destruct b
  | |- hres_sat _ _ ((let '(_, _) := ?x in _) _) => destruct x
  end.

Lemma locate_advances st0 info c st :
  fits (m_ssml st0) → advances st0 st →
  hres_sat (advances st0) (advances st0) (locate' info c st).
Proof.
  intros Hfit Hst. unfold locate.
  apply sat_bind; [sat_step|]. intros text st1 H1.
  cbv [mbind M_mbind M_bind gets].
  assert (fits (m_ssml st1)) as Hfit1.
  { destruct H1 as [[-> _] _]. done. }
  destruct (FindWord_returns UTF8ToWString (m_ssml st1) text
              (cursor_get c st1) Hfit1) as (r & -> & Hle).
  simpl. by apply advances_cursor_set.
Qed.

Lemma boundary_args_advances st0 info c st :
  fits (m_ssml st0) → advances st0 st →
  hres_sat (advances st0) (advances st0) (boundary_args' info c st).
Proof.
  intros Hfit Hst. unfold boundary_args, length_arg.
  destruct args_left_to_right.
  - apply sat_bind; [by apply locate_advances|]. intros pos st1 H1.
    repeat sat_step.
  - apply sat_bind; [sat_step|]. intros len st1 H1.
    apply sat_bind; [by apply locate_advances|]. intros pos st2 H2.
    repeat sat_step.
Qed.

Lemma OnSynthEvent_advances st0 metadata st :
  fits (m_ssml st0) → advances st0 st →
  hres_sat (advances st0) (advances st0) (OnSynthEvent' metadata st).
Proof.
  intros Hfit Hst. unfold OnSynthEvent.
  repeat (sat_step; try (by apply boundary_args_advances)).
Qed.

Lemma for_each_OnSynthEvent_advances st0 events st :
  fits (m_ssml st0) → advances st0 st →
  hres_sat (advances st0) (advances st0) (for_each OnSynthEvent' events st).
Proof.
  intros Hfit. revert st. induction events as [|ev events IH]; intros st Hst.
  { done. }
  simpl. apply sat_bind; [by apply OnSynthEvent_advances|].
  intros _ st1 H1. by apply IH.
Qed.
End SessionFacts.

Lemma sat_bind_to {A B} (P P' Q : SpeechRestAPI → Prop)
    (m : M A) (f : A → M B) st :
  hres_sat P Q (m st) →
  (∀ a st', P st' → hres_sat P' Q (f a st')) →
  hres_sat P' Q ((m ≫= f) st).
Proof.
  intros Hm Hf. cbv [mbind M_mbind M_bind].
  destruct (m st); simpl in *; auto.
Qed.

Lemma fire_cases t st :
  fire t st = HRet () st
  ∨ fire t st = HRet () (resolved t st)
  ∨ fire t st = HThrow future_error (set_isPromiseSet true st).
Proof.
  destruct (m_isPromiseSet st) eqn:Hflag.
  - left. by apply fire_resolved.
  - destruct (m_speakPromise st) eqn:Hprom.
    + right. right.
      destruct t; unfold fire, SpeakComplete, SpeakError;
        cbv [mbind M_mbind M_bind test_and_set when promise_set];
        rewrite Hflag; simpl; by rewrite Hprom.
    + right. left. by apply fire_unresolved.
Qed.

Lemma fire_cursors_le st0 t st :
  cursors_le st0 st →
  hres_sat (cursors_le st0) (cursors_le st0) (fire t st).
Proof.
  intros H. destruct (fire_cases t st) as [-> | [-> | ->]]; simpl;
    (eapply cursors_le_trans; [exact H|]);
    unfold cursors_le; simpl; split_and!; done || lia.
Qed.

Lemma IsCurrentConnection_current hdl st :
  m_connection st = Some hdl → IsCurrentConnection hdl st = HRet true st.
Proof.
  intros H. unfold IsCurrentConnection, gets. by rewrite bool_decide_eq_true_2.
Qed.

Section MessageFacts.
Variable UTF8ToWString : string_view → string_view.
Variable WStringToUTF8 : string_view → string_view.
Variable json_parse : string_view → option json.
Variable json_dump : json → string_view.
Variable args_left_to_right : bool.

Local Abbreviation OnSynthEvent' :=
  (OnSynthEvent UTF8ToWString args_left_to_right).
Local Abbreviation OnMessage' :=
  (OnMessage UTF8ToWString json_parse args_left_to_right).
Local Abbreviation OnOpen' := (OnOpen WStringToUTF8 json_dump).
Local Abbreviation handle' :=
  (handle UTF8ToWString WStringToUTF8 json_parse json_dump args_left_to_right).
Local Abbreviation AsioThread_dispatch' :=
  (AsioThread_dispatch UTF8ToWString WStringToUTF8 json_parse json_dump
     args_left_to_right).
Local Abbreviation AsioThread' :=
  (AsioThread UTF8ToWString WStringToUTF8 json_parse json_dump
     args_left_to_right).

Lemma OnMessage_binary hdl raw st :
  m_connection st = Some hdl →
  OnMessage' hdl (binary_message raw) st
  = HRet () (set_mp3Queue (m_mp3Queue st ++ [raw]) st).
Proof.
  intros Hcur. unfold OnMessage. cbv [mbind M_mbind M_bind].
  by rewrite IsCurrentConnection_current.
Qed.

(** A message handler returns or throws. When it throws, nothing has
    changed but the cursors and the call log. *)
Lemma OnMessage_sat hdl msg st :
  fits (m_ssml st) →
  hres_sat (cursors_le st) (advances st) (OnMessage' hdl msg st).
Proof.
  intros Hfit. unfold OnMessage.
  cbv [mbind M_mbind M_bind IsCurrentConnection gets].
  destruct (bool_decide _); simpl; [|apply cursors_le_refl].
  destruct msg as [raw|text].
  { unfold cursors_le. simpl. split_and!; done || lia. }
  destruct (_ =? npos); [apply cursors_le_refl|].
  destruct (_ =? npos); [apply cursors_le_refl|].
  fold (@mbind M _). 
  eapply (sat_bind_to (advances st)).
  { apply sat_lift; [pure_tac|apply advances_refl]. }
  intros path st1 H1.
  destruct (bool_decide (path = lit "audio.metadata")).
  - eapply hres_sat_weaken;
      [apply advances_cursors_le|intros ? H; exact H|].
    apply sat_bind.
    { apply sat_lift; [pure_tac|done]. }
    intros body st2 H2. apply sat_bind.
    { apply sat_lift; [by destruct (json_parse body)|done]. }
    intros doc st3 H3. apply sat_bind.
    { apply sat_lift; [pure_tac|done]. }
    intros metadata st4 H4.
    by apply for_each_OnSynthEvent_advances.
  - destruct (bool_decide (path = lit "turn.end")).
    + simpl. apply advances_cursors_le in H1.
      eapply cursors_le_trans; [exact H1|].
      unfold cursors_le. simpl. split_and!; done || lia.
    + by apply advances_cursors_le.
Qed.

Lemma handle_sat ev st :
  fits (m_ssml st) →
  hres_sat (cursors_le st) (cursors_le st) (handle' ev st).
Proof.
  intros Hfit. destruct ev as [hdl s1 s2 r|hdl msg|hdl|hdl ec]; simpl.
  - unfold OnOpen. cbv [mbind M_mbind M_bind IsCurrentConnection gets].
    destruct (bool_decide _); simpl; [|apply cursors_le_refl].
    unfold cursors_le. simpl. split_and!; done || lia.
  - eapply hres_sat_weaken; [intros ? H; exact H|apply advances_cursors_le|].
    by apply OnMessage_sat.
  - unfold OnClose. cbv [mbind M_mbind M_bind IsCurrentConnection gets].
    destruct (bool_decide _); simpl; [|apply cursors_le_refl].
    unfold cursors_le. simpl. split_and!; done || lia.
  - unfold OnFail. cbv [mbind M_mbind M_bind IsCurrentConnection gets].
    destruct (bool_decide _); simpl; [|apply cursors_le_refl].
    destruct ec as [e|]; cbv [try_catch throw]; simpl.
    + change (SpeakError e) with (fire (Failure e)).
      apply fire_cursors_le. unfold cursors_le. simpl.
      split_and!; done || lia.
    + unfold cursors_le. simpl. split_and!; done || lia.
Qed.

Lemma AsioThread_dispatch_sat ev st :
  fits (m_ssml st) →
  hres_sat (cursors_le st) (cursors_le st) (AsioThread_dispatch' ev st).
Proof.
  intros Hfit. unfold AsioThread_dispatch, try_catch.
  pose proof (handle_sat ev st Hfit) as Hh.
  destruct (handle' ev st) as [[] st1|e st1| |]; simpl in *; try done.
  change (SpeakError e) with (fire (Failure e)). by apply fire_cursors_le.
Qed.

Lemma AsioThread_sat evs st0 st :
  fits (m_ssml st0) → cursors_le st0 st →
  hres_sat (cursors_le st0) (cursors_le st0) (AsioThread' evs st).
Proof.
  intros Hfit. unfold AsioThread.
  revert st. induction evs as [|ev evs IH]; intros st Hst; [done|].
  simpl. apply sat_bind; [|intros _ st1 H1; by apply IH].
  assert (fits (m_ssml st)) as Hfit' by (destruct Hst as [-> _]; done).
  eapply hres_sat_weaken; [| |by apply AsioThread_dispatch_sat];
    intros st1 H1; by eapply cursors_le_trans.
Qed.
End MessageFacts.

(** ** Messages that make the handler throw *)

Lemma for_each_throw {A} (f : A → M unit) evs1 bad evs2 :
  ∀ st st1 e st2,
    for_each f evs1 st = HRet () st1 → f bad st1 = HThrow e st2 →
    for_each f (evs1 ++ bad :: evs2) st = HThrow e st2.
Proof.
  induction evs1 as [|ev evs1 IH]; intros st st1 e st2; simpl.
  - intros [= <-] Hbad. cbv [mbind M_mbind M_bind]. by rewrite Hbad.
  - cbv [mbind M_mbind M_bind].
    destruct (f ev st) as [[] st'| | |]; try done. apply IH.
Qed.

Lemma lift_bind_Throw {A B} (o : outcome A) e (k : A → M B) st :
  o = Throw e → (lift o ≫= k) st = HThrow e st.
Proof. by intros ->. Qed.

Lemma lift_bind_Ret {A B} (o : outcome A) a (k : A → M B) st :
  o = Ret a → (lift o ≫= k) st = k a st.
Proof. by intros ->. Qed.

Section MalformedFacts.
Variable UTF8ToWString : string_view → string_view.
Variable json_parse : string_view → option json.
Variable args_left_to_right : bool.

Local Abbreviation OnSynthEvent' :=
  (OnSynthEvent UTF8ToWString args_left_to_right).
Local Abbreviation OnMessage' :=
  (OnMessage UTF8ToWString json_parse args_left_to_right).

(** An event without its type, data or offset throws before anything
    is done. *)
Lemma OnSynthEvent_lacks_required bad e st :
  lacks_required bad e → OnSynthEvent' bad st = HThrow e st.
Proof.
  unfold OnSynthEvent.
  intros [Htype|[(type & Htype & Hdata)|(type & data & Htype & Hdata & Hoff)]].
  - by rewrite (lift_bind_Throw _ e).
  - rewrite (lift_bind_Ret _ type) by done.
    by rewrite (lift_bind_Throw _ e).
  - rewrite (lift_bind_Ret _ type) by done.
    rewrite (lift_bind_Ret _ data) by done.
    by rewrite (lift_bind_Throw _ e).
Qed.

(** Up to the call of the callback, which comes last, [OnSynthEvent]
    leaves the log of calls as it is: when it throws, it has called
    nothing. *)
Lemma boundary_args_calls st0 info c st :
  fits (m_ssml st0) →
  calls st = calls st0 ∧ m_ssml st = m_ssml st0 →
  hres_sat (λ st', calls st' = calls st0 ∧ m_ssml st' = m_ssml st0)
           (λ st', calls st' = calls st0 ∧ m_ssml st' = m_ssml st0)
           (boundary_args UTF8ToWString args_left_to_right info c st).
Proof.
  intros Hfit Hst.
  assert (∀ st1, calls st1 = calls st0 ∧ m_ssml st1 = m_ssml st0 →
            hres_sat (λ st', calls st' = calls st0 ∧ m_ssml st' = m_ssml st0)
              (λ st', calls st' = calls st0 ∧ m_ssml st' = m_ssml st0)
              (locate UTF8ToWString info c st1)) as Hlocate.
  { intros st1 H1. unfold locate.
    apply sat_bind; [apply sat_lift; [pure_tac|done]|]. intros text st2 H2.
    cbv [mbind M_mbind M_bind gets].
    destruct (FindWord_returns UTF8ToWString (m_ssml st2) text
                (cursor_get c st2)) as (r & -> & _).
    { destruct H2 as [_ ->]. done. }
    simpl. by destruct c. }
  unfold boundary_args, length_arg. destruct args_left_to_right.
  - apply sat_bind; [by apply Hlocate|]. intros pos st1 H1.
    apply sat_bind; [apply sat_lift; [pure_tac|done]|]. by intros len st2 H2.
  - apply sat_bind; [apply sat_lift; [pure_tac|done]|]. intros len st1 H1.
    apply sat_bind; [by apply Hlocate|]. by intros pos st2 H2.
Qed.

Lemma OnSynthEvent_throw_calls metadata st e st' :
  fits (m_ssml st) →
  OnSynthEvent' metadata st = HThrow e st' → calls st' = calls st.
Proof.
  intros Hfit Hthrow.
  assert (hres_sat (λ _, True)
            (λ st', calls st' = calls st ∧ m_ssml st' = m_ssml st)
            (OnSynthEvent' metadata st)) as Hsat.
  { unfold OnSynthEvent.
    repeat first
      [ progress (eapply (sat_bind_to
           (λ st', calls st' = calls st ∧ m_ssml st' = m_ssml st));
           [first [ apply sat_lift; [pure_tac|done]
                  | by apply sat_gets
                  | by apply boundary_args_calls ]
           |intros ? ? ?])
      | match goal with
        | |- hres_sat _ _ (when ?b _ _) => destruct b; unfold when
        | |- hres_sat _ _ ((if ?b then _ else _) _) => destruct b
        | |- hres_sat _ _ ((let '(_, _) := ?x in _) _) => destruct x
        end
      | done ]. }
  rewrite Hthrow in Hsat. by destruct Hsat.
Qed.

(** A message with the path [audio.metadata] is handled by parsing its
    body and dispatching the events of its [Metadata]. *)
Lemma OnMessage_metadata hdl text body st :
  m_connection st = Some hdl → metadata_message_body text body →
  OnMessage' hdl (text_message text) st
  = (doc ← lift (match json_parse body with
                 | Some j => Ret j
                 | None => Throw parse_error
                 end);
     metadata ← lift (json_at doc "Metadata");
     for_each OnSynthEvent' (json_items metadata)) st.
Proof.
  intros Hcur (Hp & Hpe & Hpath & Hbody).
  unfold OnMessage. cbv [mbind M_mbind M_bind].
  rewrite IsCurrentConnection_current by done.
  destruct (N.eqb_spec (sv_find text (lit "Path:") 0) npos); [done|].
  destruct (N.eqb_spec (sv_find text (crlf ++ crlf)
              (size_add (sv_find text (lit "Path:") 0) 5)) npos); [done|].
  rewrite Hpath. cbv [lift]. rewrite bool_decide_eq_true_2 by done.
  by rewrite Hbody.
Qed.
End MalformedFacts.

(** C3, as the code has it. A text message without the [Path:] marker
    or without the blank line is dropped: the state is left as it was.
    When the handler throws, nothing has changed but the cursors and the
    log of callbacks already made; the event loop catches the exception
    and hands it to [SpeakError]; the connection stays, and the completion
    handle, if it was unresolved, is resolved with that exception. The
    handler does throw on a message with the path [audio.metadata] whose
    body is not JSON or has no [Metadata], both before any event is
    dispatched, and on one whose [Metadata] holds an event on which
    [OnSynthEvent] throws, as it does on an event without [Type], [Data]
    or [Offset]: then the events in front of it have been dispatched,
    and no callback is called for it or for the events behind it. *)
Theorem C3_malformed_text_message
    (UTF8ToWString WStringToUTF8 : string_view → string_view)
    (json_parse : string_view → option json) (json_dump : json → string_view)
    (args_left_to_right : bool) st hdl text :
  fits (m_ssml st) → coherent st → m_connection st = Some hdl →
  (sv_find text (lit "Path:") 0 = npos
   ∨ sv_find text (crlf ++ crlf) (size_add (sv_find text (lit "Path:") 0) 5)
     = npos →
   AsioThread_dispatch UTF8ToWString WStringToUTF8 json_parse json_dump
     args_left_to_right (ev_message hdl (text_message text)) st
   = HRet () st)
  ∧ (∀ e st1,
       OnMessage UTF8ToWString json_parse args_left_to_right hdl
         (text_message text) st = HThrow e st1 →
       advances st st1
       ∧ AsioThread_dispatch UTF8ToWString WStringToUTF8 json_parse json_dump
           args_left_to_right (ev_message hdl (text_message text)) st
         = HRet () (fired (Failure e) st1)
       ∧ m_connection (fired (Failure e) st1) = Some hdl
       ∧ (m_isPromiseSet st = false →
          m_speakPromise (fired (Failure e) st1) = Some (speak_exception e)))
  ∧ (∀ pathEnd body,
       sv_find text (lit "Path:") 0 ≠ npos →
       pathEnd = sv_find text (crlf ++ crlf)
                   (size_add (sv_find text (lit "Path:") 0) 5) →
       pathEnd ≠ npos →
       sv_substr text (size_add (sv_find text (lit "Path:") 0) 5)
         (size_sub pathEnd (size_add (sv_find text (lit "Path:") 0) 5))
       = Ret (lit "audio.metadata") →
       sv_substr_from text (size_add pathEnd 4) = Ret body →
       json_parse body = None →
       OnMessage UTF8ToWString json_parse args_left_to_right hdl
         (text_message text) st = HThrow parse_error st)
  ∧ (∀ body doc e,
       metadata_message_body text body →
       json_parse body = Some doc →
       json_at doc "Metadata" = Throw e →
       OnMessage UTF8ToWString json_parse args_left_to_right hdl
         (text_message text) st = HThrow e st)
  ∧ (∀ body doc metadata evs1 bad evs2 st1 e st2,
       metadata_message_body text body →
       json_parse body = Some doc →
       json_at doc "Metadata" = Ret metadata →
       json_items metadata = evs1 ++ bad :: evs2 →
       for_each (OnSynthEvent UTF8ToWString args_left_to_right) evs1 st
       = HRet () st1 →
       OnSynthEvent UTF8ToWString args_left_to_right bad st1 = HThrow e st2 →
       OnMessage UTF8ToWString json_parse args_left_to_right hdl
         (text_message text) st = HThrow e st2
       ∧ calls st2 = calls st1)
  ∧ (∀ bad e st1,
       lacks_required bad e →
       OnSynthEvent UTF8ToWString args_left_to_right bad st1 = HThrow e st1).
Proof.
  intros Hfit Hco Hcur. split_and!.
  - intros Hmissing. unfold AsioThread_dispatch, try_catch, handle, OnMessage.
    cbv [mbind M_mbind M_bind]. rewrite IsCurrentConnection_current by done.
    destruct (N.eqb_spec (sv_find text (lit "Path:") 0) npos) as [|Hp]; [done|].
    destruct Hmissing as [|Hmissing]; [done|]. by rewrite Hmissing.
  - intros e st1 Hthrow.
    pose proof (OnMessage_sat UTF8ToWString json_parse args_left_to_right
                  hdl (text_message text) st Hfit) as Hsat.
    rewrite Hthrow in Hsat. simpl in Hsat.
    pose proof Hsat as (_ & Hcon & Hflag & Hprom & _).
    assert (coherent st1) as Hco1.
    { unfold coherent. rewrite Hflag, Hprom. exact Hco. }
    split_and!; [done| | |].
    + unfold AsioThread_dispatch, try_catch, handle. rewrite Hthrow.
      change (SpeakError e) with (fire (Failure e)). by apply fire_coherent.
    + unfold fired. destruct (m_isPromiseSet st1); simpl; congruence.
    + intros Hunset. unfold fired. by rewrite Hflag, Hunset.
  - intros pathEnd body Hp -> Hpe Hpath Hbody Hparse.
    unfold OnMessage. cbv [mbind M_mbind M_bind].
    rewrite IsCurrentConnection_current by done.
    destruct (N.eqb_spec (sv_find text (lit "Path:") 0) npos); [done|].
    destruct (N.eqb_spec (sv_find text (crlf ++ crlf)
                (size_add (sv_find text (lit "Path:") 0) 5)) npos); [done|].
    rewrite Hpath. cbv [lift]. rewrite bool_decide_eq_true_2 by done.
    rewrite Hbody. by rewrite Hparse.
  - intros body doc e Hmsg Hparse Hmeta.
    rewrite (OnMessage_metadata _ _ _ _ _ body) by done.
    cbv [mbind M_mbind M_bind lift]. by rewrite Hparse, Hmeta.
  - intros body doc metadata evs1 bad evs2 st1 e st2
      Hmsg Hparse Hmeta Hitems Hevs1 Hbad.
    split.
    + rewrite (OnMessage_metadata _ _ _ _ _ body) by done.
      cbv [mbind M_mbind M_bind lift]. rewrite Hparse, Hmeta, Hitems.
      by eapply for_each_throw.
    + pose proof (for_each_OnSynthEvent_advances UTF8ToWString
                    args_left_to_right st evs1 st Hfit (advances_refl st))
        as Hadv.
      rewrite Hevs1 in Hadv. simpl in Hadv. destruct Hadv as [[Hssml _] _].
      eapply OnSynthEvent_throw_calls; [|exact Hbad]. by rewrite Hssml.
  - intros bad e st1. apply OnSynthEvent_lacks_required.
Qed.

Lemma C3_malformed_text_message_witness :
  fits (m_ssml speaking) ∧ coherent speaking
  ∧ m_connection speaking = Some 7%nat
  ∧ sv_find no_header_message (lit "Path:") 0 = npos
  ∧ AsioThread_dispatch ascii_to_wide wide_to_ascii
      (parse_table metadata_table) dump true
      (ev_message 7%nat (text_message no_header_message)) speaking
    = HRet () speaking
  ∧ lacks_required dataless_event out_of_range
  ∧ ∃ st2,
      OnMessage ascii_to_wide (parse_table broken_metadata_table) true 7%nat
        (text_message broken_metadata_message) speaking
      = HThrow out_of_range st2
      ∧ calls st2 = [call_WordBoundary 100 5 4].
Proof.
  assert (fits (m_ssml speaking)) as Hfit by (by vm_compute).
  assert (coherent speaking) as Hco by done.
  assert (sv_find no_header_message (lit "Path:") 0 = npos) as Hnone
    by (by vm_compute).
  assert (lacks_required dataless_event out_of_range) as Hlacks.
  { right. left. by exists (lit "WordBoundary"). }
  do 4 (split; [done|]).
  split.
  { exact (proj1 (C3_malformed_text_message ascii_to_wide wide_to_ascii
                    (parse_table metadata_table) dump true speaking 7%nat
                    no_header_message Hfit Hco eq_refl) (or_introl Hnone)). }
  split; [done|].
  destruct (C3_malformed_text_message ascii_to_wide wide_to_ascii
              (parse_table broken_metadata_table) dump true speaking 7%nat
              broken_metadata_message Hfit Hco eq_refl)
    as (_ & _ & _ & _ & Hevent & Hbad).
  destruct (OnSynthEvent ascii_to_wide true (word_event "word" 100 4) speaking)
    as [[] st1| | |] eqn:Hfirst; try (vm_compute in Hfirst; discriminate).
  destruct (Hevent broken_metadata_body
              (JObj [("Metadata"%string,
                      JArr [word_event "word" 100 4; dataless_event;
                            word_event "word" 200 4])])
              (JArr [word_event "word" 100 4; dataless_event;
                     word_event "word" 200 4])
              [word_event "word" 100 4] dataless_event
              [word_event "word" 200 4] st1 out_of_range st1)
    as [Hthrow Hcalls].
  - by vm_compute.
  - by vm_compute.
  - reflexivity.
  - reflexivity.
  - simpl. cbv [mbind M_mbind M_bind]. by rewrite Hfirst.
  - by apply Hbad.
  - exists st1. split; [exact Hthrow|].
    vm_compute in Hfirst. by injection Hfirst as <-.
Defined.

(** C3 as stated fails. A body that is not JSON resolves the completion
    handle with the parse error. An event without its [Data] behind a
    word event: the callback of the word event has been called, the event
    behind is not dispatched, and the completion handle is resolved with
    the error. *)
Lemma C3_malformed_messages_resolve_with_error :
  (∃ st', AsioThread_dispatch ascii_to_wide wide_to_ascii
            (parse_table metadata_table) dump true
            (ev_message 7%nat (text_message cut_short_message)) speaking
          = HRet () st'
          ∧ m_speakPromise speaking = None
          ∧ m_speakPromise st' = Some (speak_exception parse_error))
  ∧ (∃ st', AsioThread_dispatch ascii_to_wide wide_to_ascii
              (parse_table broken_metadata_table) dump true
              (ev_message 7%nat (text_message broken_metadata_message))
              speaking
            = HRet () st'
            ∧ calls speaking = []
            ∧ calls st' = [call_WordBoundary 100 5 4;
                           call_promise (speak_exception out_of_range)]
            ∧ m_speakPromise st' = Some (speak_exception out_of_range)).
Proof.
  split; eexists; (split; [by vm_compute|]); done.
Qed.

(** C4. On the current connection [OnOpen] sends two messages; the body
    of the first is the dump of a configuration whose [metadataOptions]
    object has exactly the five members below, each the truth value of
    the corresponding callback holding a target. *)
Theorem C4_speech_config_flags
    (WStringToUTF8 : string_view → string_view) (json_dump : json → string_view)
    st hdl stamp1 stamp2 reqId :
  m_connection st = Some hdl →
  ∃ st',
    OnOpen WStringToUTF8 json_dump hdl stamp1 stamp2 reqId st = HRet () st'
    ∧ calls st'
      = calls st
        ++ [call_send hdl
              (lit "X-Timestamp:" ++ stamp1 ++ crlf
               ++ lit "Content-Type:application/json; charset=utf-8" ++ crlf
               ++ lit "Path:speech.config" ++ crlf ++ crlf
               ++ json_dump (speech_config (m_callbacks st)));
            call_send hdl
              (lit "X-Timestamp:" ++ stamp2 ++ crlf
               ++ lit "X-RequestId:" ++ reqId ++ crlf
               ++ lit "Content-Type:application/ssml+xml" ++ crlf
               ++ lit "Path:ssml" ++ crlf ++ crlf
               ++ WStringToUTF8 (m_ssml st))]
    ∧ metadataOptions (speech_config (m_callbacks st))
      = Ret (JObj [
          ("bookmarkEnabled"%string, JBool (BookmarkCallback (m_callbacks st)));
          ("punctuationBoundaryEnabled"%string,
             JBool (PunctuationBoundaryCallback (m_callbacks st)));
          ("sentenceBoundaryEnabled"%string,
             JBool (SentenceBoundaryCallback (m_callbacks st)));
          ("wordBoundaryEnabled"%string,
             JBool (WordBoundaryCallback (m_callbacks st)));
          ("visemeEnabled"%string, JBool (VisemeCallback (m_callbacks st)))]).
Proof.
  intros Hcur. unfold OnOpen. cbv [mbind M_mbind M_bind].
  rewrite IsCurrentConnection_current by done.
  eexists. split; [reflexivity|]. split; [|reflexivity].
  simpl. by rewrite <- app_assoc.
Qed.

Lemma C4_speech_config_flags_witness :
  m_connection speaking = Some 7%nat
  ∧ ∃ st',
      OnOpen wide_to_ascii dump 7%nat (lit "t1") (lit "t2") (lit "id") speaking
      = HRet () st'
      ∧ metadataOptions (speech_config (m_callbacks speaking))
        = Ret (JObj [("bookmarkEnabled"%string, JBool false);
                     ("punctuationBoundaryEnabled"%string, JBool false);
                     ("sentenceBoundaryEnabled"%string, JBool false);
                     ("wordBoundaryEnabled"%string, JBool true);
                     ("visemeEnabled"%string, JBool false)]).
Proof.
  split; [done|].
  destruct (C4_speech_config_flags wide_to_ascii dump speaking 7%nat
              (lit "t1") (lit "t2") (lit "id") eq_refl)
    as (st' & Hopen & _ & Hflags).
  exists st'. split; [exact Hopen|exact Hflags].
Defined.

Lemma dword_buffer_size data :
  sv_size (dword_buffer data) = sv_size data mod 2 ^ 32.
Proof.
  unfold dword_buffer, DWORD_of, sv_size. rewrite length_take.
  pose proof (N.Div0.mod_le (N.of_nat (length data)) (2 ^ 32)). lia.
Qed.

Lemma dword_buffer_small data :
  sv_size data < 2 ^ 32 → dword_buffer data = data.
Proof.
  intros H. unfold dword_buffer, DWORD_of. rewrite N.mod_small by done.
  apply take_ge. unfold sv_size. lia.
Qed.

(** C5, as the code has it. A binary message on the current connection
    is put in the queue as it is, whatever it holds. When the worker later
    decodes a message of at least two bytes: without the marker after the
    first two bytes, nothing is done with it and the state is left as it
    was; with the marker, [Convert] is called once, on the bytes that
    follow the first occurrence of the marker with their number cast to 32
    bits: all of these bytes when they are fewer than 2^32, and else only
    the first [size mod 2^32] of them. *)
Theorem C5_binary_message_audio
    (UTF8ToWString : string_view → string_view)
    (json_parse : string_view → option json) (args_left_to_right : bool)
    (Decoder : Type) (Mp3Decoder_new : Decoder)
    (Convert : Decoder → string_view → Decoder * option exn)
    st hdl raw :
  m_connection st = Some hdl →
  OnMessage UTF8ToWString json_parse args_left_to_right hdl
    (binary_message raw) st
  = HRet () (set_mp3Queue (m_mp3Queue st ++ [raw]) st)
  ∧ (well_formed raw →
     ∀ d st2, coherent st2 →
      ∃ w3 st3,
        Mp3Thread_step Decoder Mp3Decoder_new Convert
          (mkWorker Decoder d (Some raw) false) st2 = HRet w3 st3
        ∧ msg Decoder w3 = None
        ∧ ((∀ j : nat, starts_with audio_marker (drop j (drop 2 raw)) = false) →
           st3 = st2)
        ∧ (∀ pre data,
             drop 2 raw = pre ++ audio_marker ++ data →
             (∀ j : nat, (j < length pre)%nat →
                starts_with audio_marker (drop j (drop 2 raw)) = false) →
             converts (calls st3)
             = converts (calls st2)
               ++ [take (N.to_nat (sv_size data mod 2 ^ 32)) data]
             ∧ sv_size (dword_buffer data) = sv_size data mod 2 ^ 32
             ∧ (sv_size data < 2 ^ 32 →
                converts (calls st3) = converts (calls st2) ++ [data]))).
Proof.
  intros Hcur. split; [by apply OnMessage_binary|].
  intros Hwf d st2 Hco. eexists _, _. split; [by apply step_decode_any|].
  split; [done|]. split.
  - intros Habs. unfold decode_one. by rewrite audio_of_absent.
  - intros pre data Hsplit Hfirst.
    assert (converts (calls (snd (decode_one Decoder Convert raw (d, st2))))
            = converts (calls st2) ++ [dword_buffer data]) as Hconv.
    { rewrite converts_decode_one. simpl.
      by rewrite (audio_of_present raw pre data). }
    split_and!.
    + exact Hconv.
    + apply dword_buffer_size.
    + intros Hsmall. by rewrite Hconv, dword_buffer_small.
Qed.

Lemma C5_binary_message_audio_witness :
  m_connection connected = Some 7%nat ∧ well_formed p1
  ∧ ∃ w3 st3,
      Mp3Thread_step (list string_view) [] recording_Convert
        (mkWorker (list string_view) [] (Some p1) false) connected
      = HRet w3 st3
      ∧ converts (calls st3) = [[1]].
Proof.
  assert (well_formed p1) as Hwf by (by vm_compute).
  split; [done|]. split; [done|].
  destruct (proj2 (C5_binary_message_audio ascii_to_wide
                     (parse_table metadata_table) true (list string_view) []
                     recording_Convert connected 7%nat p1 eq_refl) Hwf
              [] connected) as (w3 & st3 & Hstep & _ & _ & Hdata).
  { done. }
  exists w3, st3. split; [exact Hstep|].
  destruct (Hdata [] [1]) as (_ & _ & Hall); [done| |].
  { intros j Hj. simpl in Hj. lia. }
  apply Hall. by vm_compute.
Defined.

(** C5 as stated (a message without the marker is not enqueued) fails:
    it is enqueued, and discarded only when the worker takes it. *)
Lemma C5_unmarked_message_is_enqueued :
  sv_find (drop 2 unmarked_message) audio_marker 0 = npos
  ∧ ∃ st', OnMessage ascii_to_wide (parse_table metadata_table) true 7%nat
             (binary_message unmarked_message) connected
           = HRet () st'
           ∧ m_mp3Queue st' = [unmarked_message].
Proof. split; [by vm_compute|]. eexists. split; [by vm_compute|done]. Qed.

(** C7. Within a session (the markup stays) no call of [FindWord], no
    dispatch of a boundary event and no run of the event loop over any
    events moves either cursor back, whether the handlers return or throw;
    and they do return or throw. *)
Theorem C7_cursors_monotone
    (UTF8ToWString WStringToUTF8 : string_view → string_view)
    (json_parse : string_view → option json) (json_dump : json → string_view)
    (args_left_to_right : bool) st evs :
  fits (m_ssml st) →
  (∀ utf8Word lastPos,
     ∃ r, FindWord UTF8ToWString (m_ssml st) utf8Word lastPos = Ret r
          ∧ lastPos ≤ cursor r)
  ∧ (∀ metadata,
       hres_sat (cursors_le st) (cursors_le st)
         (OnSynthEvent UTF8ToWString args_left_to_right metadata st))
  ∧ hres_sat
      (λ st', m_lastWordPos st ≤ m_lastWordPos st'
              ∧ m_lastSentencePos st ≤ m_lastSentencePos st')
      (λ st', m_lastWordPos st ≤ m_lastWordPos st'
              ∧ m_lastSentencePos st ≤ m_lastSentencePos st')
      (AsioThread UTF8ToWString WStringToUTF8 json_parse json_dump
         args_left_to_right evs st).
Proof.
  intros Hfit. split_and!.
  - intros utf8Word lastPos. by apply FindWord_returns.
  - intros metadata.
    eapply hres_sat_weaken;
      [apply advances_cursors_le|apply advances_cursors_le|].
    apply OnSynthEvent_advances; [done|apply advances_refl].
  - eapply hres_sat_weaken;
      [| |apply (AsioThread_sat _ _ _ _ _ evs st st Hfit), cursors_le_refl];
      by intros st' (_ & ? & ?).
Qed.

Lemma C7_cursors_monotone_witness :
  fits (m_ssml speaking)
  ∧ ∃ st', AsioThread ascii_to_wide wide_to_ascii (parse_table metadata_table)
             dump true [ev_message 7%nat (text_message metadata_message)]
             speaking
           = HRet () st'
           ∧ m_lastWordPos speaking ≤ m_lastWordPos st'
           ∧ m_lastWordPos st' = 18.
Proof.
  assert (fits (m_ssml speaking)) as Hfit by (by vm_compute).
  split; [done|].
  pose proof (proj2 (proj2 (C7_cursors_monotone ascii_to_wide wide_to_ascii
                  (parse_table metadata_table) dump true speaking
                  [ev_message 7%nat (text_message metadata_message)] Hfit)))
    as Hmono.
  destruct (AsioThread _ _ _ _ _ _ speaking) as [[] st'| | |] eqn:Hrun;
    [|vm_compute in Hrun; discriminate..].
  exists st'. split; [done|]. split; [exact (proj1 Hmono)|].
  vm_compute in Hrun. by injection Hrun as <-.
Defined.

(** ** Further checks of the model on examples *)

(** [SpeakAsync] starts a session with both cursors at zero and the
    completion handle unresolved. *)
Lemma SpeakAsync_fresh_session ssml con st :
  ∃ st', SpeakAsync ssml con st = HRet () st'
    ∧ m_ssml st' = ssml
    ∧ m_lastWordPos st' = 0 ∧ m_lastSentencePos st' = 0
    ∧ m_isPromiseSet st' = false ∧ m_speakPromise st' = None
    ∧ m_connection st' = Some con.
Proof. eexists. split; [reflexivity|]. by split_and!. Qed.

(** An exception of the decoder resolves the completion handle with it;
    the worker goes on, decodes the next message, and its later call of
    [SpeakComplete] changes nothing. *)
Example decode_error_then_next_message :
  ∃ w st,
    run (list string_view) [] strict_Convert
      [act_push p_empty; act_push p1; act_done; act_worker; act_worker;
       act_worker; act_worker; act_worker]
      (idle_worker []) fresh
    = HRet w st
    ∧ calls st = [call_Convert []; call_promise (speak_exception (decoder_error 1));
                  call_Convert [1]]
    ∧ m_speakPromise st = Some (speak_exception (decoder_error 1))
    ∧ returned (list string_view) w = false.
Proof. eexists _, _. split; [by vm_compute|]. by split_and!. Qed.

(** A stale event, for a connection that is not the current one, is
    ignored. *)
Example stale_message_ignored :
  OnMessage ascii_to_wide (parse_table metadata_table) true 8%nat
    (binary_message p1) connected
  = HRet () connected.
Proof. reflexivity. Qed.

(** * Further properties *)

(** ** More on the text locator *)

Lemma XmlEscape_app s1 s2 : XmlEscape (s1 ++ s2) = XmlEscape s1 ++ XmlEscape s2.
Proof.
  induction s1 as [|ch s1 IH]; simpl; [done|]. by rewrite IH, app_assoc.
Qed.

Lemma XmlEscape_char_cases ch :
  (xml_special ch = false ∧ XmlEscape_char ch = [ch])
  ∨ (ch = ch_lt ∧ XmlEscape_char ch = lit "&lt;")
  ∨ (ch = ch_gt ∧ XmlEscape_char ch = lit "&gt;")
  ∨ (ch = ch_amp ∧ XmlEscape_char ch = lit "&amp;")
  ∨ (ch = ch_quot ∧ XmlEscape_char ch = lit "&quot;")
  ∨ (ch = ch_apos ∧ XmlEscape_char ch = lit "&apos;").
Proof.
  unfold XmlEscape_char, xml_special.
  destruct (N.eqb_spec ch ch_lt) as [->|]; [by auto 10|].
  destruct (N.eqb_spec ch ch_gt) as [->|]; [by auto 10|].
  destruct (N.eqb_spec ch ch_amp) as [->|]; [by auto 10|].
  destruct (N.eqb_spec ch ch_quot) as [->|]; [by auto 10|].
  destruct (N.eqb_spec ch ch_apos) as [->|]; [by auto 10|].
  by left.
Qed.

Lemma xml_special_amp ch : xml_special ch = false → ch ≠ ch_amp.
Proof. intros H ->. done. Qed.

(** X3. [XmlEscape] maps different texts to different texts. *)
Theorem XmlEscape_injective s1 s2 : XmlEscape s1 = XmlEscape s2 → s1 = s2.
Proof.
  revert s2. induction s1 as [|c1 s1 IH]; intros [|c2 s2]; simpl.
  - done.
  - destruct (XmlEscape_char_cases c2) as [[_ ->]|[[_ ->]|[[_ ->]|[[_ ->]|[[_ ->]|[_ ->]]]]]];
      discriminate.
  - destruct (XmlEscape_char_cases c1) as [[_ ->]|[[_ ->]|[[_ ->]|[[_ ->]|[[_ ->]|[_ ->]]]]]];
      discriminate.
  - destruct (XmlEscape_char_cases c1)
      as [[H1 ->]|[[-> ->]|[[-> ->]|[[-> ->]|[[-> ->]|[-> ->]]]]]];
    destruct (XmlEscape_char_cases c2)
      as [[H2 ->]|[[-> ->]|[[-> ->]|[[-> ->]|[[-> ->]|[-> ->]]]]]];
      simpl; intros Heq; try discriminate;
      try (injection Heq as Heq; f_equal; by apply IH);
      try (injection Heq as -> Heq; f_equal; by apply IH);
      try (injection Heq as -> _; done);
      try (injection Heq as <- _; done).
Qed.

Lemma XmlEscape_injective_witness :
  XmlEscape (lit "a<b") = XmlEscape ([97] ++ [60; 98])
  ∧ lit "a<b" = [97] ++ [60; 98].
Proof.
  split; [reflexivity|]. apply XmlEscape_injective. reflexivity.
Defined.

Lemma not_special_cases ch :
  xml_special ch = false →
  ch ≠ ch_lt ∧ ch ≠ ch_gt ∧ ch ≠ ch_amp ∧ ch ≠ ch_quot ∧ ch ≠ ch_apos.
Proof. intros H. split_and!; by intros ->. Qed.

Lemma XmlEscape_clean str :
  Forall (λ ch, ch ≠ ch_lt ∧ ch ≠ ch_gt ∧ ch ≠ ch_quot ∧ ch ≠ ch_apos)
    (XmlEscape str).
Proof.
  induction str as [|ch str IH]; simpl; [constructor|].
  apply Forall_app. split; [|done].
  destruct (XmlEscape_char_cases ch)
    as [[H ->]|[[_ ->]|[[_ ->]|[[_ ->]|[[_ ->]|[_ ->]]]]]].
  - apply not_special_cases in H. constructor; [tauto|constructor].
  - repeat constructor; by vm_compute.
  - repeat constructor; by vm_compute.
  - repeat constructor; by vm_compute.
  - repeat constructor; by vm_compute.
  - repeat constructor; by vm_compute.
Qed.

(** X4. The text [XmlEscape] returns holds none of the characters
    [<], [>], the double quote and the single quote; a text without these
    and without [&] is returned as it is. *)
Theorem XmlEscape_output str :
  Forall (λ ch, ch ≠ ch_lt ∧ ch ≠ ch_gt ∧ ch ≠ ch_quot ∧ ch ≠ ch_apos)
    (XmlEscape str)
  ∧ (Forall (λ ch, xml_special ch = false) str → XmlEscape str = str).
Proof.
  split; [apply XmlEscape_clean|].
  induction 1 as [|ch str Hch _ IH]; simpl; [done|].
  destruct (XmlEscape_char_cases ch)
    as [[_ ->]|[[-> _]|[[-> _]|[[-> _]|[[-> _]|[-> _]]]]]];
    try discriminate.
  simpl. by rewrite IH.
Qed.

Lemma XmlEscape_output_witness :
  Forall (λ ch, xml_special ch = false) (lit "plain text")
  ∧ XmlEscape (lit "plain text") = lit "plain text".
Proof.
  assert (Forall (λ ch, xml_special ch = false) (lit "plain text")) as H
    by (repeat constructor).
  split; [exact H|]. exact (proj2 (XmlEscape_output (lit "plain text")) H).
Defined.

Lemma FindWord_found (UTF8ToWString : string_view → string_view)
    ssml utf8Word lastPos r :
  fits ssml →
  FindWord UTF8ToWString ssml utf8Word lastPos = Ret r →
  found_at r ≠ npos →
  first_clear (XmlEscape (UTF8ToWString utf8Word)) ssml lastPos (found_at r)
  ∧ cursor r = found_at r + sv_size (XmlEscape (UTF8ToWString utf8Word))
  ∧ cursor r ≤ sv_size ssml.
Proof.
  intros Hfit Hr Hfound. unfold FindWord in Hr.
  destruct (FindWord_wide_correct ssml (XmlEscape (UTF8ToWString utf8Word))
              lastPos Hfit (XmlEscape_no_gt _)) as (r' & Hr' & _ & Hres).
  rewrite Hr in Hr'. injection Hr' as <-.
  destruct Hres as [[? _]|(_ & ? & ? & ?)]; [done|tauto].
Qed.

(** X1. When [FindWord] reports a position, it is the first occurrence
    of the escaped word at or after the cursor that is not inside an open
    tag (reading from the cursor), and the cursor it leaves is just past
    that occurrence, inside the markup. *)
Theorem FindWord_found_first_clear (UTF8ToWString : string_view → string_view)
    ssml utf8Word lastPos r :
  fits ssml →
  FindWord UTF8ToWString ssml utf8Word lastPos = Ret r →
  found_at r ≠ npos →
  first_clear (XmlEscape (UTF8ToWString utf8Word)) ssml lastPos (found_at r)
  ∧ cursor r = found_at r + sv_size (XmlEscape (UTF8ToWString utf8Word))
  ∧ cursor r ≤ sv_size ssml.
Proof. apply FindWord_found. Qed.

Lemma FindWord_found_first_clear_witness :
  ∃ r, fits attribute_example
       ∧ FindWord ascii_to_wide attribute_example (lit "word") 0 = Ret r
       ∧ found_at r = 23
       ∧ first_clear (XmlEscape (ascii_to_wide (lit "word"))) attribute_example 0
           (found_at r)
       ∧ cursor r = 27.
Proof.
  eexists. split; [by vm_compute|]. split; [by vm_compute|].
  split; [reflexivity|].
  split.
  - refine (proj1 (FindWord_found_first_clear ascii_to_wide attribute_example
                     (lit "word") 0 _ _ _ _)); by vm_compute.
  - reflexivity.
Defined.

(** X2. Two successive successful calls of [FindWord] for the same text,
    the second from the cursor left by the first, report occurrences that
    do not overlap: the second starts at or after the end of the first. *)
Theorem FindWord_successive_disjoint (UTF8ToWString : string_view → string_view)
    ssml utf8Word lastPos r1 r2 :
  fits ssml →
  FindWord UTF8ToWString ssml utf8Word lastPos = Ret r1 →
  found_at r1 ≠ npos →
  FindWord UTF8ToWString ssml utf8Word (cursor r1) = Ret r2 →
  found_at r2 ≠ npos →
  found_at r1 + sv_size (XmlEscape (UTF8ToWString utf8Word)) ≤ found_at r2
  ∧ cursor r1 ≤ cursor r2.
Proof.
  intros Hfit H1 Hf1 H2 Hf2.
  destruct (FindWord_found _ _ _ _ _ Hfit H1 Hf1) as (_ & Hc1 & _).
  destruct (FindWord_found _ _ _ _ _ Hfit H2 Hf2) as ((Hle & _) & Hc2 & _).
  lia.
Qed.

Lemma FindWord_successive_disjoint_witness :
  ∃ r1 r2,
    FindWord ascii_to_wide markup_example (lit "word") 0 = Ret r1
    ∧ FindWord ascii_to_wide markup_example (lit "word") (cursor r1) = Ret r2
    ∧ found_at r1 = 5 ∧ found_at r2 = 14
    ∧ found_at r1 + sv_size (XmlEscape (ascii_to_wide (lit "word"))) ≤ found_at r2.
Proof.
  eexists _, _. split; [by vm_compute|]. split; [by vm_compute|].
  split; [reflexivity|]. split; [reflexivity|].
  refine (proj1 (FindWord_successive_disjoint ascii_to_wide markup_example
                   (lit "word") 0 _ _ _ _ _ _ _)); by vm_compute.
Defined.

Lemma elem_of_window (ch : N) s a b : ch ∈ window s a b → ch ∈ s.
Proof.
  unfold window. intros (i & Hi & _)%elem_of_take.
  rewrite lookup_drop in Hi. by apply list_elem_of_lookup_2 in Hi.
Qed.

Lemma XmlEscape_no_lt str : ch_lt ∉ XmlEscape str.
Proof.
  intros H. pose proof (XmlEscape_clean str) as Hall.
  rewrite Forall_forall in Hall. by destruct (Hall _ H) as [? _].
Qed.

Lemma occurs_at_middle (pre word post : string_view) :
  occurs_at word (pre ++ word ++ post) (sv_size pre).
Proof.
  unfold occurs_at, sv_size. rewrite !length_app. split; [lia|].
  rewrite Nat2N.id, drop_app_length.
  apply starts_with_app. by exists post.
Qed.

(** X5. A word of the plain text is found in the escaped text: in the
    markup [XmlEscape (pre ++ w ++ post)], [FindWord] for [w] from a
    cursor at or before the place of the escaped [w] reports a position,
    at or before that place, and never [npos]. *)
Theorem FindWord_finds_plain_word (UTF8ToWString : string_view → string_view)
    pre utf8Word post lastPos :
  fits (XmlEscape (pre ++ UTF8ToWString utf8Word ++ post)) →
  lastPos ≤ sv_size (XmlEscape pre) →
  ∃ r, FindWord UTF8ToWString
         (XmlEscape (pre ++ UTF8ToWString utf8Word ++ post)) utf8Word lastPos
       = Ret r
     ∧ found_at r ≠ npos
     ∧ lastPos ≤ found_at r ≤ sv_size (XmlEscape pre)
     ∧ occurs_at (XmlEscape (UTF8ToWString utf8Word))
         (XmlEscape (pre ++ UTF8ToWString utf8Word ++ post)) (found_at r).
Proof.
  intros Hfit Hlast. unfold FindWord.
  set (word := XmlEscape (UTF8ToWString utf8Word)).
  set (ssml := XmlEscape (pre ++ UTF8ToWString utf8Word ++ post)) in *.
  assert (Hocc : occurs_at word ssml (sv_size (XmlEscape pre))).
  { unfold ssml, word. rewrite !XmlEscape_app. apply occurs_at_middle. }
  assert (Hout : ∀ q, in_tag false (window ssml lastPos q) = false).
  { intros q. apply in_tag_outside. intros Hin%elem_of_window.
    by apply XmlEscape_no_lt in Hin. }
  destruct (FindWord_wide_correct ssml word lastPos Hfit (XmlEscape_no_gt _))
    as (r & Hr & _ & Hres).
  exists r. split; [done|].
  destruct Hres as [(_ & _ & Hnone)|(Hfound & _ & _ & Hle & Hocc' & _ & Hmin)].
  - specialize (Hnone _ Hlast Hocc). by rewrite Hout in Hnone.
  - split; [done|]. split; [|done]. split; [done|].
    destruct (N.le_gt_cases (found_at r) (sv_size (XmlEscape pre)))
      as [|Hlt]; [done|].
    specialize (Hmin _ Hlast Hlt Hocc). by rewrite Hout in Hmin.
Qed.

Lemma FindWord_finds_plain_word_witness :
  ∃ r, FindWord ascii_to_wide contraction_example (lit "you're") 0 = Ret r
       ∧ found_at r = 8.
Proof.
  destruct (FindWord_finds_plain_word ascii_to_wide (lit "I think ")
              (lit "you're") (lit " right") 0) as (r & Hr & _ & _ & _).
  - by vm_compute.
  - by vm_compute.
  - exists r. split; [exact Hr|].
    vm_compute in Hr. by injection Hr as <-.
Defined.

(** ** More on the session controller *)

Lemma IsCurrentConnection_other hdl st :
  m_connection st ≠ Some hdl → IsCurrentConnection hdl st = HRet false st.
Proof.
  intros H. unfold IsCurrentConnection, gets. by rewrite bool_decide_eq_false_2.
Qed.

Lemma bind_gets {A B} (f : SpeechRestAPI → A) (k : A → M B) st :
  (gets f ≫= k) st = k (f st) st.
Proof. reflexivity. Qed.

Lemma bind_lift_Ret {A B} (o : outcome A) (a : A) (k : A → M B) st :
  o = Ret a → (lift o ≫= k) st = k a st.
Proof. by intros ->. Qed.

Lemma lit_neq (a b : string) :
  bool_decide (lit a = lit b) = false → lit a ≠ lit b.
Proof. by intros H%bool_decide_eq_false. Qed.

Section EventFacts.
Variable UTF8ToWString : string_view → string_view.
Variable WStringToUTF8 : string_view → string_view.
Variable json_parse : string_view → option json.
Variable json_dump : json → string_view.
Variable args_left_to_right : bool.

Local Abbreviation OnSynthEvent' :=
  (OnSynthEvent UTF8ToWString args_left_to_right).
Local Abbreviation OnMessage' :=
  (OnMessage UTF8ToWString json_parse args_left_to_right).
Local Abbreviation handle' :=
  (handle UTF8ToWString WStringToUTF8 json_parse json_dump args_left_to_right).
Local Abbreviation AsioThread' :=
  (AsioThread UTF8ToWString WStringToUTF8 json_parse json_dump
     args_left_to_right).

Lemma handle_other ev st :
  m_connection st ≠ Some (event_hdl ev) → handle' ev st = HRet () st.
Proof.
  intros H. destruct ev as [hdl s1 s2 r|hdl msg|hdl|hdl ec]; simpl in *;
    unfold OnOpen, OnMessage, OnClose, OnFail; cbv [mbind M_mbind M_bind];
    by rewrite IsCurrentConnection_other.
Qed.

(** X6. Events of the transport that belong to a connection other than
    the current one, and all events while there is no connection (after
    [Stop], a close, a failure or the end of the turn), change nothing:
    no callback, no audio enqueued, the completion handle as it was. *)
Theorem events_of_other_connections_ignored evs st :
  Forall (λ ev, m_connection st ≠ Some (event_hdl ev)) evs →
  AsioThread' evs st = HRet () st.
Proof.
  unfold AsioThread. induction 1 as [|ev evs Hev _ IH]; [done|].
  simpl. cbv [mbind M_mbind M_bind AsioThread_dispatch try_catch].
  by rewrite handle_other.
Qed.

End EventFacts.

Lemma events_of_other_connections_ignored_witness :
  AsioThread ascii_to_wide wide_to_ascii (parse_table metadata_table) dump true
    [ev_message 8%nat (binary_message p1); ev_fail 8%nat (Some (system_error 1));
     ev_close 9%nat]
    connected
  = HRet () connected.
Proof.
  apply events_of_other_connections_ignored.
  repeat constructor; by vm_compute.
Defined.

Lemma FindWord_cases (UTF8ToWString : string_view → string_view)
    ssml utf8Word lastPos :
  fits ssml →
  ∃ r, FindWord UTF8ToWString ssml utf8Word lastPos = Ret r
       ∧ (found_at r = npos → cursor r = lastPos).
Proof.
  intros Hfit. unfold FindWord.
  destruct (FindWord_wide_correct ssml (XmlEscape (UTF8ToWString utf8Word))
              lastPos Hfit (XmlEscape_no_gt _)) as (r & Hr & _ & Hres).
  exists r. split; [done|]. intros Hnpos.
  destruct Hres as [(_ & ? & _)|(? & _)]; done.
Qed.

Section SynthFacts.
Variable UTF8ToWString : string_view → string_view.
Variable args_left_to_right : bool.

Local Abbreviation OnSynthEvent' :=
  (OnSynthEvent UTF8ToWString args_left_to_right).

(** What a boundary event makes of the state: the cursor [c] moves to
    where [FindWord] left it, and the callback is called. *)
Lemma boundary_args_run info text len c st :
  fits (m_ssml st) →
  json_at info "Text" = Ret (JStr text) →
  json_at info "Length" = Ret (JNum len) →
  ∃ r, FindWord UTF8ToWString (m_ssml st) text (cursor_get c st) = Ret r
     ∧ (found_at r = npos → cursor r = cursor_get c st)
     ∧ boundary_args UTF8ToWString args_left_to_right info c st
       = HRet (found_at r mod 2 ^ 32, len mod 2 ^ 32) (cursor_set c (cursor r) st).
Proof.
  intros Hfit Htext Hlen.
  destruct (FindWord_cases UTF8ToWString (m_ssml st) text (cursor_get c st) Hfit)
    as (r & Hr & Hnpos).
  exists r. split; [done|]. split; [done|].
  assert (m_ssml (cursor_set c (cursor r) st) = m_ssml st) as Hssml
    by (by destruct c).
  unfold boundary_args, locate, length_arg.
  destruct args_left_to_right;
    cbv [mbind M_mbind M_bind lift gets modify mret M_mret outcome_bind];
    rewrite Htext, Hlen; simpl; rewrite Hr; done.
Qed.

(** X10. When no callback is registered, a metadata event changes
    nothing: [OnSynthEvent] returns, or throws on an event that lacks its
    type, data or offset, with the object as it was; in particular the
    cursors do not move. *)
Theorem OnSynthEvent_without_callbacks metadata st :
  m_callbacks st = no_callbacks →
  hres_sat (λ st', st' = st) (λ st', st' = st) (OnSynthEvent' metadata st).
Proof.
  intros Hcb. unfold OnSynthEvent.
  apply sat_bind; [apply sat_lift; [pure_tac|done]|]. intros type ? ->.
  apply sat_bind; [apply sat_lift; [pure_tac|done]|]. intros data ? ->.
  apply sat_bind; [apply sat_lift; [pure_tac|done]|]. intros offset ? ->.
  rewrite bind_gets, Hcb. simpl.
  repeat match goal with
         | |- hres_sat _ _ ((if bool_decide ?P then _ else _) _) =>
             destruct (bool_decide P)
         end; try done.
  - apply sat_bind; [apply sat_lift; [pure_tac|done]|]. intros info ? ->.
    apply sat_bind; [apply sat_lift; [pure_tac|done]|]. intros bt ? ->.
    by destruct (bool_decide _).
  - apply sat_bind; [apply sat_lift; [pure_tac|done]|]. by intros info ? ->.
Qed.
Lemma type_dispatch (type : string_view) (a b : string) {A} (x y : A) :
  type = lit a → bool_decide (lit a = lit b) = false →
  (if bool_decide (type = lit b) then x else y) = y.
Proof. intros -> H. by rewrite H. Qed.

(** X11. A word-boundary event (not a punctuation one) on a session with
    the word-boundary callback: [OnSynthEvent] returns; the callback is
    called once, with the audio offset, the position [FindWord] reports
    for the text from the word cursor, cast to 32 bits, and the length;
    the word cursor moves to where [FindWord] left it and nothing else
    changes, in particular not the sentence cursor. When the text is not
    found, the position handed over is 4294967295 and the word cursor
    stays. *)
Theorem OnSynthEvent_word_boundary metadata data info text bt offset len st :
  fits (m_ssml st) →
  WordBoundaryCallback (m_callbacks st) = true →
  json_at metadata "Type" = Ret (JStr (lit "WordBoundary")) →
  json_at metadata "Data" = Ret data →
  json_at data "Offset" = Ret (JNum offset) →
  json_at data "text" = Ret info →
  json_at info "BoundaryType" = Ret (JStr bt) →
  bt ≠ lit "PunctuationBoundary" →
  json_at info "Text" = Ret (JStr text) →
  json_at info "Length" = Ret (JNum len) →
  ∃ r, FindWord UTF8ToWString (m_ssml st) text (m_lastWordPos st) = Ret r
     ∧ OnSynthEvent' metadata st
       = HRet () (log_call (call_WordBoundary (offset mod 2 ^ 64)
                              (found_at r mod 2 ^ 32) (len mod 2 ^ 32))
                    (set_lastWordPos (cursor r) st))
     ∧ (found_at r = npos →
        found_at r mod 2 ^ 32 = 4294967295 ∧ cursor r = m_lastWordPos st).
Proof.
  intros Hfit Hcb Htype Hdata Hoff Hinfo Hbt Hnp Htext Hlen.
  destruct (boundary_args_run info text len word_cursor st Hfit Htext Hlen)
    as (r & Hr & Hnpos & Hargs).
  exists r. split; [done|]. split.
  - unfold OnSynthEvent.
    rewrite (bind_lift_Ret _ (lit "WordBoundary"))
      by (by rewrite Htype).
    rewrite (bind_lift_Ret _ data) by done.
    rewrite (bind_lift_Ret _ (offset mod 2 ^ 64)) by (by rewrite Hoff).
    rewrite bind_gets, Hcb.
    rewrite (type_dispatch _ "WordBoundary" "Viseme") by done.
    rewrite bool_decide_eq_true_2 by done.
    rewrite (bind_lift_Ret _ info) by done.
    rewrite (bind_lift_Ret _ bt) by (by rewrite Hbt).
    rewrite bool_decide_eq_false_2 by done.
    unfold when. cbv [mbind M_mbind M_bind]. by rewrite Hargs.
  - intros H. split; [by rewrite H|by apply Hnpos].
Qed.

(** X12. A sentence-boundary event on a session with the
    sentence-boundary callback: the callback is called once with the
    position [FindWord] reports from the sentence cursor; the sentence
    cursor moves and the word cursor does not. *)
Theorem OnSynthEvent_sentence_boundary metadata data info text offset len st :
  fits (m_ssml st) →
  SentenceBoundaryCallback (m_callbacks st) = true →
  json_at metadata "Type" = Ret (JStr (lit "SentenceBoundary")) →
  json_at metadata "Data" = Ret data →
  json_at data "Offset" = Ret (JNum offset) →
  json_at data "text" = Ret info →
  json_at info "Text" = Ret (JStr text) →
  json_at info "Length" = Ret (JNum len) →
  ∃ r, FindWord UTF8ToWString (m_ssml st) text (m_lastSentencePos st) = Ret r
     ∧ OnSynthEvent' metadata st
       = HRet () (log_call (call_SentenceBoundary (offset mod 2 ^ 64)
                              (found_at r mod 2 ^ 32) (len mod 2 ^ 32))
                    (set_lastSentencePos (cursor r) st))
     ∧ (found_at r = npos →
        found_at r mod 2 ^ 32 = 4294967295 ∧ cursor r = m_lastSentencePos st).
Proof.
  intros Hfit Hcb Htype Hdata Hoff Hinfo Htext Hlen.
  destruct (boundary_args_run info text len sentence_cursor st Hfit Htext Hlen)
    as (r & Hr & Hnpos & Hargs).
  exists r. split; [done|]. split.
  - unfold OnSynthEvent.
    rewrite (bind_lift_Ret _ (lit "SentenceBoundary"))
      by (by rewrite Htype).
    rewrite (bind_lift_Ret _ data) by done.
    rewrite (bind_lift_Ret _ (offset mod 2 ^ 64)) by (by rewrite Hoff).
    rewrite bind_gets, Hcb.
    rewrite (type_dispatch _ "SentenceBoundary" "Viseme") by done.
    rewrite (type_dispatch _ "SentenceBoundary" "WordBoundary") by done.
    rewrite bool_decide_eq_true_2 by done.
    rewrite (bind_lift_Ret _ info) by done.
    unfold when. cbv [mbind M_mbind M_bind]. by rewrite Hargs.
  - intros H. split; [by rewrite H|by apply Hnpos].
Qed.
End SynthFacts.

Lemma OnSynthEvent_without_callbacks_witness :
  m_callbacks connected = no_callbacks
  ∧ OnSynthEvent ascii_to_wide true (word_event "word" 500000 4) connected
    = HRet () connected.
Proof.
  split; [reflexivity|].
  pose proof (OnSynthEvent_without_callbacks ascii_to_wide true
                (word_event "word" 500000 4) connected eq_refl) as H.
  destruct (OnSynthEvent _ _ _ _) as [[] st'|e st'| |] eqn:Hrun;
    simpl in H; by subst.
Defined.

Lemma OnSynthEvent_word_boundary_witness :
  ∃ r, FindWord ascii_to_wide (m_ssml speaking) (lit "absent") 0 = Ret r
     ∧ found_at r = npos
     ∧ OnSynthEvent ascii_to_wide true (word_event "absent" 500000 6) speaking
       = HRet () (log_call (call_WordBoundary 500000 4294967295 6) speaking).
Proof.
  destruct (OnSynthEvent_word_boundary ascii_to_wide true
              (word_event "absent" 500000 6)
              (JObj [("Offset"%string, JNum 500000);
                     ("text"%string, JObj [
                        ("Text"%string, JStr (lit "absent"));
                        ("Length"%string, JNum 6);
                        ("BoundaryType"%string, JStr (lit "WordBoundary"))])])
              (JObj [("Text"%string, JStr (lit "absent"));
                     ("Length"%string, JNum 6);
                     ("BoundaryType"%string, JStr (lit "WordBoundary"))])
              (lit "absent") (lit "WordBoundary") 500000 6 speaking)
    as (r & Hr & Hrun & Hnpos); try reflexivity; try (by vm_compute).
  exists r. split; [exact Hr|].
  assert (found_at r = npos) as Hf.
  { vm_compute in Hr. by injection Hr as <-. }
  split; [exact Hf|].
  rewrite Hrun. destruct (Hnpos Hf) as [-> ->]. reflexivity.
Defined.

Lemma OnSynthEvent_sentence_boundary_witness :
  ∃ st', OnSynthEvent ascii_to_wide true (sentence_event "word" 0 4)
           (with_callbacks sentence_boundary_only speaking)
         = HRet () st'
       ∧ m_lastSentencePos st' = 9 ∧ m_lastWordPos st' = 0
       ∧ calls st' = [call_SentenceBoundary 0 5 4].
Proof.
  destruct (OnSynthEvent_sentence_boundary ascii_to_wide true
              (sentence_event "word" 0 4)
              (JObj [("Offset"%string, JNum 0);
                     ("text"%string, JObj [
                        ("Text"%string, JStr (lit "word"));
                        ("Length"%string, JNum 4);
                        ("BoundaryType"%string, JStr (lit "SentenceBoundary"))])])
              (JObj [("Text"%string, JStr (lit "word"));
                     ("Length"%string, JNum 4);
                     ("BoundaryType"%string, JStr (lit "SentenceBoundary"))])
              (lit "word") 0 4 (with_callbacks sentence_boundary_only speaking))
    as (r & Hr & Hrun & _); try reflexivity; try (by vm_compute).
  eexists. split; [exact Hrun|].
  vm_compute in Hr. injection Hr as <-. by vm_compute.
Defined.

(** ** The end of the turn *)

Lemma sv_find_first s w pos (k : nat) :
  fits s → pos ≤ N.of_nat k → (k ≤ length s)%nat →
  starts_with w (drop k s) = true →
  (∀ j : nat, pos ≤ N.of_nat j → (j < k)%nat →
              starts_with w (drop j s) = false) →
  sv_find s w pos = N.of_nat k.
Proof.
  intros Hfit Hpos Hk Hocc Hfirst.
  destruct (N.eq_dec (sv_find s w pos) npos) as [Hn|Hn].
  { by rewrite (sv_find_npos s w pos k Hfit Hn Hpos Hk) in Hocc. }
  destruct (sv_find_found _ _ _ _ eq_refl Hn) as (k' & Hk' & Hle & _ & Hocc' & Hmin).
  rewrite Hk'. f_equal.
  destruct (Nat.lt_trichotomy k' k) as [Hlt|[?|Hgt]]; [|done|].
  - rewrite Hfirst in Hocc'; [done|lia|done].
  - rewrite (Hmin k) in Hocc; [done|lia|done].
Qed.

Section TurnEnd.
Variable UTF8ToWString : string_view → string_view.
Variable json_parse : string_view → option json.
Variable args_left_to_right : bool.

(** X13. A text message of the current connection whose first [Path:]
    header reads [turn.end] ends the session in the normal way: the
    connection is closed and forgotten and the audio queue is marked
    done; the queue itself, the cursors and the completion handle are as
    they were, and no callback is called. The body is not looked at. *)
Theorem OnMessage_turn_end hdl head body text st :
  text = head ++ lit "Path:turn.end" ++ crlf ++ crlf ++ body →
  fits text →
  (∀ j : nat, (j < length head)%nat →
              starts_with (lit "Path:") (drop j text) = false) →
  m_connection st = Some hdl →
  OnMessage UTF8ToWString json_parse args_left_to_right hdl
    (text_message text) st
  = HRet () (set_mp3QueueDone true
               (set_connection None (log_call (call_close hdl) st))).
Proof.
  intros Htext Hfit Hhead Hcur.
  set (tail := lit "Path:turn.end" ++ crlf ++ crlf ++ body) in *.
  assert (length text = (length head + 17 + length body)%nat) as Hlen.
  { rewrite Htext, length_app. unfold tail. rewrite !length_app. simpl. lia. }
  pose proof (fits_lt_size_max _ Hfit) as Hmax. unfold sv_size in Hmax.
  assert (∀ k, drop (length head + k) text = drop k tail) as Hdrop.
  { intros k. by rewrite Htext, drop_app_add. }
  assert (sv_find text (lit "Path:") 0 = N.of_nat (length head)) as Hstart.
  { apply sv_find_first; [done|lia|lia| |].
    - rewrite <- (Nat.add_0_r (length head)), Hdrop. done.
    - intros j _ Hj. by apply Hhead. }
  assert (sv_find text (crlf ++ crlf) (N.of_nat (length head) + 5)
          = N.of_nat (length head + 13)) as Hend.
  { apply sv_find_first; [done|lia|lia| |].
    - rewrite Hdrop. done.
    - intros j Hj1 Hj2.
      replace j with (length head + (j - length head))%nat by lia.
      rewrite Hdrop.
      assert (∃ i, (j - length head = 5 + i)%nat ∧ (i < 8)%nat) as (i & -> & Hi)
        by (exists (j - length head - 5)%nat; lia).
      do 8 (destruct i as [|i]; [done|]). lia. }
  unfold OnMessage. cbv [mbind M_mbind M_bind].
  rewrite IsCurrentConnection_current by done. simpl negb. cbv iota.
  rewrite Hstart.
  destruct (N.eqb_spec (N.of_nat (length head)) npos) as [Hn|_].
  { unfold fits, sv_size in Hfit. lia. }
  rewrite size_add_small by lia. rewrite Hend.
  destruct (N.eqb_spec (N.of_nat (length head + 13)) npos) as [Hn|_].
  { unfold fits, sv_size in Hfit. lia. }
  rewrite size_sub_small by lia.
  unfold sv_substr, sv_size.
  destruct (N.ltb_spec (N.of_nat (length text)) (N.of_nat (length head) + 5));
    [lia|].
  replace (N.to_nat (N.of_nat (length head) + 5)) with (length head + 5)%nat
    by lia.
  rewrite Hdrop.
  replace (N.to_nat (N.min _ _)) with 8%nat by lia.
  done.
Qed.
End TurnEnd.

Lemma OnMessage_turn_end_witness :
  ∃ st', OnMessage ascii_to_wide (parse_table metadata_table) true 7%nat
           (text_message turn_end_message) two_pending
         = HRet () st'
       ∧ m_connection st' = None ∧ m_mp3QueueDone st' = true
       ∧ m_mp3Queue st' = [p1; p2] ∧ calls st' = [call_close 7%nat].
Proof.
  eexists. split.
  - apply (OnMessage_turn_end ascii_to_wide (parse_table metadata_table) true
             7%nat (lit "X-RequestId:0123" ++ crlf) (lit "{}")).
    + reflexivity.
    + by vm_compute.
    + intros j Hj. change (length (lit "X-RequestId:0123" ++ crlf)) with 18%nat in Hj.
      do 18 (destruct j as [|j]; [by vm_compute|]). lia.
    + reflexivity.
  - by split_and!.
Defined.


(** ** More on the audio pipeline *)

Section WorkerFacts.
Variable Decoder : Type.
Variable Mp3Decoder_new : Decoder.
Variable Convert : Decoder → string_view → Decoder * option exn.

Local Abbreviation worker := (mkWorker Decoder).
Local Abbreviation step := (Mp3Thread_step Decoder Mp3Decoder_new Convert).
Local Abbreviation run := (run Decoder Mp3Decoder_new Convert).
Local Abbreviation act := (act Decoder Mp3Decoder_new Convert).
Local Abbreviation decode_one' := (decode_one Decoder Convert).
Local Abbreviation decode_list' := (decode_list Decoder Convert).
Local Abbreviation step_case := (step_case Decoder Mp3Decoder_new Convert).

Lemma Mp3Thread_step_cases w st : coherent st → step_case w st (step w st).
Proof.
  intros Hco. unfold Mp3Thread_step.
  destruct (returned Decoder w) eqn:Hret; [by constructor|].
  destruct (msg Decoder w) as [m|] eqn:Hmsg.
  - destruct (mp3data_of_cases m) as [[o Ho]|Hu].
    2: { unfold Mp3Thread_unlocked. cbv [mbind M_mbind M_bind lift].
         rewrite Hu. by eapply step_malformed. }
    rewrite (Mp3Thread_unlocked_audio _ _ _ _ _ _ Ho).
    replace (match audio_of m with
             | Some data => _
             | None => _
             end)
      with (HRet (worker (fst (decode_one' m (mp3Decoder Decoder w, st))) None false)
                 (snd (decode_one' m (mp3Decoder Decoder w, st)))).
    { by eapply step_decoded. }
    unfold decode_one. simpl. destruct (audio_of m) as [data|]; [|done].
    cbv [mbind M_mbind M_bind modify].
    destruct (Convert _ data) as [dec [e|]]; simpl; [|done].
    cbv [try_catch throw mbind M_mbind M_bind].
    change (SpeakError e) with (fire (Failure e)).
    by rewrite fire_coherent.
  - unfold Mp3Thread_locked.
    cbv [catching mbind M_mbind M_bind gets mret M_mret modify].
    destruct (m_mp3Queue st) as [|front rest] eqn:Hq;
      destruct (m_isStopping st) eqn:Hstop; simpl.
    + by apply step_stopped.
    + destruct (m_mp3QueueDone st) eqn:Hdone.
      * change SpeakComplete with (fire Success).
        rewrite fire_coherent by done. by apply step_completed.
      * by apply step_waiting.
    + by apply step_stopped.
    + by eapply step_dequeued.
Qed.
Lemma decode_one_kept m d st :
  m_isPromiseSet st = true →
  result_kept st (snd (decode_one' m (d, st))).
Proof.
  intros Hflag. unfold decode_one, result_kept. simpl.
  destruct (audio_of m) as [data|]; [|done].
  destruct (Convert d data) as [dec [e|]]; simpl; [|done].
  unfold fired. simpl. by rewrite Hflag.
Qed.


(** *** A resolved handle stays as it is *)

Lemma act_kept a w st w' st' :
  m_isPromiseSet st = true → act a w st = HRet w' st' → result_kept st st'.
Proof.
  intros Hflag.
  assert (coherent st) as Hco by (intros ?; congruence).
  destruct a as [m| | |]; simpl;
    cbv [mbind M_mbind M_bind Mp3QueuePush Mp3QueueDone Stop modify gets
         reset_connection mret M_mret].
  - by intros [= <- <-].
  - by intros [= <- <-].
  - by destruct (m_connection st) as [hdl|]; simpl; intros [= <- <-].
  - destruct (Mp3Thread_step_cases w st Hco); intros [= <- <-]; try done.
    + by apply decode_one_kept.
    + unfold result_kept, fired. simpl. by rewrite Hflag.
Qed.

Lemma run_kept acts :
  ∀ w st w' st',
    m_isPromiseSet st = true → run acts w st = HRet w' st' → result_kept st st'.
Proof.
  induction acts as [|a acts IH]; intros w st w' st' Hflag Hrun.
  { by injection Hrun as <- <-. }
  simpl in Hrun. cbv [mbind M_mbind M_bind] in Hrun.
  destruct (act a w st) as [w1 st1| | |] eqn:Hact; try done.
  destruct (act_kept _ _ _ _ _ Hflag Hact) as [Hflag1 Hprom1].
  destruct (IH _ _ _ _ Hflag1 Hrun) as [? ?].
  split; congruence.
Qed.

(** *** The worker outlives what it decodes *)

Lemma act_alive a w st :
  coherent st → m_isStopping st = false → returned Decoder w = false →
  Forall well_formed (in_flight w ++ m_mp3Queue st ++ pushed [a]) →
  ∃ w' st',
    act a w st = HRet w' st'
    ∧ coherent st' ∧ m_isStopping st' = false ∧ returned Decoder w' = false
    ∧ Forall well_formed (in_flight w' ++ m_mp3Queue st').
Proof.
  intros Hco Hstop Hret Hwf.
  destruct a as [m| | |]; simpl in *;
    cbv [mbind M_mbind M_bind Mp3QueuePush Mp3QueueDone Stop modify gets
         reset_connection mret M_mret].
  - eexists _, _. split; [done|]. simpl. by split_and!.
  - rewrite app_nil_r in Hwf. eexists _, _. split; [done|]. simpl. by split_and!.
  - rewrite app_nil_r in Hwf. apply Forall_app in Hwf as [Hw _].
    destruct (m_connection st) as [hdl|]; simpl;
      (eexists _, _; split; [done|]); simpl; rewrite app_nil_r; by split_and!.
  - rewrite app_nil_r in Hwf. unfold in_flight in *.
    destruct (Mp3Thread_step_cases w st Hco)
      as [?|m ? Hm Hbad|m o ? Hm _|?|front rest ? Hm _ Hq|? Hm _ Hq|]; try congruence.
    + rewrite Hm in Hwf. apply Forall_cons in Hwf as [Hwm _].
      destruct (mp3data_of_total m Hwm) as [o Ho]. congruence.
    + rewrite Hm in Hwf. apply Forall_cons in Hwf as [_ Hwf].
      destruct (decode_one_frame Decoder Convert m (mp3Decoder Decoder w, st) Hco)
        as (Hco' & Hstop' & Hq' & _). simpl in *.
      eexists _, _. split; [done|]. rewrite Hstop', Hq'. by split_and!.
    + rewrite Hm, Hq in Hwf. simpl in *.
      eexists _, _. split; [done|]. by split_and!.
    + eexists _, _. split; [done|]. simpl. split_and!.
      * exact (fired_coherent Success st Hco).
      * unfold fired. by destruct (m_isPromiseSet st).
      * done.
      * rewrite Hm in Hwf. unfold fired. by destruct (m_isPromiseSet st).
    + eexists _, _. split; [done|]. by split_and!.
Qed.
Lemma pushed_app acts1 acts2 : pushed (acts1 ++ acts2) = pushed acts1 ++ pushed acts2.
Proof. apply omap_app. Qed.

Lemma run_alive acts :
  ∀ w st,
    coherent st → m_isStopping st = false → returned Decoder w = false →
    Forall well_formed (in_flight w ++ m_mp3Queue st ++ pushed acts) →
    ∃ w' st',
      run acts w st = HRet w' st'
      ∧ coherent st' ∧ m_isStopping st' = false ∧ returned Decoder w' = false.
Proof.
  induction acts as [|a acts IH]; intros w st Hco Hstop Hret Hwf.
  { by exists w, st. }
  change (a :: acts) with ([a] ++ acts) in Hwf.
  rewrite pushed_app, !app_assoc in Hwf. apply Forall_app in Hwf as [Hwf1 Hwf2].
  rewrite <- app_assoc in Hwf1.
  destruct (act_alive a w st Hco Hstop Hret Hwf1)
    as (w1 & st1 & Hact & Hco1 & Hstop1 & Hret1 & Hwf1').
  destruct (IH w1 st1 Hco1 Hstop1 Hret1) as (w' & st' & Hrun & ?).
  { rewrite app_assoc. by apply Forall_app. }
  exists w', st'. split; [|done].
  simpl. cbv [mbind M_mbind M_bind]. by rewrite Hact.
Qed.

(** *** The worker once the object is being destroyed *)



End WorkerFacts.



(** X14. While the object is not being destroyed, [Mp3Thread] neither
    returns nor lets an exception escape: for every interleaving of
    pushes, done marks, stops and worker steps over messages of at least
    two bytes, and whatever [Convert] throws, the run returns with the
    worker still in its loop. *)
Theorem worker_keeps_running
    (Decoder : Type) (Mp3Decoder_new : Decoder)
    (Convert : Decoder → string_view → Decoder * option exn)
    (acts : list action) (w : Mp3Worker Decoder) (st : SpeechRestAPI) :
  coherent st → m_isStopping st = false → returned Decoder w = false →
  Forall well_formed (in_flight w ++ m_mp3Queue st ++ pushed acts) →
  ∃ w' st',
    run Decoder Mp3Decoder_new Convert acts w st = HRet w' st'
    ∧ returned Decoder w' = false ∧ m_isStopping st' = false.
Proof.
  intros Hco Hstop Hret Hwf.
  destruct (run_alive Decoder Mp3Decoder_new Convert acts w st Hco Hstop Hret Hwf)
    as (w' & st' & Hrun & _ & ? & ?).
  by exists w', st'.
Qed.

Lemma worker_keeps_running_witness :
  ∃ w' st',
    run (list string_view) [] strict_Convert
      [act_push p_empty; act_worker; act_worker; act_stop; act_push p1;
       act_worker; act_worker]
      (idle_worker []) fresh
    = HRet w' st'
    ∧ returned (list string_view) w' = false ∧ m_isStopping st' = false.
Proof.
  apply worker_keeps_running; try done.
  repeat constructor; by vm_compute.
Defined.



(** ** The completion handle over a session *)

Section ResultFacts.
Variable UTF8ToWString : string_view → string_view.
Variable WStringToUTF8 : string_view → string_view.
Variable json_parse : string_view → option json.
Variable json_dump : json → string_view.
Variable args_left_to_right : bool.

Local Abbreviation handle' :=
  (handle UTF8ToWString WStringToUTF8 json_parse json_dump args_left_to_right).
Local Abbreviation AsioThread' :=
  (AsioThread UTF8ToWString WStringToUTF8 json_parse json_dump
     args_left_to_right).

(** A handler leaves a resolved handle and the markup as they are. *)
Lemma handle_kept ev st :
  fits (m_ssml st) → m_isPromiseSet st = true →
  hres_sat (λ st', result_kept st st' ∧ m_ssml st' = m_ssml st)
           (λ st', result_kept st st' ∧ m_ssml st' = m_ssml st)
           (handle' ev st).
Proof.
  intros Hfit Hflag.
  assert (∀ st', advances st st' →
                 result_kept st st' ∧ m_ssml st' = m_ssml st) as Hadv.
  { intros st' ((? & _) & _ & ? & ? & _). unfold result_kept.
    split_and!; congruence. }
  destruct ev as [hdl s1 s2 r|hdl msg|hdl|hdl ec]; simpl.
  - unfold OnOpen. cbv [mbind M_mbind M_bind IsCurrentConnection gets].
    by destruct (bool_decide _).
  - unfold OnMessage.
    cbv [mbind M_mbind M_bind IsCurrentConnection gets].
    destruct (bool_decide _); simpl; [|done].
    destruct msg as [raw|text]; [done|].
    destruct (_ =? npos); [done|]. destruct (_ =? npos); [done|].
    fold (@mbind M _).
    eapply (sat_bind_to (advances st)).
    { eapply (hres_sat_weaken (advances st) _ (advances st));
        [intros ? H; exact H|exact Hadv|].
      apply sat_lift; [pure_tac|apply advances_refl]. }
    intros path st1 H1.
    destruct (bool_decide (path = lit "audio.metadata")).
    + eapply (hres_sat_weaken (advances st) _ (advances st));
        [exact Hadv|exact Hadv|].
      apply sat_bind.
      { apply sat_lift; [pure_tac|done]. }
      intros body st2 H2. apply sat_bind.
      { apply sat_lift; [by destruct (json_parse body)|done]. }
      intros doc st3 H3. apply sat_bind.
      { apply sat_lift; [pure_tac|done]. }
      intros metadata st4 H4.
      by apply for_each_OnSynthEvent_advances.
    + destruct (bool_decide (path = lit "turn.end")); [|by apply Hadv].
      simpl. apply Hadv in H1 as [[? ?] ?]. by split.
  - unfold OnClose. cbv [mbind M_mbind M_bind IsCurrentConnection gets].
    by destruct (bool_decide _).
  - unfold OnFail. cbv [mbind M_mbind M_bind IsCurrentConnection gets].
    destruct (bool_decide _); simpl; [|done].
    destruct ec as [e|]; cbv [try_catch throw]; simpl; [|done].
    change (SpeakError e) with (fire (Failure e)).
    by rewrite fire_resolved.
Qed.

Lemma AsioThread_dispatch_kept ev st :
  fits (m_ssml st) → m_isPromiseSet st = true →
  ∃ st1, AsioThread_dispatch UTF8ToWString WStringToUTF8 json_parse json_dump
           args_left_to_right ev st = HRet () st1
         ∧ result_kept st st1 ∧ m_ssml st1 = m_ssml st.
Proof.
  intros Hfit Hflag. unfold AsioThread_dispatch, try_catch.
  pose proof (handle_kept ev st Hfit Hflag) as Hh.
  destruct (handle' ev st) as [[] st1|e st1| |]; simpl in Hh; try done.
  - by exists st1.
  - exists st1. destruct Hh as [[? ?] ?].
    change (SpeakError e) with (fire (Failure e)).
    by rewrite fire_resolved.
Qed.

Lemma AsioThread_kept evs :
  ∀ st, fits (m_ssml st) → m_isPromiseSet st = true →
        ∃ st', AsioThread' evs st = HRet () st' ∧ result_kept st st'
               ∧ m_ssml st' = m_ssml st.
Proof.
  unfold AsioThread.
  induction evs as [|ev evs IH]; intros st Hfit Hflag; [by exists st|].
  destruct (AsioThread_dispatch_kept ev st Hfit Hflag)
    as (st1 & Hd & [Hflag1 Hprom1] & Hssml1).
  destruct (IH st1) as (st' & Hrun & [? ?] & ?); [congruence|done|].
  exists st'. split.
  - simpl. cbv [mbind M_mbind M_bind]. by rewrite Hd.
  - split; [split|]; congruence.
Qed.
End ResultFacts.

(** X7. A resolved completion handle is final within a session: once
    [SpeakComplete] or [SpeakError] has resolved it, no event of the
    transport (the event loop returns, whatever the handlers throw) and
    no interleaving of pushes, done marks, stops and worker steps changes
    the result. Only [SpeakAsync] replaces the handle. *)
Theorem resolved_result_is_final
    (UTF8ToWString WStringToUTF8 : string_view → string_view)
    (json_parse : string_view → option json) (json_dump : json → string_view)
    (args_left_to_right : bool)
    (Decoder : Type) (Mp3Decoder_new : Decoder)
    (Convert : Decoder → string_view → Decoder * option exn) st :
  fits (m_ssml st) → m_isPromiseSet st = true →
  (∀ evs, ∃ st',
     AsioThread UTF8ToWString WStringToUTF8 json_parse json_dump
       args_left_to_right evs st = HRet () st'
     ∧ result_kept st st')
  ∧ (∀ acts w w' st',
       run Decoder Mp3Decoder_new Convert acts w st = HRet w' st' →
       result_kept st st').
Proof.
  intros Hfit Hflag. split.
  - intros evs.
    destruct (AsioThread_kept UTF8ToWString WStringToUTF8 json_parse json_dump
                args_left_to_right evs st Hfit Hflag) as (st' & ? & ? & _).
    by exists st'.
  - intros acts w w' st' Hrun. by eapply run_kept.
Qed.

Lemma resolved_result_is_final_witness :
  ∃ st', AsioThread ascii_to_wide wide_to_ascii (parse_table metadata_table)
           dump true
           [ev_message 7%nat (text_message cut_short_message);
            ev_fail 7%nat (Some (system_error 2))]
           (fired Success speaking)
         = HRet () st'
       ∧ m_speakPromise st' = Some speak_value.
Proof.
  destruct (proj1 (resolved_result_is_final ascii_to_wide wide_to_ascii
                     (parse_table metadata_table) dump true
                     (list string_view) [] recording_Convert
                     (fired Success speaking) ltac:(by vm_compute) eq_refl)
              [ev_message 7%nat (text_message cut_short_message);
               ev_fail 7%nat (Some (system_error 2))])
    as (st' & Hrun & _ & Hprom).
  exists st'. split; [exact Hrun|]. by rewrite Hprom.
Defined.

Lemma fired_flag t st : m_isPromiseSet (fired t st) = true.
Proof. unfold fired. by destruct (m_isPromiseSet st) eqn:E. Qed.



(** X16. When the connection closes, the audio already received is
    still played: after [OnClose] on the current connection the worker,
    left to itself, decodes the message it holds and the queued ones in
    order, resolves the completion handle, with success when it was not
    resolved and [Convert] did not throw, clears the done mark and starts
    over with a new decoder. *)
Theorem OnClose_then_drain
    (Decoder : Type) (Mp3Decoder_new : Decoder)
    (Convert : Decoder → string_view → Decoder * option exn)
    hdl d o n st :
  m_connection st = Some hdl → coherent st → m_isStopping st = false →
  Forall well_formed (option_list o ++ m_mp3Queue st) →
  (2 * length (m_mp3Queue st) + length (option_list o) + 1 ≤ n)%nat →
  ∃ st1 st',
    OnClose hdl st = HRet () st1
    ∧ run Decoder Mp3Decoder_new Convert (replicate n act_worker)
        (mkWorker Decoder d o false) st1
      = HRet (mkWorker Decoder Mp3Decoder_new None false) st'
    ∧ converts (calls st')
      = converts (calls st) ++ omap audio_of (option_list o ++ m_mp3Queue st)
    ∧ m_isPromiseSet st' = true
    ∧ m_mp3Queue st' = [] ∧ m_mp3QueueDone st' = false
    ∧ m_connection st' = None
    ∧ (m_isPromiseSet st = false → (∀ d' data, snd (Convert d' data) = None) →
       m_speakPromise st' = Some speak_value).
Proof.
  intros Hcur Hco Hstop Hwf Hn.
  unfold OnClose. cbv [mbind M_mbind M_bind].
  rewrite IsCurrentConnection_current by done. simpl.
  cbv [reset_connection Mp3QueueDone modify].
  set (st0 := set_connection None st).
  eexists _, _. split; [reflexivity|].
  change (set_mp3QueueDone true st0)
    with (with_queue (m_mp3Queue st) true st0) at 1.
  rewrite (run_drain Decoder Mp3Decoder_new Convert n d o (m_mp3Queue st) st0)
    by done.
  split; [reflexivity|].
  set (ms := option_list o ++ m_mp3Queue st).
  destruct (decode_list_frame Decoder Convert ms (d, st0) Hco)
    as (Hco' & _ & _ & _).
  split_and!.
  - simpl. rewrite converts_fired. by rewrite converts_decode_list.
  - unfold with_queue. simpl. apply fired_flag.
  - done.
  - done.
  - unfold with_queue. simpl. clear Hwf Hco'. unfold fired.
    assert (∀ ds, m_connection (snd (decode_list Decoder Convert ms ds))
                  = m_connection (snd ds)) as Hcon.
    { induction ms as [|m ms IH]; intros ds; [done|].
      change (decode_list Decoder Convert (m :: ms) ds)
        with (decode_list Decoder Convert ms (decode_one Decoder Convert m ds)).
      rewrite IH. unfold decode_one. destruct (audio_of m) as [data|]; [|done].
      destruct (Convert (fst ds) data) as [dec [e|]]; simpl; [|done].
      unfold fired. by destruct (m_isPromiseSet _). }
    destruct (m_isPromiseSet _); simpl; by rewrite Hcon.
  - intros Hflag Hquiet.
    destruct (decode_list_quiet Decoder Convert ms (d, st0) Hquiet)
      as (_ & Hf & Hp). simpl in Hf, Hp.
    unfold with_queue. simpl. unfold fired. rewrite Hf, Hflag. done.
Qed.

Lemma OnClose_then_drain_witness :
  ∃ st1 st',
    OnClose 7%nat two_pending = HRet () st1
    ∧ run (list string_view) [] recording_Convert (replicate 5 act_worker)
        (idle_worker []) st1
      = HRet (idle_worker []) st'
    ∧ calls st' = [call_Convert [1]; call_Convert [2]; call_promise speak_value].
Proof.
  destruct (OnClose_then_drain (list string_view) [] recording_Convert
              7%nat [] None 5 two_pending)
    as (st1 & st' & Hclose & Hrun & _); try done.
  - repeat constructor; by vm_compute.
  - exists st1, st'. split; [exact Hclose|]. split; [exact Hrun|].
    vm_compute in Hclose. injection Hclose as <-.
    vm_compute in Hrun. by injection Hrun as <-.
Defined.

Lemma Stop_state st :
  ∃ st0, Stop st = HRet () (with_queue [] true st0)
       ∧ m_connection st0 = None
       ∧ m_isPromiseSet st0 = m_isPromiseSet st
       ∧ m_speakPromise st0 = m_speakPromise st
       ∧ m_isStopping st0 = m_isStopping st
       ∧ converts (calls st0) = converts (calls st).
Proof.
  unfold Stop.
  cbv [mbind M_mbind M_bind modify gets reset_connection mret M_mret].
  destruct (m_connection st) as [hdl|] eqn:Hcon; simpl.
  - exists (set_connection None (log_call (call_close hdl) st)).
    split; [done|]. split_and!; try done.
    simpl. by rewrite converts_app, app_nil_r.
  - exists st. split; [done|]. by split_and!.
Qed.

(** X17. [Stop] is reported as a completion, not as an error: after
    [Stop], two steps of the worker decode at most the message it already
    held, resolve the completion handle and clear the done mark; the
    queue is empty and the connection forgotten. When the handle was not
    resolved and the worker held no message, the result is success. *)
Theorem Stop_then_worker_completes
    (Decoder : Type) (Mp3Decoder_new : Decoder)
    (Convert : Decoder → string_view → Decoder * option exn)
    d o st :
  coherent st → m_isStopping st = false →
  Forall well_formed (option_list o) →
  ∃ st1 st',
    Stop st = HRet () st1
    ∧ run Decoder Mp3Decoder_new Convert (replicate 2 act_worker)
        (mkWorker Decoder d o false) st1
      = HRet (mkWorker Decoder Mp3Decoder_new None false) st'
    ∧ m_isPromiseSet st' = true
    ∧ m_mp3Queue st' = [] ∧ m_mp3QueueDone st' = false
    ∧ converts (calls st')
      = converts (calls st) ++ omap audio_of (option_list o)
    ∧ (m_isPromiseSet st = false → o = None →
       m_speakPromise st' = Some speak_value).
Proof.
  intros Hco Hstop Hwf.
  destruct (Stop_state st) as (st0 & HStop & Hcon & Hflag & Hprom & Hstop0 & Hconv).
  assert (coherent st0) as Hco0.
  { unfold coherent. rewrite Hflag, Hprom. exact Hco. }
  exists (with_queue [] true st0). eexists. split; [done|].
  rewrite (run_drain Decoder Mp3Decoder_new Convert 2 d o [] st0);
    [|congruence|done|by rewrite app_nil_r|destruct o; simpl; lia].
  split; [reflexivity|]. rewrite app_nil_r.
  unfold with_queue. simpl. split_and!.
  - apply fired_flag.
  - done.
  - done.
  - rewrite converts_fired, converts_decode_list. simpl. by rewrite Hconv.
  - intros Hf ->. simpl. unfold fired. rewrite Hflag, Hf. done.
Qed.

Lemma Stop_then_worker_completes_witness :
  ∃ st1 st',
    Stop two_pending = HRet () st1
    ∧ run (list string_view) [] recording_Convert (replicate 2 act_worker)
        (idle_worker []) st1
      = HRet (idle_worker []) st'
    ∧ calls st' = [call_close 7%nat; call_promise speak_value]
    ∧ m_speakPromise st' = Some speak_value.
Proof.
  destruct (Stop_then_worker_completes (list string_view) [] recording_Convert
              [] None two_pending)
    as (st1 & st' & HStop & Hrun & _ & _ & _ & _ & Hprom); try done.
  exists st1, st'. split; [exact HStop|]. split; [exact Hrun|].
  split; [|by apply Hprom].
  vm_compute in HStop. injection HStop as <-.
  vm_compute in Hrun. by injection Hrun as <-.
Defined.

(** X18. [SpeakAsync] does not clear the done mark that [Stop] leaves
    for the worker. When [SpeakAsync] follows [Stop] before the worker
    has looked at the queue, the worker's next step takes the mark for
    the end of the new session: it resolves the new completion handle
    with success although no audio of the new session has arrived, and
    the connection of the new session stays open. *)
Theorem Stop_then_SpeakAsync_completes_early
    (Decoder : Type) (Mp3Decoder_new : Decoder)
    (Convert : Decoder → string_view → Decoder * option exn)
    d ssml con st :
  m_isStopping st = false →
  ∃ st1 st2,
    (Stop ≫= λ _, SpeakAsync ssml con) st = HRet () st1
    ∧ m_speakPromise st1 = None ∧ m_mp3QueueDone st1 = true
    ∧ Mp3Thread_step Decoder Mp3Decoder_new Convert (idle_worker d) st1
      = HRet (idle_worker Mp3Decoder_new) st2
    ∧ m_speakPromise st2 = Some speak_value
    ∧ m_connection st2 = Some con
    ∧ converts (calls st2) = converts (calls st).
Proof.
  intros Hstop.
  destruct (Stop_state st) as (st0 & HStop & _ & _ & _ & Hstop0 & Hconv).
  cbv [mbind M_mbind M_bind]. rewrite HStop.
  eexists _, _. split; [reflexivity|]. split; [reflexivity|].
  split; [reflexivity|].
  unfold Mp3Thread_step, Mp3Thread_locked. simpl.
  cbv [catching mbind M_mbind M_bind gets]. simpl. rewrite Hstop0, Hstop.
  split; [reflexivity|]. simpl. split_and!; [done|done|].
  rewrite !converts_app. simpl. by rewrite !app_nil_r.
Qed.

Lemma Stop_then_SpeakAsync_completes_early_witness :
  ∃ st1 st2,
    (Stop ≫= λ _, SpeakAsync markup_example 8%nat) two_pending = HRet () st1
    ∧ Mp3Thread_step (list string_view) [] recording_Convert (idle_worker [])
        st1
      = HRet (idle_worker []) st2
    ∧ calls st2 = [call_close 7%nat; call_connect 8%nat;
                   call_promise speak_value].
Proof.
  destruct (Stop_then_SpeakAsync_completes_early (list string_view) []
              recording_Convert [] markup_example 8%nat two_pending eq_refl)
    as (st1 & st2 & HStop & _ & _ & Hstep & _).
  exists st1, st2. split; [exact HStop|]. split; [exact Hstep|].
  vm_compute in HStop. injection HStop as <-.
  vm_compute in Hstep. by injection Hstep as <-.
Defined.

(** ** Voice names *)

Section TrimFacts.
Variable iswpunct : N → bool.
Variable iswspace : N → bool.

Local Abbreviation first_punct' := (first_punct iswpunct).
Local Abbreviation back_over_spaces' := (back_over_spaces iswspace).
Local Abbreviation TrimVoiceName' := (TrimVoiceName iswpunct iswspace).

Lemma first_punct_le s : (first_punct' s ≤ length s)%nat.
Proof.
  induction s as [|ch s IH]; simpl; [lia|].
  destruct (negb _ && negb _); simpl; lia.
Qed.

Lemma first_punct_clean s (i : nat) :
  (i < first_punct' s)%nat →
  ∃ ch, s !! i = Some ch ∧ ch ≠ 0 ∧ iswpunct ch = false.
Proof.
  revert i. induction s as [|ch s IH]; intros i; simpl; [lia|].
  destruct (N.eqb_spec ch 0) as [|Hch]; simpl; [lia|].
  destruct (iswpunct ch) eqn:Hp; simpl; [lia|].
  destruct i as [|i]; intros Hi; [by exists ch|].
  apply IH. lia.
Qed.

Lemma first_punct_stop s :
  c_str_at s (first_punct' s) = 0
  ∨ iswpunct (c_str_at s (first_punct' s)) = true.
Proof.
  induction s as [|ch s IH]; simpl; [by left|].
  destruct (N.eqb_spec ch 0) as [->|Hch]; simpl; [by left|].
  destruct (iswpunct ch) eqn:Hp; simpl; [by right|]. exact IH.
Qed.

Lemma first_punct_take s (n : nat) :
  (n ≤ first_punct' s)%nat → first_punct' (take n s) = n.
Proof.
  revert n. induction s as [|ch s IH]; intros n; simpl.
  { intros Hn. by replace n with 0%nat by lia. }
  destruct n as [|n]; [done|]. simpl.
  destruct (negb _ && negb _); simpl; [|lia].
  intros Hn. rewrite IH; [done|lia].
Qed.

Lemma c_str_at_Some (s : list N) (i : nat) ch :
  s !! i = Some ch → c_str_at s i = ch.
Proof. intros H. unfold c_str_at. by rewrite H. Qed.

Lemma c_str_at_drop (s : list N) (n i : nat) :
  c_str_at (drop n s) i = c_str_at s (n + i).
Proof. unfold c_str_at. by rewrite lookup_drop. Qed.

Lemma c_str_at_take s (n k : nat) :
  (k < n)%nat → c_str_at (take n s) k = c_str_at s k.
Proof. intros Hk. unfold c_str_at. f_equal. by apply lookup_take_lt. Qed.

Lemma back_over_spaces_le s i : (back_over_spaces' s i ≤ i)%nat.
Proof.
  induction i as [|i IH]; simpl; [lia|]. destruct (iswspace _); lia.
Qed.

Lemma back_over_spaces_stop s i :
  back_over_spaces' s i ≠ 0%nat →
  iswspace (c_str_at s (back_over_spaces' s i)) = false.
Proof.
  induction i as [|i IH]; simpl; [done|].
  destruct (iswspace (c_str_at s (S i))) eqn:Hsp; [exact IH|done].
Qed.

Lemma back_over_spaces_passed s i (j : nat) :
  (back_over_spaces' s i < j)%nat → (j ≤ i)%nat →
  iswspace (c_str_at s j) = true.
Proof.
  induction i as [|i IH]; simpl; [lia|].
  destruct (iswspace (c_str_at s (S i))) eqn:Hsp; [|lia].
  intros Hlt Hle. destruct (decide (j = S i)) as [->|]; [done|].
  apply IH; lia.
Qed.

Lemma back_over_spaces_fixed s k :
  iswspace (c_str_at s k) = false → back_over_spaces' s k = k.
Proof. destruct k as [|k]; simpl; [done|]. by intros ->. Qed.

Lemma back_over_spaces_take s (n i : nat) :
  (i < n)%nat → back_over_spaces' (take n s) i = back_over_spaces' s i.
Proof.
  induction i as [|i IH]; simpl; [done|]. intros Hi.
  rewrite c_str_at_take by done. rewrite IH by lia. done.
Qed.

(** The two ways [TrimVoiceName] ends: the name is left as it is, or cut
    after the character at offset [k]. *)
Lemma TrimVoiceName_cases longName :
  TrimVoiceName' longName = Ret longName
  ∨ ∃ k : nat,
      (1 ≤ k)%nat ∧ (k + 1 ≤ first_punct' longName)%nat
      ∧ TrimVoiceName' longName = Ret (take (k + 1) longName)
      ∧ iswspace (c_str_at longName k) = false
      ∧ ∀ j : nat, (k < j)%nat → (j < first_punct' longName)%nat →
                   iswspace (c_str_at longName j) = true.
Proof.
  unfold TrimVoiceName.
  destruct (Nat.eqb_spec (first_punct' longName) 0) as [|Hfp]; [by left|].
  set (k := back_over_spaces' longName (first_punct' longName - 1)).
  destruct (Nat.eqb_spec k 0) as [|Hk]; [by left|].
  right. exists k.
  pose proof (back_over_spaces_le longName (first_punct' longName - 1)) as Hle.
  pose proof (first_punct_le longName) as Hlen.
  fold k in Hle. split_and!; [lia|lia| | |].
  - unfold wstring_erase_from, sv_size.
    destruct (N.ltb_spec (N.of_nat (length longName)) (N.of_nat k + 1)); [lia|].
    do 2 f_equal. lia.
  - by apply back_over_spaces_stop.
  - intros j Hj1 Hj2.
    apply (back_over_spaces_passed longName (first_punct' longName - 1)); [done|lia].
Qed.
(** X19. [TrimVoiceName] does not throw, and what it leaves is a prefix
    of the name: the name itself, or a prefix of at least two
    characters. A name is never trimmed to nothing. *)
Theorem TrimVoiceName_prefix longName :
  ∃ r, TrimVoiceName iswpunct iswspace longName = Ret r
     ∧ r `prefix_of` longName
     ∧ (r = longName ∨ (2 ≤ length r)%nat).
Proof.
  destruct (TrimVoiceName_cases longName)
    as [H|(k & Hk1 & Hk2 & H & _)]; rewrite H.
  - exists longName. split; [done|]. split; [done|by left].
  - pose proof (first_punct_le longName) as Hlen.
    eexists. split; [done|]. split.
    + exists (drop (k + 1) longName). by rewrite take_drop.
    + right. rewrite length_take. lia.
Qed.

(** X20. Trimming a trimmed name changes nothing. *)
Theorem TrimVoiceName_idempotent longName :
  TrimVoiceName iswpunct iswspace longName
  ≫= TrimVoiceName iswpunct iswspace = TrimVoiceName iswpunct iswspace longName.
Proof.
  destruct (TrimVoiceName_cases longName)
    as [H|(k & Hk1 & Hk2 & H & Hstop & _)]; rewrite H.
  { done. }
  pose proof (first_punct_le longName) as Hlen.
  change (Ret (take (k + 1) longName) ≫= TrimVoiceName')
    with (TrimVoiceName' (take (k + 1) longName)).
  unfold TrimVoiceName.
  rewrite first_punct_take by done.
  destruct (Nat.eqb_spec (k + 1) 0) as [|_]; [lia|].
  replace (k + 1 - 1)%nat with k by lia.
  rewrite back_over_spaces_take by lia.
  rewrite back_over_spaces_fixed by done.
  destruct (Nat.eqb_spec k 0) as [|_]; [lia|].
  unfold wstring_erase_from, sv_size. rewrite length_take.
  destruct (N.ltb_spec (N.of_nat ((k + 1) `min` length longName))
              (N.of_nat k + 1)); [lia|].
  replace (N.to_nat (N.of_nat k + 1)) with (k + 1)%nat by lia.
  f_equal. apply take_idemp.
Qed.

(** X21. When [TrimVoiceName] shortens a name, it cuts it in front of
    the spaces that precede the first punctuation character (or an
    embedded null): the name is the result, then spaces only, then a rest
    that starts with that character; the result holds no punctuation and
    does not end in a space. *)
Theorem TrimVoiceName_cut longName r :
  TrimVoiceName iswpunct iswspace longName = Ret r → r ≠ longName →
  ∃ spaces rest,
    longName = r ++ spaces ++ rest
    ∧ Forall (λ ch, ch ≠ 0 ∧ iswpunct ch = false) r
    ∧ (∃ r' ch, r = r' ++ [ch] ∧ iswspace ch = false)
    ∧ Forall (λ ch, iswspace ch = true) spaces
    ∧ (c_str_at rest 0 = 0 ∨ iswpunct (c_str_at rest 0) = true).
Proof.
  intros Hr Hne.
  destruct (TrimVoiceName_cases longName)
    as [H|(k & Hk1 & Hk2 & H & Hstop & Hspaces)]; rewrite H in Hr.
  { by injection Hr as <-. }
  injection Hr as <-.
  pose proof (first_punct_le longName) as Hlen.
  set (fp := first_punct' longName) in *.
  exists (take (fp - (k + 1)) (drop (k + 1) longName)), (drop fp longName).
  split_and!.
  - rewrite <- (take_drop (k + 1) longName) at 1. f_equal.
    rewrite <- (take_drop (fp - (k + 1)) (drop (k + 1) longName)) at 1.
    f_equal. rewrite drop_drop. f_equal. lia.
  - apply Forall_lookup. intros i ch [Hi Hlt]%lookup_take_Some.
    destruct (first_punct_clean longName i) as (ch' & Hch' & ? & ?);
      [fold fp; lia|].
    by pose proof (eq_trans (eq_sym Hi) Hch') as [= <-].
  - destruct (longName !! k) as [ch|] eqn:Hch.
    + exists (take k longName), ch. split.
      * replace (k + 1)%nat with (S k) by lia.
        by apply take_S_r.
      * by rewrite (c_str_at_Some _ _ _ Hch) in Hstop.
    + apply lookup_ge_None in Hch. lia.
  - apply Forall_lookup. intros i ch [Hi Hlt]%lookup_take_Some.
    rewrite lookup_drop in Hi.
    specialize (Hspaces (k + 1 + i)%nat).
    rewrite (c_str_at_Some _ _ _ Hi) in Hspaces.
    apply Hspaces; lia.
  - rewrite c_str_at_drop, Nat.add_0_r. apply first_punct_stop.
Qed.
End TrimFacts.

Lemma TrimVoiceName_cut_witness :
  TrimVoiceName ascii_iswpunct ascii_iswspace aria_name
  = Ret (lit "Microsoft Aria")
  ∧ ∃ spaces rest,
      aria_name = lit "Microsoft Aria" ++ spaces ++ rest
      ∧ Forall (λ ch, ascii_iswspace ch = true) spaces
      ∧ (c_str_at rest 0 = 0 ∨ ascii_iswpunct (c_str_at rest 0) = true).
Proof.
  split; [by vm_compute|].
  destruct (TrimVoiceName_cut ascii_iswpunct ascii_iswspace aria_name
              (lit "Microsoft Aria"))
    as (spaces & rest & ? & _ & _ & ? & ?); [by vm_compute|by vm_compute|].
  by exists spaces, rest.
Defined.

(** ** The language filter *)

Lemma c_str_at_end (s : list N) : c_str_at s (length s) = 0.
Proof. unfold c_str_at. by rewrite lookup_ge_None_2. Qed.

Section LanguageFacts.
Variable EqualsIgnoreCase : string_view → string_view → bool.

Local Abbreviation IsLanguageInList' := (IsLanguageInList EqualsIgnoreCase).

Local Abbreviation item_matches' := (item_matches EqualsIgnoreCase).

Lemma IsLanguageInList_spec language languages :
  IsLanguageInList' language languages = true
  ↔ ∃ item, item ∈ languages ∧ item_matches' language item.
Proof.
  unfold item_matches.
  induction languages as [|item languages IH]; simpl.
  { split; [done|]. intros (? & []%elem_of_nil & _). }
  unfold sv_size in *.
  destruct (N.ltb_spec (N.of_nat (length language)) (N.of_nat (length item)))
    as [Hlt|Hge].
  { rewrite IH. split.
    - intros (i & ? & ?). exists i. by rewrite elem_of_cons; auto.
    - intros (i & [->|?]%elem_of_cons & Hi); [lia|]. by exists i. }
  destruct (N.eqb_spec (N.of_nat (length language)) (N.of_nat (length item)))
    as [Heq|Hne]; simpl.
  - assert (take (length item) language = language) as Htake
      by (apply take_ge; lia).
    assert (c_str_at language (length item) = 0) as Hend.
    { replace (length item) with (length language) by lia.
      apply c_str_at_end. }
    rewrite Hend, Htake. simpl.
    destruct (EqualsIgnoreCase language item) eqn:Heqi.
    + split; [|done]. intros _. exists item.
      rewrite elem_of_cons, Hend, Htake. auto.
    + rewrite IH. split.
      * intros (i & ? & ?). exists i. by rewrite elem_of_cons; auto.
      * intros (i & [->|?]%elem_of_cons & Hi); [|by exists i].
        rewrite Htake in Hi. destruct Hi as (_ & _ & Hi). congruence.
  - destruct (N.eqb_spec (c_str_at language (length item)) 45) as [H45|H45];
      simpl.
    + destruct (EqualsIgnoreCase (take (length item) language) item) eqn:Hpre.
      * split; [|done]. intros _. exists item. rewrite elem_of_cons. auto.
      * rewrite IH. split.
        -- intros (i & ? & ?). exists i. by rewrite elem_of_cons; auto.
        -- intros (i & [->|?]%elem_of_cons & Hi); [|by exists i].
           destruct Hi as (_ & _ & Hi). congruence.
    + destruct (N.eqb_spec (c_str_at language (length item)) 0) as [H0|H0];
        simpl.
      * destruct (EqualsIgnoreCase (take (length item) language) item) eqn:Hpre.
        -- split; [|done]. intros _. exists item. rewrite elem_of_cons. auto.
        -- rewrite IH. split.
           ++ intros (i & ? & ?). exists i. by rewrite elem_of_cons; auto.
           ++ intros (i & [->|?]%elem_of_cons & Hi); [|by exists i].
              destruct Hi as (_ & _ & Hi). congruence.
      * rewrite IH. split.
        -- intros (i & ? & ?). exists i. by rewrite elem_of_cons; auto.
        -- intros (i & [->|?]%elem_of_cons & Hi); [|by exists i].
           destruct Hi as (_ & [?|?] & _); congruence.
Qed.
(** X22. [IsLanguageInList] answers true exactly when some item of the
    list is no longer than the language and equals, ignoring case, the
    prefix of the language of the item's length, where that prefix ends
    at the end of the language or in front of a hyphen (or of a null
    character). On the empty list the answer is false. *)
Theorem IsLanguageInList_iff language languages :
  (IsLanguageInList EqualsIgnoreCase language languages = true
   ↔ ∃ item, item ∈ languages ∧ item_matches EqualsIgnoreCase language item)
  ∧ IsLanguageInList EqualsIgnoreCase language [] = false.
Proof. split; [apply IsLanguageInList_spec|done]. Qed.

End LanguageFacts.


(** ** The list of online voices *)

Section OnlineFacts.
Variable EqualsIgnoreCase : string_view → string_view → bool.
Variable Token : Type.
Variable tokenMaker : json → outcome Token.
Variable UTF8ToWString : string_view → string_view.
Variable LangIDFromLocaleName : string_view → N.
Variable universalSupported : bool.
Variable supportedLangs : gset N.
Variable userLangs : gset N.
Variable allLanguages : bool.
Variable languages : list string_view.

Local Abbreviation body :=
  (EnumOnlineVoices_voice EqualsIgnoreCase Token tokenMaker UTF8ToWString
     LangIDFromLocaleName universalSupported supportedLangs userLangs
     allLanguages languages).
Local Abbreviation loop :=
  (EnumOnlineVoices_loop EqualsIgnoreCase Token tokenMaker UTF8ToWString
     LangIDFromLocaleName universalSupported supportedLangs userLangs
     allLanguages languages).
Local Abbreviation listed :=
  (voice_listed EqualsIgnoreCase tokenMaker UTF8ToWString
     LangIDFromLocaleName universalSupported supportedLangs userLangs
     allLanguages languages).

Lemma try_emplace_subseteq (key : string_view) (token : Token)
    (tokens : gmap (list N) Token) :
  tokens ⊆ try_emplace Token key token tokens.
Proof.
  unfold try_emplace. destruct (tokens !! key) eqn:E; [done|].
  by apply insert_subseteq.
Qed.

(** One turn of the loop: the voice is skipped, or it is listed and its
    token is put under its key unless the key is taken. *)
Lemma EnumOnlineVoices_voice_Ret tokens voice tokens' :
  body tokens voice = Ret tokens' →
  tokens' = tokens
  ∨ ∃ key token, listed voice key token
                 ∧ tokens' = try_emplace Token key token tokens.
Proof.
  unfold EnumOnlineVoices_voice, voice_listed.
  destruct (json_at voice "Locale" ≫= json_get_string) as [locale| | |];
    simpl; try done.
  destruct (voice_hidden _ _ _ _ _ _ _ _) eqn:Hhid.
  { intros [= <-]. by left. }
  destruct (json_at voice "ShortName" ≫= json_get_string) as [key| | |];
    simpl; try done.
  destruct (tokenMaker voice) as [token| | |] eqn:Htok; simpl; try done.
  intros [= <-]. right. exists key, token. split; [|done]. by exists locale.
Qed.

Lemma EnumOnlineVoices_voice_listed tokens voice key token :
  listed voice key token →
  body tokens voice = Ret (try_emplace Token key token tokens).
Proof.
  intros (locale & Hloc & Hhid & Hkey & Htok).
  unfold EnumOnlineVoices_voice. rewrite Hloc. simpl. rewrite Hhid, Hkey.
  simpl. by rewrite Htok.
Qed.

Lemma EnumOnlineVoices_loop_entries voices :
  ∀ tokens tokens' logged,
    loop tokens voices = Ret (tokens', logged) →
    tokens ⊆ tokens'
    ∧ ∀ key token,
        tokens' !! key = Some token →
        tokens !! key = Some token
        ∨ (tokens !! key = None
           ∧ ∃ voice, voice ∈ voices ∧ listed voice key token).
Proof.
  induction voices as [|voice voices IH]; intros tokens tokens' logged; simpl.
  { intros [= <- <-]. split; [done|]. auto. }
  destruct (body tokens voice) as [tokens1| | |] eqn:Hbody; try done.
  - intros Hloop. destruct (IH _ _ _ Hloop) as [Hsub Hnew].
    apply EnumOnlineVoices_voice_Ret in Hbody as [->|(k & t & Hlisted & ->)].
    + split; [done|]. intros key token Hkey.
      destruct (Hnew key token Hkey) as [?|(? & v & ? & ?)]; [by left|].
      right. split; [done|]. exists v. rewrite elem_of_cons. auto.
    + split; [by etrans; [apply try_emplace_subseteq|]|].
      intros key token Hkey.
      destruct (Hnew key token Hkey) as [Hold|(Hnone & v & ? & ?)].
      * unfold try_emplace in Hold.
        destruct (tokens !! k) eqn:Hk; [by left|].
        apply lookup_insert_Some in Hold as [[<- <-]|[_ ?]]; [|by left].
        right. split; [done|]. exists voice. rewrite elem_of_cons. auto.
      * right. split.
        -- unfold try_emplace in Hnone.
           destruct (tokens !! k) eqn:Hk; [done|].
           by apply lookup_insert_None in Hnone as [? _].
        -- exists v. rewrite elem_of_cons. auto.
  - intros [= <- <-]. split; [done|]. auto.
Qed.
Lemma EnumOnlineVoices_loop_app voices1 :
  ∀ voices2 tokens,
    loop tokens (voices1 ++ voices2)
    = match loop tokens voices1 with
      | Ret (tokens1, None) => loop tokens1 voices2
      | r => r
      end.
Proof.
  induction voices1 as [|voice voices1 IH]; intros voices2 tokens; simpl.
  { done. }
  destruct (body tokens voice) as [tokens1| | |]; [apply IH|done..].
Qed.

Lemma EnumOnlineVoices_loop_first voices1 :
  ∀ tokens tokens1 key,
    loop tokens voices1 = Ret (tokens1, None) →
    tokens !! key = None →
    (∀ v t, v ∈ voices1 → ¬ listed v key t) →
    tokens1 !! key = None.
Proof.
  induction voices1 as [|voice voices1 IH]; intros tokens tokens1 key; simpl.
  { by intros [= <-]. }
  destruct (body tokens voice) as [tokens'| | |] eqn:Hbody; try done.
  intros Hloop Hnone Hnot.
  apply (IH tokens'); [done| |].
  - apply EnumOnlineVoices_voice_Ret in Hbody as [->|(k & t & Hl & ->)]; [done|].
    unfold try_emplace. destruct (tokens !! k) eqn:Hk; [done|].
    apply lookup_insert_None. split; [done|]. intros <-.
    apply (Hnot voice t); [|done]. rewrite elem_of_cons. auto.
  - intros v t Hv. apply Hnot. rewrite elem_of_cons. auto.
Qed.

(** X24. [EnumOnlineVoices] returns, whatever the list holds, and only
    adds to the map: an entry that was in the map is still there with the
    same token, and an entry that is new stands under the short name of a
    voice of the list that passed the language tests, with the token made
    for that voice. So when Edge voices are to override Azure voices,
    where [EnumAzureVoices] works on the map filled by [EnumEdgeVoices],
    an Azure voice with the short name of an Edge voice is left out. *)
Theorem EnumOnlineVoices_entries tokens cached tokens' logged :
  EnumOnlineVoices EqualsIgnoreCase Token tokenMaker UTF8ToWString
    LangIDFromLocaleName universalSupported supportedLangs userLangs
    tokens cached allLanguages languages = Ret (tokens', logged) →
  tokens ⊆ tokens'
  ∧ ∀ key token,
      tokens' !! key = Some token →
      tokens !! key = Some token
      ∨ (tokens !! key = None
         ∧ ∃ list voice, cached = Ret list ∧ voice ∈ json_items list
                         ∧ listed voice key token).
Proof.
  unfold EnumOnlineVoices. destruct cached as [list|e| |]; try done.
  - intros Hloop.
    destruct (EnumOnlineVoices_loop_entries _ _ _ _ Hloop) as [Hsub Hnew].
    split; [done|]. intros key token Hkey.
    destruct (Hnew key token Hkey) as [?|(? & v & ? & ?)]; [by left|].
    right. split; [done|]. by exists list, v.
  - intros [= <- <-]. split; [done|]. auto.
Qed.

(** X25. When no voice of the list makes the loop throw, the first voice
    of the list that passes the language tests under a short name that
    the map does not hold yet gets its token into the map; later voices
    with the same short name do not replace it. *)
Theorem EnumOnlineVoices_first_wins voices1 voice voices2 key token
    tokens tokens' :
  EnumOnlineVoices_loop EqualsIgnoreCase Token tokenMaker UTF8ToWString
    LangIDFromLocaleName universalSupported supportedLangs userLangs
    allLanguages languages tokens (voices1 ++ voice :: voices2)
  = Ret (tokens', None) →
  tokens !! key = None →
  (∀ v t, v ∈ voices1 → ¬ listed v key t) →
  listed voice key token →
  tokens' !! key = Some token.
Proof.
  intros Hloop Hnone Hnot Hlisted.
  rewrite EnumOnlineVoices_loop_app in Hloop.
  destruct (loop tokens voices1) as [[tokens1 [e|]]| | |] eqn:H1; try done.
  pose proof (EnumOnlineVoices_loop_first _ _ _ _ H1 Hnone Hnot) as Hnone1.
  simpl in Hloop.
  rewrite (EnumOnlineVoices_voice_listed tokens1 voice key token Hlisted)
    in Hloop.
  destruct (EnumOnlineVoices_loop_entries _ _ _ _ Hloop) as [Hsub _].
  eapply lookup_weaken; [|exact Hsub].
  unfold try_emplace. rewrite Hnone1. apply lookup_insert_eq.
Qed.

(** X26. A voice of the list on which the loop throws, for instance one
    without [Locale] or [ShortName], ends the enumeration: the voices in
    front of it keep their entries, no voice behind it is looked at, and
    the exception is caught. *)
Theorem EnumOnlineVoices_stops_at_throw voices1 bad voices2 e tokens tokens1 :
  loop tokens voices1 = Ret (tokens1, None) →
  body tokens1 bad = Throw e →
  EnumOnlineVoices EqualsIgnoreCase Token tokenMaker UTF8ToWString
    LangIDFromLocaleName universalSupported supportedLangs userLangs
    tokens (Ret (JArr (voices1 ++ bad :: voices2))) allLanguages languages
  = Ret (tokens1, Some e).
Proof.
  intros H1 Hbad. unfold EnumOnlineVoices. simpl.
  rewrite EnumOnlineVoices_loop_app, H1. simpl. by rewrite Hbad.
Qed.
End OnlineFacts.

Lemma EnumOnlineVoices_entries_witness :
  ∃ tokens' logged,
    EnumOnlineVoices ascii_EqualsIgnoreCase string_view azure_token
      ascii_to_wide lang_id true ∅ ∅ edge_tokens (Ret azure_list) true []
    = Ret (tokens', logged)
    ∧ tokens' !! lit "en-US-AriaNeural" = Some (lit "Edge-en-US-AriaNeural")
    ∧ tokens' !! lit "de-DE-KatjaNeural" = Some (lit "Azure-de-DE-KatjaNeural").
Proof.
  destruct (EnumOnlineVoices ascii_EqualsIgnoreCase string_view azure_token
              ascii_to_wide lang_id true ∅ ∅ edge_tokens (Ret azure_list) true [])
    as [[tokens' logged]| | |] eqn:Hrun; [|vm_compute in Hrun; discriminate..].
  exists tokens', logged. split; [done|].
  destruct (EnumOnlineVoices_entries _ _ _ _ _ _ _ _ _ _ _ _ _ _ Hrun)
    as [Hsub _].
  split.
  - eapply lookup_weaken; [|exact Hsub]. by vm_compute.
  - vm_compute in Hrun. injection Hrun as <- _. by vm_compute.
Defined.

Lemma EnumOnlineVoices_first_wins_witness :
  ∃ tokens',
    EnumOnlineVoices_loop ascii_EqualsIgnoreCase string_view locale_token
      ascii_to_wide lang_id true ∅ ∅ false [lit "en"; lit "de"] ∅
      ([voice "fr-FR-DeniseNeural" "fr-FR"]
       ++ voice "AriaNeural" "en-US" :: [voice "AriaNeural" "en-GB"])
    = Ret (tokens', None)
    ∧ tokens' !! lit "AriaNeural" = Some (lit "en-US")
    ∧ tokens' !! lit "fr-FR-DeniseNeural" = None.
Proof.
  destruct (EnumOnlineVoices_loop ascii_EqualsIgnoreCase string_view
              locale_token ascii_to_wide lang_id true ∅ ∅ false
              [lit "en"; lit "de"] ∅
              ([voice "fr-FR-DeniseNeural" "fr-FR"]
               ++ voice "AriaNeural" "en-US" :: [voice "AriaNeural" "en-GB"]))
    as [[tokens' [e|]]| | |] eqn:Hrun; try (vm_compute in Hrun; discriminate).
  exists tokens'. split; [done|]. split.
  - apply (EnumOnlineVoices_first_wins _ _ _ _ _ _ _ _ _ _ _ _ _ _ _ _ _ Hrun).
    + done.
    + intros v t ->%list_elem_of_singleton (locale & _ & _ & Hkey & _).
      vm_compute in Hkey. discriminate.
    + exists (lit "en-US"). by vm_compute.
  - vm_compute in Hrun. injection Hrun as <-. by vm_compute.
Defined.

Lemma EnumOnlineVoices_stops_at_throw_witness :
  EnumOnlineVoices ascii_EqualsIgnoreCase string_view name_token
    ascii_to_wide lang_id true ∅ ∅ ∅
    (Ret (JArr ([voice "en-US-AriaNeural" "en-US"]
                ++ nameless_voice :: [voice "de-DE-KatjaNeural" "de-DE"])))
    true []
  = Ret ({[ lit "en-US-AriaNeural" := lit "en-US-AriaNeural" ]},
         Some out_of_range).
Proof.
  apply EnumOnlineVoices_stops_at_throw; by vm_compute.
Defined.

(** ** The key name of a local voice *)

Lemma rfind_from_spec (s : list N) ch :
  ∀ i, i + N.of_nat (length s) ≤ npos →
       (rfind_from s ch i = npos ∧ ch ∉ s)
       ∨ ∃ k : nat, rfind_from s ch i = i + N.of_nat k
                    ∧ s !! k = Some ch ∧ ch ∉ drop (S k) s.
Proof.
  induction s as [|c s IH]; intros i Hi; simpl.
  { left. split; [done|apply not_elem_of_nil]. }
  simpl in Hi.
  destruct (IH (i + 1)) as [[-> Hnot]|(k & -> & Hk & Hnot)]; [lia| |].
  - rewrite N.eqb_refl. destruct (N.eqb_spec c ch) as [->|Hc].
    + right. exists 0%nat. split_and!; [lia|done|done].
    + left. split; [done|]. rewrite not_elem_of_cons. by split.
  - apply lookup_lt_Some in Hk as Hlt.
    destruct (N.eqb_spec (i + 1 + N.of_nat k) npos) as [|_]; [lia|].
    right. exists (S k). split_and!; [lia|done|done].
Qed.

Lemma sv_rfind_char_spec (s : list N) ch :
  fits s →
  (sv_rfind_char s ch = npos ∧ ch ∉ s)
  ∨ ∃ k : nat, sv_rfind_char s ch = N.of_nat k ∧ (k < length s)%nat
               ∧ s !! k = Some ch ∧ ch ∉ drop (S k) s.
Proof.
  intros Hfit. unfold sv_rfind_char.
  destruct (rfind_from_spec s ch 0) as [?|(k & -> & Hk & ?)].
  { unfold fits, sv_size in Hfit. lia. }
  { by left. }
  right. exists k. split_and!; [lia|by eapply lookup_lt_Some|done|done].
Qed.

Section LocalVoiceFacts.
Variable UTF8ToWString : string_view → string_view.

Lemma MakeLocalVoiceToken_path_cases VoicePath :
  fits (UTF8ToWString VoicePath) → UTF8ToWString VoicePath ≠ [] →
  ∃ path,
    MakeLocalVoiceToken_path UTF8ToWString VoicePath = Ret path
    ∧ fits path
    ∧ ((UTF8ToWString VoicePath = path
        ∧ last path ≠ Some ch_slash ∧ last path ≠ Some ch_backslash)
       ∨ UTF8ToWString VoicePath = path ++ [ch_slash]
       ∨ UTF8ToWString VoicePath = path ++ [ch_backslash]).
Proof.
  intros Hfit Hne. unfold MakeLocalVoiceToken_path.
  destruct (UTF8ToWString VoicePath) as [|c l] eqn:Hp using rev_ind; [done|].
  clear IHl. rewrite last_snoc.
  pose proof (fits_lt_size_max _ Hfit) as Hmax.
  unfold sv_size in *. rewrite length_app in *. simpl in *.
  assert (fits l) as Hfit'.
  { unfold fits, sv_size in *. rewrite length_app in Hfit. simpl in Hfit. lia. }
  destruct (N.eqb_spec c ch_slash) as [->|Hs]; simpl.
  { exists l. rewrite size_sub_small by lia. unfold wstring_erase_from, sv_size.
    rewrite length_app. simpl.
    destruct (N.ltb_spec (N.of_nat (length l + 1)) (N.of_nat (length l + 1) - 1));
      [lia|].
    replace (N.to_nat _) with (length l) by lia.
    rewrite take_app_length. auto. }
  destruct (N.eqb_spec c ch_backslash) as [->|Hb]; simpl.
  { exists l. rewrite size_sub_small by lia. unfold wstring_erase_from, sv_size.
    rewrite length_app. simpl.
    destruct (N.ltb_spec (N.of_nat (length l + 1)) (N.of_nat (length l + 1) - 1));
      [lia|].
    replace (N.to_nat _) with (length l) by lia.
    rewrite take_app_length. auto. }
  exists (l ++ [c]). split; [done|]. split; [done|]. left.
  rewrite last_snoc. split_and!; congruence.
Qed.

(** The part of [path] between the last backslash and the first
    underscore behind it. *)
Lemma name_segment (path : list N) namePrefix :
  fits path →
  ∃ before seg after,
    (let name_start := sv_rfind_char path ch_backslash in
     let name_start := if name_start =? npos then 0 else size_add name_start 1 in
     let name_end := sv_find_char path ch_underscore name_start in
     let name_end := if name_end =? npos then sv_size path else name_end in
     seg ← sv_substr path name_start (size_sub name_end name_start);
     Ret (namePrefix ++ seg)) = Ret (namePrefix ++ seg)
    ∧ path = before ++ seg ++ after
    ∧ (ch_backslash ∉ seg ++ after)
    ∧ (ch_underscore ∉ seg)
    ∧ (before = [] ∨ last before = Some ch_backslash)
    ∧ (after = [] ∨ head after = Some ch_underscore).
Proof.
  intros Hfit. pose proof (fits_lt_size_max _ Hfit) as Hmax.
  unfold sv_size in Hmax. cbv zeta.
  assert (∃ ns : nat,
            (if sv_rfind_char path ch_backslash =? npos then 0
             else size_add (sv_rfind_char path ch_backslash) 1) = N.of_nat ns
            ∧ (ns ≤ length path)%nat
            ∧ (ch_backslash ∉ drop ns path)
            ∧ (take ns path = [] ∨ last (take ns path) = Some ch_backslash))
    as (ns & -> & Hns & Hback & Hbefore).
  { destruct (sv_rfind_char_spec path ch_backslash Hfit)
      as [[-> Hnot]|(k & -> & Hk & Hat & Hnot)].
    - exists 0%nat. rewrite N.eqb_refl. split_and!; [done|lia|done|by left].
    - destruct (N.eqb_spec (N.of_nat k) npos) as [|_].
      { unfold fits, sv_size in Hfit. lia. }
      exists (S k). rewrite size_add_small by lia.
      split_and!; [lia|lia|done|]. right.
      rewrite (take_S_r _ _ _ Hat). apply last_snoc. }
  destruct (N.eq_dec (sv_find_char path ch_underscore (N.of_nat ns)) npos)
    as [Hf|Hf].
  - rewrite Hf, N.eqb_refl.
    apply sv_find_char_npos in Hf; [|done]. rewrite Nat2N.id in Hf.
    exists (take ns path), (drop ns path), [].
    unfold sv_size. rewrite size_sub_small by lia.
    unfold sv_substr, sv_size.
    destruct (N.ltb_spec (N.of_nat (length path)) (N.of_nat ns)); [lia|].
    rewrite N.min_id, Nat2N.id. simpl. rewrite app_nil_r.
    replace (N.to_nat (N.of_nat (length path) - N.of_nat ns))
      with (length (drop ns path)) by (rewrite length_drop; lia).
    rewrite firstn_all. split_and!; [done|by rewrite take_drop|done|done|done|by left].
  - destruct (sv_find_char_found _ _ _ _ eq_refl Hf)
      as (j & Hj & Hle & Hlt & Hat & Hnot).
    rewrite Hj in *. rewrite Nat2N.id in Hnot.
    destruct (N.eqb_spec (N.of_nat j) npos) as [|_]; [done|].
    exists (take ns path), (take (j - ns) (drop ns path)), (drop j path).
    rewrite size_sub_small by lia.
    unfold sv_substr, sv_size.
    destruct (N.ltb_spec (N.of_nat (length path)) (N.of_nat ns)); [lia|].
    rewrite N.min_l by lia. rewrite Nat2N.id.
    replace (N.to_nat (N.of_nat j - N.of_nat ns)) with (j - ns)%nat by lia.
    simpl. split_and!.
    + done.
    + rewrite <- (take_drop ns path) at 1. f_equal.
      rewrite <- (take_drop (j - ns) (drop ns path)) at 1. f_equal.
      rewrite drop_drop. f_equal. lia.
    + replace (drop j path) with (drop (j - ns) (drop ns path))
        by (rewrite drop_drop; f_equal; lia).
      by rewrite take_drop.
    + done.
    + done.
    + right. by rewrite head_lookup, lookup_drop, Nat.add_0_r.
Qed.

(** X27. The key name that [MakeLocalVoiceToken] derives from a voice
    path that is not empty: after a slash or backslash at the end of the
    path is dropped, the name is the prefix followed by the part of the
    path behind its last backslash (or from its start) up to the first
    underscore behind that (or to its end), so that part holds neither a
    backslash nor an underscore. For an empty path the function calls
    [back()] on an empty string. *)
Theorem MakeLocalVoiceToken_name_segment VoicePath namePrefix :
  (fits (UTF8ToWString VoicePath) → UTF8ToWString VoicePath ≠ [] →
   ∃ path before seg after,
     MakeLocalVoiceToken_path UTF8ToWString VoicePath = Ret path
     ∧ ((UTF8ToWString VoicePath = path
         ∧ last path ≠ Some ch_slash ∧ last path ≠ Some ch_backslash)
        ∨ UTF8ToWString VoicePath = path ++ [ch_slash]
        ∨ UTF8ToWString VoicePath = path ++ [ch_backslash])
     ∧ MakeLocalVoiceToken_name UTF8ToWString VoicePath namePrefix
       = Ret (namePrefix ++ seg)
     ∧ path = before ++ seg ++ after
     ∧ (ch_backslash ∉ seg ++ after)
     ∧ (ch_underscore ∉ seg)
     ∧ (before = [] ∨ last before = Some ch_backslash)
     ∧ (after = [] ∨ head after = Some ch_underscore))
  ∧ (UTF8ToWString VoicePath = [] →
     MakeLocalVoiceToken_name UTF8ToWString VoicePath namePrefix = Undefined).
Proof.
  split.
  - intros Hfit Hne.
    destruct (MakeLocalVoiceToken_path_cases VoicePath Hfit Hne)
      as (path & Hpath & Hfit' & Hcases).
    destruct (name_segment path namePrefix Hfit')
      as (before & seg & after & Hname & ?).
    exists path, before, seg, after. split; [done|]. split; [done|].
    split; [|done].
    unfold MakeLocalVoiceToken_name. rewrite Hpath. exact Hname.
  - intros Hempty. unfold MakeLocalVoiceToken_name, MakeLocalVoiceToken_path.
    by rewrite Hempty.
Qed.
End LocalVoiceFacts.

Lemma MakeLocalVoiceToken_name_segment_witness :
  fits (ascii_to_wide aria_path) ∧ ascii_to_wide aria_path ≠ []
  ∧ ∃ seg,
      MakeLocalVoiceToken_name ascii_to_wide aria_path (lit "Local-")
      = Ret (lit "Local-" ++ seg)
      ∧ seg = lit "MicrosoftWindows.Voice.en-US.Aria.1"
      ∧ (ch_backslash ∉ seg) ∧ (ch_underscore ∉ seg).
Proof.
  assert (fits (ascii_to_wide aria_path)) as Hfit by (by vm_compute).
  assert (ascii_to_wide aria_path ≠ []) as Hne by (by vm_compute).
  split; [done|]. split; [done|].
  destruct (proj1 (MakeLocalVoiceToken_name_segment ascii_to_wide aria_path
                     (lit "Local-")) Hfit Hne)
    as (path & before & seg & after & _ & _ & Hname & _ & Hb & Hu & _).
  exists seg. split; [exact Hname|].
  split.
  - vm_compute in Hname. injection Hname as Hseg. by rewrite <- Hseg.
  - split; [|done]. intros Hin. apply Hb. rewrite elem_of_app. auto.
Defined.

(** ** The request id and the time stamp *)

Lemma digit_value_char d : d < 16 → digit_value (digit_char d) = d.
Proof.
  intros Hd. unfold digit_value, digit_char.
  destruct (N.ltb_spec d 10).
  - destruct (N.ltb_spec (48 + d) 58); lia.
  - destruct (N.ltb_spec (87 + d) 58); lia.
Qed.

Lemma digit_char_hex d : d < 16 → is_hex_digit (digit_char d) = true.
Proof.
  intros Hd. unfold is_hex_digit, digit_char.
  destruct (N.ltb_spec d 10).
  - apply orb_true_iff. left. apply andb_true_iff.
    split; apply N.leb_le; lia.
  - apply orb_true_iff. right. apply andb_true_iff.
    split; apply N.leb_le; lia.
Qed.

Lemma digit_char_dec d : d < 10 → is_dec_digit (digit_char d) = true.
Proof.
  intros Hd. unfold is_dec_digit, digit_char.
  destruct (N.ltb_spec d 10); [|lia].
  apply andb_true_iff. split; apply N.leb_le; lia.
Qed.

Lemma number_of_app base s1 s2 :
  number_of base (s1 ++ s2)
  = foldl (λ a ch, a * base + digit_value ch) (number_of base s1) s2.
Proof. unfold number_of. apply foldl_app. Qed.

Lemma number_of_snoc base s ch :
  number_of base (s ++ [ch]) = number_of base s * base + digit_value ch.
Proof. by rewrite number_of_app. Qed.

Lemma number_of_replicate_0 base n : number_of base (replicate n 48) = 0.
Proof.
  induction n as [|n IH]; [done|].
  replace (S n) with (n + 1)%nat by lia.
  rewrite replicate_add. simpl. rewrite number_of_snoc, IH. done.
Qed.

Lemma number_of_zeros base n s :
  number_of base (replicate n 48 ++ s) = number_of base s.
Proof. by rewrite number_of_app, number_of_replicate_0. Qed.

Lemma digits_of_S fuel base v acc :
  digits_of (S fuel) base v acc
  = if v / base =? 0 then digit_char (v mod base) :: acc
    else digits_of fuel base (v / base) (digit_char (v mod base) :: acc).
Proof. reflexivity. Qed.

(** The digits written for [v]: at least one, at most [k] when
    [v < base ^ k], all of them digits of the base, and they stand for
    [v]. *)
Lemma digits_of_spec base (P : N → Prop) :
  2 ≤ base → base ≤ 16 →
  (∀ d, d < base → P (digit_char d)) →
  ∀ fuel v acc,
    v < 2 ^ N.of_nat (S fuel) →
    ∃ ds, digits_of (S fuel) base v acc = ds ++ acc
        ∧ ds ≠ [] ∧ number_of base ds = v ∧ Forall P ds
        ∧ ∀ k : nat, (1 ≤ k)%nat → v < base ^ N.of_nat k → (length ds ≤ k)%nat.
Proof.
  intros Hb2 Hb16 HP. induction fuel as [|fuel IH]; intros v acc Hv;
    rewrite digits_of_S;
    (assert (v mod base < base) as Hmod by (apply N.mod_lt; lia));
    (destruct (N.eqb_spec (v / base) 0) as [Hq|Hq]).
  1,3: exists [digit_char (v mod base)]; split_and!;
    [ done | done
    | unfold number_of; simpl; rewrite digit_value_char by lia;
      pose proof (N.div_mod v base); lia
    | by apply Forall_singleton, HP
    | simpl; lia ].
  - exfalso. apply Hq. apply N.div_small. simpl in Hv. lia.
  - destruct (IH (v / base) (digit_char (v mod base) :: acc))
      as (ds & -> & Hne & Hval & Hall & Hlen).
    { assert (v / base ≤ v / 2) as Hle
        by (apply N.div_le_compat_l; lia).
      assert (v / 2 < 2 ^ N.of_nat (S fuel)); [|lia].
      apply N.Div0.div_lt_upper_bound.
      replace (2 * 2 ^ N.of_nat (S fuel)) with (2 ^ N.of_nat (S (S fuel)));
        [done|].
      rewrite (Nat2N.inj_succ (S fuel)), N.pow_succ_r'. done. }
    exists (ds ++ [digit_char (v mod base)]). split_and!.
    + by rewrite <- app_assoc.
    + by destruct ds.
    + rewrite number_of_snoc, Hval, digit_value_char by lia.
      pose proof (N.div_mod v base). lia.
    + apply Forall_app. split; [done|]. constructor; [by apply HP|constructor].
    + intros k Hk Hvk. rewrite length_app. simpl.
      destruct k as [|[|k]]; [lia| |].
      * simpl in Hvk. rewrite N.pow_1_r in Hvk.
        rewrite N.div_small in Hq by done. done.
      * specialize (Hlen (S k)).
        assert (v / base < base ^ N.of_nat (S k)); [|lia].
        apply N.Div0.div_lt_upper_bound.
        replace (base * base ^ N.of_nat (S k)) with (base ^ N.of_nat (S (S k)));
          [done|].
        rewrite (Nat2N.inj_succ (S k)), N.pow_succ_r'. done.
Qed.

(** A field of [std::format] with zero padding to [width], for a value
    that fits in [width] digits: exactly [width] digits, which stand for
    the value. *)
Lemma format_padded_spec base (P : N → Prop) (width : nat) v :
  2 ≤ base → base ≤ 16 →
  (∀ d, d < base → P (digit_char d)) →
  (1 ≤ width)%nat → v < base ^ N.of_nat width →
  length (format_padded base width v) = width
  ∧ Forall P (format_padded base width v)
  ∧ number_of base (format_padded base width v) = v.
Proof.
  intros Hb2 Hb16 HP Hw Hv. unfold format_padded.
  destruct (digits_of_spec base P Hb2 Hb16 HP (N.to_nat (N.log2 v)) v [])
    as (ds & Hds & Hne & Hval & Hall & Hlen).
  { destruct (N.eq_dec v 0) as [->|Hv0]; [done|].
    rewrite Nat2N.inj_succ, N2Nat.id.
    apply N.log2_spec. lia. }
  rewrite app_nil_r in Hds. rewrite Hds.
  specialize (Hlen width Hw Hv).
  split_and!.
  - rewrite length_app, length_replicate. lia.
  - apply Forall_app. split; [|done].
    apply Forall_replicate. apply (HP 0). lia.
  - by rewrite number_of_zeros.
Qed.

Lemma format_hex (width : nat) v :
  (1 ≤ width)%nat → v < 16 ^ N.of_nat width →
  length (format_padded 16 width v) = width
  ∧ Forall (λ ch, is_hex_digit ch = true) (format_padded 16 width v)
  ∧ number_of 16 (format_padded 16 width v) = v.
Proof.
  intros. apply format_padded_spec; try done.
  intros d Hd. by apply digit_char_hex.
Qed.

Lemma format_dec (width : nat) v :
  (1 ≤ width)%nat → v < 10 ^ N.of_nat width →
  length (format_padded 10 width v) = width
  ∧ Forall (λ ch, is_dec_digit ch = true) (format_padded 10 width v)
  ∧ number_of 10 (format_padded 10 width v) = v.
Proof.
  intros. apply format_padded_spec; try done.
  intros d Hd. by apply digit_char_dec.
Qed.

Lemma format_hex_inj (width : nat) v1 v2 :
  (1 ≤ width)%nat → v1 < 16 ^ N.of_nat width → v2 < 16 ^ N.of_nat width →
  format_padded 16 width v1 = format_padded 16 width v2 → v1 = v2.
Proof.
  intros Hw H1 H2 Heq.
  destruct (format_hex width v1 Hw H1) as (_ & _ & <-).
  destruct (format_hex width v2 Hw H2) as (_ & _ & <-).
  by rewrite Heq.
Qed.

(** X28. The request id that [MakeRandomUuid] makes of a [GUID] is 32
    characters long, all of them digits or lower-case letters from [a] to
    [f], and different [GUID]s give different ids. *)
Theorem MakeRandomUuid_format guid1 guid2 :
  GUID_wf guid1 → GUID_wf guid2 →
  length (MakeRandomUuid guid1) = 32%nat
  ∧ Forall (λ ch, is_hex_digit ch = true) (MakeRandomUuid guid1)
  ∧ (MakeRandomUuid guid1 = MakeRandomUuid guid2 → guid1 = guid2).
Proof.
  destruct guid1 as [a1 b1 c1 d1], guid2 as [a2 b2 c2 d2].
  unfold GUID_wf, MakeRandomUuid. simpl.
  intros (Ha1 & Hb1 & Hc1 & Hl1 & Hd1) (Ha2 & Hb2 & Hc2 & Hl2 & Hd2).
  do 8 (destruct d1 as [|? d1]; [done|]). destruct d1; [|done].
  do 8 (destruct d2 as [|? d2]; [done|]). destruct d2; [|done].
  clear Hl1 Hl2. simpl.
  repeat match goal with
         | H : Forall _ (_ :: _) |- _ => apply Forall_cons in H as [? H]
         end.
  repeat match goal with
         | |- context [format_padded 16 ?w ?v] =>
             lazymatch goal with
             | _ : length (format_padded 16 w v) = _ |- _ => fail
             | _ => destruct (format_hex w v) as (? & ? & _); [lia|done|]
             end
         end.
  split_and!.
  - rewrite !length_app. lia.
  - repeat (apply Forall_app; split; [done|]). done.
  - intros Heq.
    repeat match type of Heq with
           | _ ++ _ = _ ++ _ =>
               let Hf := fresh "Hf" in
               apply app_inj_1 in Heq; [|congruence];
               destruct Heq as [Hf Heq];
               apply format_hex_inj in Hf; [|lia|done|done]
           end.
    apply format_hex_inj in Heq; [|lia|done|done].
    by subst.
Qed.

Lemma MakeRandomUuid_format_witness :
  GUID_wf guid_example
  ∧ MakeRandomUuid guid_example = lit "0123456789abef0100112233445566ff"
  ∧ length (MakeRandomUuid guid_example) = 32%nat.
Proof.
  assert (GUID_wf guid_example) as Hwf.
  { unfold GUID_wf. simpl. split_and!; try done.
    repeat constructor; done. }
  split; [done|]. split; [by vm_compute|].
  exact (proj1 (MakeRandomUuid_format guid_example guid_example Hwf Hwf)).
Defined.

(** X29. The time stamp that [GetTimeStamp] makes of a time with a year
    below 10000 has the fixed form [yyyy-mm-ddThh:mm:ss.mmmZ] of 24
    characters: each field has its full width of decimal digits, which
    stand for the value of the field. *)
Theorem GetTimeStamp_format tm :
  wYear tm < 10000 → wMonth tm < 100 → wDay tm < 100 → wHour tm < 100 →
  wMinute tm < 100 → wSecond tm < 100 → wMilliseconds tm < 1000 →
  ∃ year month day hour minute second millis,
    GetTimeStamp tm
    = year ++ lit "-" ++ month ++ lit "-" ++ day ++ lit "T" ++ hour
      ++ lit ":" ++ minute ++ lit ":" ++ second ++ lit "." ++ millis
      ++ lit "Z"
    ∧ length (GetTimeStamp tm) = 24%nat
    ∧ Forall (λ '(field, width, value),
                length field = width
                ∧ Forall (λ ch, is_dec_digit ch = true) field
                ∧ number_of 10 field = value)
        [(year, 4%nat, wYear tm); (month, 2%nat, wMonth tm);
         (day, 2%nat, wDay tm); (hour, 2%nat, wHour tm);
         (minute, 2%nat, wMinute tm); (second, 2%nat, wSecond tm);
         (millis, 3%nat, wMilliseconds tm)].
Proof.
  intros Hy Hmo Hd Hh Hmi Hs Hms.
  destruct (format_dec 4 (wYear tm)) as (? & ? & ?); [lia|done|].
  destruct (format_dec 2 (wMonth tm)) as (? & ? & ?); [lia|done|].
  destruct (format_dec 2 (wDay tm)) as (? & ? & ?); [lia|done|].
  destruct (format_dec 2 (wHour tm)) as (? & ? & ?); [lia|done|].
  destruct (format_dec 2 (wMinute tm)) as (? & ? & ?); [lia|done|].
  destruct (format_dec 2 (wSecond tm)) as (? & ? & ?); [lia|done|].
  destruct (format_dec 3 (wMilliseconds tm)) as (? & ? & ?); [lia|done|].
  eexists _, _, _, _, _, _, _. split; [reflexivity|]. split.
  - unfold GetTimeStamp. rewrite !length_app. simpl. lia.
  - repeat (constructor; [done|]). constructor.
Qed.

Lemma GetTimeStamp_format_witness :
  GetTimeStamp time_example = lit "2024-03-08T07:05:09.042Z"
  ∧ length (GetTimeStamp time_example) = 24%nat.
Proof.
  split; [by vm_compute|].
  destruct (GetTimeStamp_format time_example) as (? & ? & ? & ? & ? & ? & ? & _ & Hlen & _);
    try done.
Defined.

(** ** The proxy of a connection *)

Section ProxyFacts.
Variable EqualsIgnoreCase : string_view → string_view → bool.

Local Abbreviation SpeakAsync_proxy' := (SpeakAsync_proxy EqualsIgnoreCase).

(** X30. [SpeakAsync] sets a proxy only with the scheme [http], and it
    does set one in these two cases: for a proxy that is not empty and
    holds no [://], [set_proxy] is called with [http://] put in front of
    the proxy; for a proxy whose text in front of its first [://] equals
    [http], ignoring case, it is called with the proxy itself. For an
    empty proxy and for a proxy with another scheme [set_proxy] is not
    called, and no error is raised. *)
Theorem SpeakAsync_proxy_http proxy :
  fits proxy →
  (proxy = [] → SpeakAsync_proxy EqualsIgnoreCase proxy = None)
  ∧ (proxy ≠ [] →
     (∀ j : nat, starts_with (lit "://") (drop j proxy) = false) →
     SpeakAsync_proxy EqualsIgnoreCase proxy = Some (lit "http://" ++ proxy))
  ∧ (∀ scheme rest,
       proxy = scheme ++ lit "://" ++ rest →
       (∀ j : nat, (j < length scheme)%nat →
                   starts_with (lit "://") (drop j proxy) = false) →
       (EqualsIgnoreCase scheme (lit "http") = true →
        SpeakAsync_proxy EqualsIgnoreCase proxy = Some proxy)
       ∧ (EqualsIgnoreCase scheme (lit "http") = false →
          SpeakAsync_proxy EqualsIgnoreCase proxy = None))
  ∧ (∀ p, SpeakAsync_proxy EqualsIgnoreCase proxy = Some p →
          ∃ scheme rest,
            p = scheme ++ lit "://" ++ rest
            ∧ ((scheme = lit "http" ∧ rest = proxy)
               ∨ (p = proxy ∧ EqualsIgnoreCase scheme (lit "http") = true))).
Proof.
  intros Hfit. unfold SpeakAsync_proxy. split_and!.
  - by intros ->.
  - intros Hne Habs.
    destruct (N.eqb_spec (sv_size proxy) 0) as [H0|_].
    { destruct proxy; [done|]. unfold sv_size in H0. simpl in H0. lia. }
    rewrite sv_find_absent by (intros; apply Habs).
    by rewrite N.eqb_refl.
  - intros scheme rest Hproxy Hfirst.
    assert (sv_size proxy ≠ 0) as Hne.
    { unfold sv_size. rewrite Hproxy, !length_app. simpl. lia. }
    destruct (N.eqb_spec (sv_size proxy) 0) as [|_]; [done|].
    rewrite (sv_find_first proxy (lit "://") 0 (length scheme)); [|done|lia| | |].
    + destruct (N.eqb_spec (N.of_nat (length scheme)) npos) as [Hn|_].
      { unfold fits, sv_size in Hfit. rewrite Hproxy, length_app in Hfit. lia. }
      rewrite Nat2N.id.
      replace (take (length scheme) proxy) with scheme
        by (by rewrite Hproxy, take_app_length).
      split; by intros ->.
    + rewrite Hproxy, length_app. lia.
    + rewrite Hproxy, drop_app_length. apply starts_with_app. by exists rest.
    + intros j _ Hj. by apply Hfirst.
  - intros p. destruct (N.eqb_spec (sv_size proxy) 0) as [|Hne]; [done|].
    destruct (N.eqb_spec (sv_find proxy (lit "://") 0) npos) as [Hn|Hn].
    + intros [= <-]. exists (lit "http"), proxy. split; [done|]. by left.
    + destruct (sv_find_found _ _ _ _ eq_refl Hn)
        as (k & Hk & _ & _ & [rest Hrest]%starts_with_app & _).
      rewrite Hk, Nat2N.id.
      destruct (EqualsIgnoreCase (take k proxy) (lit "http")) eqn:Heq; [|done].
      intros [= <-]. exists (take k proxy), rest. split; [|by right].
      by rewrite <- Hrest, take_drop.
Qed.
End ProxyFacts.

Lemma SpeakAsync_proxy_http_witness :
  SpeakAsync_proxy ascii_EqualsIgnoreCase (lit "proxy.example:8080")
  = Some (lit "http://proxy.example:8080")
  ∧ SpeakAsync_proxy ascii_EqualsIgnoreCase (lit "HTTP://proxy.example:8080")
    = Some (lit "HTTP://proxy.example:8080")
  ∧ SpeakAsync_proxy ascii_EqualsIgnoreCase (lit "socks5://proxy.example:1080")
    = None.
Proof.
  split_and!.
  - refine (proj1 (proj2 (SpeakAsync_proxy_http ascii_EqualsIgnoreCase
                            (lit "proxy.example:8080") _)) _ _).
    + by vm_compute.
    + done.
    + intros j.
      destruct (decide (j < 18)%nat) as [Hj|Hj].
      * do 18 (destruct j as [|j]; [by vm_compute|]). lia.
      * rewrite drop_ge; [done|]. simpl. lia.
  - refine (proj1 (proj1 (proj2 (proj2 (SpeakAsync_proxy_http
                     ascii_EqualsIgnoreCase
                     (lit "HTTP://proxy.example:8080") _)))
                     (lit "HTTP") (lit "proxy.example:8080") _ _) _).
    + by vm_compute.
    + reflexivity.
    + intros j Hj. change (length (lit "HTTP")) with 4%nat in Hj.
      do 4 (destruct j as [|j]; [by vm_compute|]). lia.
    + by vm_compute.
  - refine (proj2 (proj1 (proj2 (proj2 (SpeakAsync_proxy_http
                     ascii_EqualsIgnoreCase
                     (lit "socks5://proxy.example:1080") _)))
                     (lit "socks5") (lit "proxy.example:1080") _ _) _).
    + by vm_compute.
    + reflexivity.
    + intros j Hj. change (length (lit "socks5")) with 6%nat in Hj.
      do 6 (destruct j as [|j]; [by vm_compute|]). lia.
    + by vm_compute.
Defined.
